(** * OAK-4D PNG capturer: acquisition cycle, quality gates and focus scan

    Shallow embedding of [leer_image/captura_oficial_png.py].

    - [get_png_compression] (lines 22-28) is a pure function of the process
      environment.
    - [main] (lines 33-343) is a polling loop over the camera queues.  Its
      local variables that outlive one iteration form the [state]; everything
      it talks to (the queues, the clock, the keyboard, standard output and
      the image writer) forms the [world], threaded explicitly through every
      operation.  What the program prints, writes, pops and sleeps is
      recorded, in order, in the world's trace.

    Times are seconds and image metrics are numbers, both modelled as
    rationals ([Q]): the comparisons of the source are the comparisons of
    [Q]; rounding of the floating point average is not modelled. *)

From Stdlib Require Import List ZArith QArith Qround Qminmax String Ascii Bool Lia Lqa.
Import ListNotations.

(* ================================================================= *)
(** ** Rational helpers *)

(** [x < y] on floats, as a boolean. *)
Definition Qltb (x y : Q) : bool := negb (Qle_bool y x).

(** [sum(values)]: Python adds from the left, starting at 0. *)
Definition Qsum (values : list Q) : Q := fold_left Qplus values 0%Q.

(* ================================================================= *)
(** ** Python dictionaries

    A [dict] keeps its keys in insertion order, and that order is observable
    in the source ([list(captured_frames.items())[:n]], the order of the
    files written, the lists printed): an association list with in-place
    update. *)

Section Dict.
Variable V : Type.

Definition dict := list (string * V).

(** [d.get(k)] *)
Fixpoint dict_get (k : string) (d : dict) : option V :=
  match d with
  | [] => None
  | (k', v) :: rest => if String.eqb k k' then Some v else dict_get k rest
  end.

(** [k in d] *)
Definition dict_mem (k : string) (d : dict) : bool :=
  match dict_get k d with Some _ => true | None => false end.

(** [d[k] = v]: an existing key keeps its place, a new key goes last. *)
Fixpoint dict_set (k : string) (v : V) (d : dict) : dict :=
  match d with
  | [] => [(k, v)]
  | (k', v') :: rest =>
      if String.eqb k k' then (k, v) :: rest else (k', v') :: dict_set k v rest
  end.

(** [d.keys()] *)
Definition dict_keys (d : dict) : list string := map fst d.
End Dict.

Arguments dict_get {V} k d.
Arguments dict_mem {V} k d.
Arguments dict_set {V} k v d.
Arguments dict_keys {V} d.

(** Truth value of a list ([if frames:], [if lacking:]). *)
Definition nonempty {A : Type} (l : list A) : bool :=
  match l with [] => false | _ :: _ => true end.

(** [l[:n]], also for a negative [n] (all but the last [-n] elements). *)
Definition py_slice_to {A : Type} (n : Z) (l : list A) : list A :=
  if (n <? 0)%Z
  then firstn (Z.to_nat (Z.of_nat (List.length l) + n)) l
  else firstn (Z.to_nat n) l.

(* ================================================================= *)
(** ** PNG compression level (lines 22-28) *)

Section PngCompression.
(** [int(s)] on a string: [None] stands for [ValueError].  The builtin is
    not part of the repository: it is a parameter of the function below. *)
Variable py_int : string -> option Z.

(** [os.environ] *)
Definition environ := dict string.

(** [os.environ.get(key, default)] *)
Definition environ_get (env : environ) (key default : string) : string :=
  match dict_get key env with
  | Some v => v
  | None => default
  end.

Definition get_png_compression (env : environ) : Z :=
  match py_int (environ_get env "PNG_COMPRESSION" "3") with
  | Some val => Z.max 0 (Z.min 9 val)
  | None => 3%Z
  end.
End PngCompression.

(** A decimal reader in the manner of [int]: surrounding blanks, one optional
    sign, then digits only.  Used to run [get_png_compression] on concrete
    environments. *)
Definition is_blank (c : ascii) : bool :=
  let n := nat_of_ascii c in
  (n =? 32)%nat || ((9 <=? n)%nat && (n <=? 13)%nat).

Fixpoint lstrip (cs : list ascii) : list ascii :=
  match cs with
  | c :: rest => if is_blank c then lstrip rest else cs
  | [] => []
  end.

Definition strip (cs : list ascii) : list ascii :=
  rev (lstrip (rev (lstrip cs))).

Definition digit_of (c : ascii) : option Z :=
  let n := nat_of_ascii c in
  if ((48 <=? n)%nat && (n <=? 57)%nat)%bool
  then Some (Z.of_nat (n - 48)) else None.

Fixpoint read_digits (acc : Z) (cs : list ascii) : option Z :=
  match cs with
  | [] => Some acc
  | c :: rest =>
      match digit_of c with
      | Some d => read_digits (10 * acc + d)%Z rest
      | None => None
      end
  end.

Definition read_unsigned (cs : list ascii) : option Z :=
  match cs with
  | [] => None
  | _ :: _ => read_digits 0%Z cs
  end.

Definition decimal_int (s : string) : option Z :=
  match strip (list_ascii_of_string s) with
  | "-"%char :: rest => option_map Z.opp (read_unsigned rest)
  | "+"%char :: rest => read_unsigned rest
  | cs => read_unsigned cs
  end.


(* ================================================================= *)
(** ** Frames, queues and the outside world *)

(** A decoded image, as far as the program looks at it: the mean of its
    grey levels ([gray.mean()]) and the variance of its Laplacian
    ([cv2.Laplacian(gray, cv2.CV_64F).var()]). *)
Record image := {
  gray_mean : Q;
  laplacian_var : Q
}.

(** The frame returned by [queue.get().getCvFrame()].  [f_seq] is not
    program data: it numbers the frames popped from one queue (0 for the
    first) so that theorems can tell them apart. *)
Record frame := {
  f_seq : nat;
  f_img : image
}.

(** One output queue: how many frames were popped so far, and the frames
    still to come with the time each one becomes available. *)
Record queue := {
  q_popped : nat;
  q_pending : list (Q * image)
}.

(** The three ways the source tries to command the lens (lines 141-146). *)
Inductive focus_method := SetManualFocus | SetFocus | SetLensPosition.

(** What the program does to the outside, one constructor per statement
    with an effect. *)
Inductive event :=
| Sleep (seconds : Q)                         (* time.sleep *)
| Pop (cam : string) (f : frame)              (* queue.get() *)
| ImShow (cam : string) (f : frame)             (* cv2.imshow, lines 198-216 *)
| ImWrite (cam : string) (f : frame)            (* cv2.imwrite and its report, lines 320-331 *)
| FocusCmd (cam : string) (m : focus_method) (pos : Z)   (* a lens command that returned *)
| MsgCamNotFound (cam : string)               (* line 122 *)
| MsgNoFocusApi (cam : string)                (* line 127 *)
| MsgScanning (cam : string)                  (* line 129 *)
| MsgSetFailed (pos : Z)                      (* line 148 *)
| MsgPos (pos : Z) (sharp_var : Q)            (* line 162 *)
| MsgBestFocus (cam : string) (pos : Z) (best_var : Q)   (* line 167 *)
| MsgNoBestFocus (cam : string)               (* line 178 *)
| MsgWaitTimeout (held : list string)         (* line 224 *)
| MsgQuit                                     (* lines 231 and 250 *)
| MsgPostponed (lacking : list string)        (* line 260 *)
| MsgStillDark (retries : Z) (too_dark : list (string * Q))      (* line 279 *)
| MsgDarkRetry (too_dark : list (string * Q)) (wait : Q) (attempt retries : Z)  (* line 281 *)
| MsgBlurryRetry (avg_sharp min_sharpness : Q)   (* line 301 *)
| MsgSharpOk (avg_sharp : Q)                  (* line 311 *)
| MsgSaving (capture_count : Z)               (* line 318 *)
| MsgOneShotDone.                             (* line 333 *)

(** Everything outside the program.  [w_lag] is the time the program's own
    work takes: each reading of the clock first lets the next amount pass
    (none when the list is exhausted).  [w_keys] are the coming results of
    [cv2.waitKey(1)]. *)
Record world := {
  w_time : Q;
  w_lag : list Q;
  w_queues : dict queue;
  w_keys : list Z;
  w_trace : list event
}.

(** The keys of [outputQueues], which are also those of [cam_nodes],
    [warmup_counter] and [per_cam_frames] (lines 93-97, 112-113). *)
Definition cams (w : world) : list string := dict_keys (w_queues w).

Definition emit (e : event) (w : world) : world :=
  {| w_time := w_time w; w_lag := w_lag w; w_queues := w_queues w;
     w_keys := w_keys w; w_trace := w_trace w ++ [e] |}.

(** [time.time()] *)
Definition time_time (w : world) : Q * world :=
  match w_lag w with
  | [] => (w_time w, w)
  | d :: rest =>
      let t := (w_time w + d)%Q in
      (t, {| w_time := t; w_lag := rest; w_queues := w_queues w;
             w_keys := w_keys w; w_trace := w_trace w |})
  end.

(** [time.sleep(seconds)], for a length that is not negative. *)
Definition time_sleep (seconds : Q) (w : world) : world :=
  {| w_time := (w_time w + seconds)%Q; w_lag := w_lag w; w_queues := w_queues w;
     w_keys := w_keys w; w_trace := w_trace w ++ [Sleep seconds] |}.

(** [cv2.waitKey(1) & 0xFF]; [waitKey] returns -1 when no key was pressed. *)
Definition wait_key (w : world) : Z * world :=
  match w_keys w with
  | [] => (Z.land (-1) 255, w)
  | k :: rest =>
      (Z.land k 255,
       {| w_time := w_time w; w_lag := w_lag w; w_queues := w_queues w;
          w_keys := rest; w_trace := w_trace w |})
  end.

(** [queue.has()] *)
Definition queue_has (name : string) (w : world) : bool :=
  match dict_get name (w_queues w) with
  | Some q =>
      match q_pending q with
      | (arrival, _) :: _ => Qle_bool arrival (w_time w)
      | [] => false
      end
  | None => false
  end.

(** [if queue.has(): ... queue.get().getCvFrame()]: the frame and the world
    after the pop, or [None] when the queue has nothing. *)
Definition queue_poll (name : string) (w : world) : option (frame * world) :=
  match dict_get name (w_queues w) with
  | Some q =>
      match q_pending q with
      | (arrival, img) :: rest =>
          if Qle_bool arrival (w_time w) then
            let f := {| f_seq := q_popped q; f_img := img |} in
            let q' := {| q_popped := S (q_popped q); q_pending := rest |} in
            Some (f, {| w_time := w_time w; w_lag := w_lag w;
                        w_queues := dict_set name q' (w_queues w);
                        w_keys := w_keys w;
                        w_trace := w_trace w ++ [Pop name f] |})
          else None
      | [] => None
      end
  | None => None
  end.

(** Number of frames popped so far from a camera's queue. *)
Definition popped (name : string) (w : world) : nat :=
  match dict_get name (w_queues w) with
  | Some q => q_popped q
  | None => O
  end.

(** Results of a loop that runs on fuel: a value, an exception that reaches
    [except Exception] (line 339), or fuel exhausted. *)
Inductive res (A : Type) :=
| Ok (a : A)
| Exn (w : world)
| NoFuel.
Arguments Ok {A} a.
Arguments Exn {A} w.
Arguments NoFuel {A}.

(* ================================================================= *)
(** ** Parameters and local state of [main] *)

(** The keyword parameters of [main] (lines 33-48) that the capture logic
    reads.  [None] is Python's [None]. *)
Record config := {
  headless : bool;
  auto_interval : option Q;
  one_shot : bool;
  wait_all : bool;
  wait_timeout : Q;
  warmup_frames : Z;
  min_frames_each : Z;
  min_brightness : option Q;
  brightness_retry : Z;
  brightness_wait : Q;
  min_sharpness : option Q;
  sharpness_frames : Z;
  focus_scan : bool;
  focus_positions : option (list Z);
  focus_only_cam : option string
}.

(** [warmup_counter] and [per_cam_frames] are dictionaries created with one
    entry per socket and only ever indexed by a socket name, so a lookup
    never misses: they are total maps here, and their [items()] are taken
    over [cams]. *)
Definition counter := string -> Z.

Definition bump (name : string) (c : counter) : counter :=
  fun k => if String.eqb k name then (c k + 1)%Z else c k.

(** The variables of [main] that live across iterations of the main loop
    (lines 109-113). *)
Record state := {
  capture_count : Z;
  last_auto_capture : Q;
  warmup_counter : counter;
  per_cam_frames : counter
}.

Definition init_state : state :=
  {| capture_count := 0; last_auto_capture := 0;
     warmup_counter := fun _ => 0%Z; per_cam_frames := fun _ => 0%Z |}.

Definition bump_warmup (name : string) (st : state) : state :=
  {| capture_count := capture_count st; last_auto_capture := last_auto_capture st;
     warmup_counter := bump name (warmup_counter st);
     per_cam_frames := per_cam_frames st |}.

Definition bump_frames (name : string) (st : state) : state :=
  {| capture_count := capture_count st; last_auto_capture := last_auto_capture st;
     warmup_counter := warmup_counter st;
     per_cam_frames := bump name (per_cam_frames st) |}.

(* ================================================================= *)
(** ** Focus scan (lines 116-178) *)

(** A camera node, as far as the scan looks at it: which of the three lens
    methods it has ([hasattr]), and at which positions a lens command
    raises. *)
Record cam_node := {
  has_setManualFocus : bool;
  has_setFocus : bool;
  has_setLensPosition : bool;
  focus_raises : Z -> bool
}.

(** Line 125 *)
Definition supported (node : cam_node) : bool :=
  has_setManualFocus node || has_setFocus node || has_setLensPosition node.

(** The [if / elif / elif] of lines 141-146 and 169-174: [None] when the
    call raised, otherwise the world after it. *)
Definition set_focus (node : cam_node) (name : string) (pos : Z) (w : world)
  : option world :=
  if has_setManualFocus node then
    if focus_raises node pos then None else Some (emit (FocusCmd name SetManualFocus pos) w)
  else if has_setFocus node then
    if focus_raises node pos then None else Some (emit (FocusCmd name SetFocus pos) w)
  else if has_setLensPosition node then
    if focus_raises node pos then None else Some (emit (FocusCmd name SetLensPosition pos) w)
  else Some w.

(** Lines 136-137: pop stale frames for at most one second.  Every round
    pops one pending frame, so the loop is run on the number of pending
    frames. *)
Fixpoint drain (rounds : nat) (name : string) (t0 : Q) (w : world) : world :=
  match rounds with
  | O => w
  | S rounds' =>
      let (now, w1) := time_time w in
      if Qltb (now - t0) 1 then
        match queue_poll name w1 with
        | Some (_, w2) => drain rounds' name t0 w2
        | None => w1
        end
      else w1
  end.

Definition pending_count (name : string) (w : world) : nat :=
  match dict_get name (w_queues w) with
  | Some q => List.length (q_pending q)
  | None => O
  end.

(** Lines 152-159: spin until the queue has a frame or [window] seconds
    have passed.  The spin itself is not unrolled: it ends with the next
    frame if that frame arrives within the window, at the later of the
    start and the arrival, and otherwise without a frame at the end of the
    window. *)
Definition wait_frame (name : string) (window : Q) (w : world)
  : option frame * world :=
  let (eval_start, w1) := time_time w in
  let expired :=
    {| w_time := (eval_start + window)%Q; w_lag := w_lag w1;
       w_queues := w_queues w1; w_keys := w_keys w1; w_trace := w_trace w1 |} in
  match dict_get name (w_queues w1) with
  | Some q =>
      match q_pending q with
      | (arrival, img) :: rest =>
          if Qltb arrival (eval_start + window) then
            let f := {| f_seq := q_popped q; f_img := img |} in
            let q' := {| q_popped := S (q_popped q); q_pending := rest |} in
            (Some f,
             {| w_time := Qmax eval_start arrival; w_lag := w_lag w1;
                w_queues := dict_set name q' (w_queues w1);
                w_keys := w_keys w1;
                w_trace := w_trace w1 ++ [Pop name f] |})
          else (None, expired)
      | [] => (None, expired)
      end
  | None => (None, expired)
  end.

(** Lines 139-165: the loop over the positions, with its two loop
    variables [best_var] and [best_pos]. *)
Fixpoint scan_positions (node : cam_node) (name : string) (positions : list Z)
    (best_var : Q) (best_pos : option Z) (w : world) : Q * option Z * world :=
  match positions with
  | [] => (best_var, best_pos, w)
  | pos :: rest =>
      match set_focus node name pos w with
      | None =>
          scan_positions node name rest best_var best_pos (emit (MsgSetFailed pos) w)
      | Some w1 =>
          let w2 := time_sleep (15#100) w1 in
          match wait_frame name (1#2) w2 with
          | (None, w3) => scan_positions node name rest best_var best_pos w3
          | (Some frame_eval, w3) =>
              let sharp_var := laplacian_var (f_img frame_eval) in
              let w4 := emit (MsgPos pos sharp_var) w3 in
              if Qltb best_var sharp_var
              then scan_positions node name rest sharp_var (Some pos) w4
              else scan_positions node name rest best_var best_pos w4
          end
      end
  end.

(** Lines 129-178: the scan of one camera that has a lens method. *)
Definition focus_scan_cam (node : cam_node) (name : string) (positions : list Z)
    (w : world) : world :=
  let w0 := emit (MsgScanning name) w in
  let (t0, w1) := time_time w0 in
  let w2 := drain (S (pending_count name w1)) name t0 w1 in
  match scan_positions node name positions (-1) None w2 with
  | (best_var, Some best_pos, w3) =>
      let w4 := emit (MsgBestFocus name best_pos best_var) w3 in
      match set_focus node name best_pos w4 with
      | Some w5 => w5
      | None => w4
      end
  | (_, None, w3) => emit (MsgNoBestFocus name) w3
  end.

(** Lines 119-178: the loop over the targeted cameras. *)
Fixpoint focus_scan_cams (cam_nodes : dict cam_node) (positions : list Z)
    (target_cams : list string) (w : world) : world :=
  match target_cams with
  | [] => w
  | cam_name :: rest =>
      match dict_get cam_name cam_nodes with
      | None =>
          focus_scan_cams cam_nodes positions rest (emit (MsgCamNotFound cam_name) w)
      | Some cam_node =>
          if negb (supported cam_node)
          then focus_scan_cams cam_nodes positions rest (emit (MsgNoFocusApi cam_name) w)
          else focus_scan_cams cam_nodes positions rest
                 (focus_scan_cam cam_node cam_name positions w)
      end
  end.

(** Lines 77-79 *)
Definition effective_positions (cfg : config) : list Z :=
  match focus_positions cfg with
  | None | Some [] => [50; 80; 110; 140; 170; 200]%Z
  | Some ps => ps
  end.

(** Line 118; an empty string is false like [None]. *)
Definition target_cams (cfg : config) (cam_nodes : dict cam_node) : list string :=
  match focus_only_cam cfg with
  | Some EmptyString | None => dict_keys cam_nodes
  | Some c => [c]
  end.

(** Lines 116-178 *)
Definition focus_scan_phase (cfg : config) (cam_nodes : dict cam_node) (w : world)
  : world :=
  if focus_scan cfg
  then focus_scan_cams cam_nodes (effective_positions cfg) (target_cams cfg cam_nodes) w
  else w.

(* ================================================================= *)
(** ** Acquisition cycle (lines 180-334) *)

(** Lines 187-216: one pass over the queues.  [names] is what is left of
    [outputQueues.items()]. *)
Fixpoint poll_pass (cfg : config) (names : list string) (st : state)
    (frames : dict frame) (acquired_any : bool) (w : world)
  : state * dict frame * bool * world :=
  match names with
  | [] => (st, frames, acquired_any, w)
  | name :: rest =>
      if dict_mem name frames then poll_pass cfg rest st frames acquired_any w
      else
        match queue_poll name w with
        | None => poll_pass cfg rest st frames acquired_any w
        | Some (frame, w1) =>
            if (warmup_counter st name <? warmup_frames cfg)%Z
            then poll_pass cfg rest (bump_warmup name st) frames acquired_any w1
            else
              let st1 := bump_frames name st in
              let frames1 := dict_set name frame frames in
              let w2 := if headless cfg then w1 else emit (ImShow name frame) w1 in
              poll_pass cfg rest st1 frames1 true w2
        end
  end.

(** [key in (ord('q'), ord('Q'))] *)
Definition is_quit_key (key : Z) : bool := ((key =? 113) || (key =? 81))%Z.

(** [key in (ord('s'), ord('S'), ord(' '))] *)
Definition is_capture_key (key : Z) : bool :=
  ((key =? 115) || (key =? 83) || (key =? 32))%Z.

(** How the [while True] of lines 185-232 ends. *)
Inductive collected :=
| Collected (st : state) (frames : dict frame) (w : world)   (* break *)
| CollectQuit (w : world)                                    (* return True, line 232 *)
| CollectFuel.

(** Lines 185-232 *)
Fixpoint collect_frames (cfg : config) (fuel : nat) (start_wait_cycle : Q)
    (st : state) (frames : dict frame) (w : world) : collected :=
  match fuel with
  | O => CollectFuel
  | S fuel' =>
      let '(st1, frames1, acquired_any, w1) :=
        poll_pass cfg (cams w) st frames false w in
      if negb (wait_all cfg) then Collected st1 frames1 w1
      else
        let have_all := (List.length frames1 =? List.length (w_queues w1))%nat in
        let (now, w2) := time_time w1 in
        let timed_out := Qle_bool (wait_timeout cfg) (now - start_wait_cycle) in
        if have_all || timed_out then
          Collected st1 frames1
            (if timed_out && negb have_all && one_shot cfg
             then emit (MsgWaitTimeout (dict_keys frames1)) w2
             else w2)
        else
          let w3 := if acquired_any then w2 else time_sleep (5#1000) w2 in
          if headless cfg
          then collect_frames cfg fuel' start_wait_cycle st1 frames1 w3
          else
            let (key, w4) := wait_key w3 in
            if is_quit_key key then CollectQuit (emit MsgQuit w4)
            else collect_frames cfg fuel' start_wait_cycle st1 frames1 w4
  end.

(** Lines 284-287 and 304-307: every queue that has a frame replaces (or
    adds) the entry of its camera. *)
Fixpoint refresh (names : list string) (captured_frames : dict frame) (w : world)
  : dict frame * world :=
  match names with
  | [] => (captured_frames, w)
  | sock :: rest =>
      match queue_poll sock w with
      | Some (new_frame, w1) => refresh rest (dict_set sock new_frame captured_frames) w1
      | None => refresh rest captured_frames w
      end
  end.

(** Lines 269-274: the cameras whose held frame is too dark, with the mean
    measured. *)
Definition too_dark_of (min_brightness : Q) (captured_frames : dict frame)
  : list (string * Q) :=
  map (fun sf => (fst sf, gray_mean (f_img (snd sf))))
      (filter (fun sf => Qltb (gray_mean (f_img (snd sf))) min_brightness)
              captured_frames).

(** Lines 268-287.  [time.sleep] raises [ValueError] on a negative length. *)
Fixpoint brightness_loop (cfg : config) (fuel : nat) (attempt : Z)
    (captured_frames : dict frame) (w : world) : res (dict frame * world) :=
  match min_brightness cfg with
  | None => Ok (captured_frames, w)
  | Some min_b =>
      if (attempt <=? brightness_retry cfg)%Z then
        match fuel with
        | O => NoFuel
        | S fuel' =>
            let too_dark := too_dark_of min_b captured_frames in
            if negb (nonempty too_dark) then Ok (captured_frames, w)
            else
              let attempt1 := (attempt + 1)%Z in
              if (attempt1 >? brightness_retry cfg)%Z
              then Ok (captured_frames,
                       emit (MsgStillDark (brightness_retry cfg) too_dark) w)
              else
                let w1 := emit (MsgDarkRetry too_dark (brightness_wait cfg) attempt1
                                             (brightness_retry cfg)) w in
                if Qltb (brightness_wait cfg) 0 then Exn w1
                else
                  let w2 := time_sleep (brightness_wait cfg) w1 in
                  let (captured1, w3) := refresh (cams w2) captured_frames w2 in
                  brightness_loop cfg fuel' attempt1 captured1 w3
        end
      else Ok (captured_frames, w)
  end.

(** Lines 293-299: the values averaged, and their average. *)
Definition sharp_values_of (cfg : config) (captured_frames : dict frame) : list Q :=
  map (fun sf => laplacian_var (f_img (snd sf)))
      (py_slice_to (sharpness_frames cfg) captured_frames).

Definition average (values : list Q) : Q :=
  (Qsum values / inject_Z (Z.of_nat (List.length values)))%Q.

(** Lines 292-314 *)
Fixpoint sharpness_loop (cfg : config) (min_s : Q) (fuel : nat) (sharp_attempts : Z)
    (captured_frames : dict frame) (w : world) : res (dict frame * world) :=
  if (sharp_attempts <? 3)%Z then
    match fuel with
    | O => NoFuel
    | S fuel' =>
        let sharp_values := sharp_values_of cfg captured_frames in
        if nonempty sharp_values then
          let avg_sharp := average sharp_values in
          if Qltb avg_sharp min_s then
            let w1 := emit (MsgBlurryRetry avg_sharp min_s) w in
            let w2 := time_sleep (3#10) w1 in
            let (captured1, w3) := refresh (cams w2) captured_frames w2 in
            sharpness_loop cfg min_s fuel' (sharp_attempts + 1)%Z captured1 w3
          else Ok (captured_frames, emit (MsgSharpOk avg_sharp) w)
        else Ok (captured_frames, w)
    end
  else Ok (captured_frames, w).

(** Lines 290-314 *)
Definition sharpness_check (cfg : config) (fuel : nat)
    (captured_frames : dict frame) (w : world) : res (dict frame * world) :=
  match min_sharpness cfg with
  | Some min_s => sharpness_loop cfg min_s fuel 0 captured_frames w
  | None => Ok (captured_frames, w)
  end.

(** Lines 319-331: one file per held frame, in the order of the dictionary. *)
Definition write_batch (captured_frames : dict frame) (w : world) : world :=
  fold_left (fun w' sf => emit (ImWrite (fst sf) (snd sf)) w') captured_frames w.

(** How one iteration of [while pipeline.isRunning()] ends. *)
Inductive outcome :=
| Continue (st : state) (w : world)   (* on to the next iteration *)
| Break (st : state) (w : world)      (* leaves the loop; main returns True *)
| Return (w : world)                  (* return True from the wait loop *)
| Raised (w : world)                  (* except Exception: main returns False *)
| OutOfFuel.

(** Lines 258-262: the cameras that have not yet delivered
    [min_frames_each] frames past warm-up. *)
Definition lacking_of (cfg : config) (st : state) (w : world) : list string :=
  filter (fun cam => (per_cam_frames st cam <? min_frames_each cfg)%Z) (cams w).

Definition count_capture (st : state) : state :=
  {| capture_count := (capture_count st + 1)%Z;
     last_auto_capture := last_auto_capture st;
     warmup_counter := warmup_counter st;
     per_cam_frames := per_cam_frames st |}.

(** Lines 257-334: the body of [if do_capture and frames:]. *)
Definition capture_batch (cfg : config) (fuel : nat) (st : state)
    (frames : dict frame) (w : world) : outcome :=
  let lacking := lacking_of cfg st w in
  if nonempty lacking then Continue st (emit (MsgPostponed lacking) w)
  else
    match brightness_loop cfg fuel 0 frames w with
    | NoFuel => OutOfFuel
    | Exn w1 => Raised w1
    | Ok (captured1, w1) =>
        match sharpness_check cfg fuel captured1 w1 with
        | NoFuel => OutOfFuel
        | Exn w2 => Raised w2
        | Ok (captured2, w2) =>
            let st1 := count_capture st in
            let w3 := emit (MsgSaving (capture_count st1)) w2 in
            let w4 := write_batch captured2 w3 in
            if one_shot cfg then Break st1 (emit MsgOneShotDone w4)
            else Continue st1 w4
        end
    end.

(** Truth value of [auto_interval]: neither [None] nor zero. *)
Definition interval_of (cfg : config) : option Q :=
  match auto_interval cfg with
  | Some i => if Qeq_bool i 0 then None else Some i
  | None => None
  end.

Definition set_last_auto_capture (now : Q) (st : state) : state :=
  {| capture_count := capture_count st; last_auto_capture := now;
     warmup_counter := warmup_counter st; per_cam_frames := per_cam_frames st |}.

(** Lines 234-240: the automatic trigger of headless mode. *)
Definition auto_trigger (cfg : config) (st : state) (frames : dict frame) (w : world)
  : bool * state * world :=
  match interval_of cfg with
  | Some interval =>
      if headless cfg && nonempty frames then
        let (now, w1) := time_time w in
        if Qle_bool interval (now - last_auto_capture st)
        then (true, set_last_auto_capture now st, w1)
        else (false, st, w1)
      else (false, st, w)
  | None => (false, st, w)
  end.

(** Lines 234-334: what follows the wait loop. *)
Definition evaluate (cfg : config) (fuel : nat) (st : state) (frames : dict frame)
    (w : world) : outcome :=
  let '(do_capture, st1, w1) := auto_trigger cfg st frames w in
  let (key, w2) :=
    if headless cfg then (255%Z, time_sleep (1#100) w1) else wait_key w1 in
  if negb (headless cfg) && is_quit_key key then Break st1 (emit MsgQuit w2)
  else
    let do_capture1 :=
      do_capture || (negb (headless cfg) && is_capture_key key && nonempty frames) in
    let do_capture2 :=
      do_capture1 || (one_shot cfg && nonempty frames && (capture_count st1 =? 0)%Z) in
    if do_capture2 && nonempty frames
    then capture_batch cfg fuel st1 frames w2
    else Continue st1 w2.

(** Lines 181-334: one iteration of the main loop. *)
Definition cycle (cfg : config) (fuel : nat) (st : state) (w : world) : outcome :=
  let (start_wait_cycle, w0) := time_time w in
  match collect_frames cfg fuel start_wait_cycle st [] w0 with
  | CollectFuel => OutOfFuel
  | CollectQuit w1 => Return w1
  | Collected st1 frames w1 => evaluate cfg fuel st1 frames w1
  end.

(** Line 180: [iterations] is the number of times [pipeline.isRunning()]
    answers yes before the pipeline stops. *)
Fixpoint main_loop (cfg : config) (fuel : nat) (iterations : nat) (st : state)
    (w : world) : outcome :=
  match iterations with
  | O => Break st w
  | S iterations' =>
      match cycle cfg fuel st w with
      | Continue st1 w1 => main_loop cfg fuel iterations' st1 w1
      | other => other
      end
  end.

(** Lines 109-334: the focus scan, then the main loop on fresh counters. *)
Definition main (cfg : config) (cam_nodes : dict cam_node) (fuel iterations : nat)
    (w : world) : outcome :=
  main_loop cfg fuel iterations init_state (focus_scan_phase cfg cam_nodes w).

(** The world an outcome leaves behind. *)
Definition world_of (o : outcome) : option world :=
  match o with
  | Continue _ w | Break _ w | Return w | Raised w => Some w
  | OutOfFuel => None
  end.

(** The files written so far. *)
Definition writes (trace : list event) : list (string * frame) :=
  flat_map (fun e => match e with ImWrite cam f => [(cam, f)] | _ => [] end) trace.

(** The events added to the trace between two worlds. *)
Definition events_since (w w' : world) : list event :=
  skipn (List.length (w_trace w)) (w_trace w').

(** The focus samples recorded in a trace: one per line 162. *)
Definition samples_of (trace : list event) : list (Z * Q) :=
  flat_map (fun e => match e with MsgPos pos v => [(pos, v)] | _ => [] end) trace.

(** [w'] continues the trace of [w] with events that all satisfy [P]. *)
Definition trace_ext (P : event -> Prop) (w w' : world) : Prop :=
  exists new, w_trace w' = w_trace w ++ new /\ Forall P new.

(** The lens method the [if / elif / elif] chain of lines 141-146 picks. *)
Definition focus_method_of (node : cam_node) : option focus_method :=
  if has_setManualFocus node then Some SetManualFocus
  else if has_setFocus node then Some SetFocus
  else if has_setLensPosition node then Some SetLensPosition
  else None.

(** Lines 163-165 as a step on the pair [(best_var, best_pos)], and the
    scan of a list of samples with it. *)
Definition better (best : Q * option Z) (sample : Z * Q) : Q * option Z :=
  if Qltb (fst best) (snd sample) then (snd sample, Some (fst sample)) else best.

Definition pick (best : Q * option Z) (samples : list (Z * Q)) : Q * option Z :=
  fold_left better samples best.

(** The events a focus scan of camera [name] can add. *)
Definition scan_event (name : string) (e : event) : Prop :=
  match e with
  | Sleep _ | MsgSetFailed _ | MsgPos _ _ | MsgScanning _
  | MsgBestFocus _ _ _ | MsgNoBestFocus _ => True
  | Pop cam _ | FocusCmd cam _ _ => cam = name
  | _ => False
  end.

(** What lines 166-176 add to the trace once [pos] was chosen for camera
    [name]: the report of line 167, then the lens command when the node has
    a lens method and the call does not raise. *)
Definition apply_events (node : cam_node) (name : string) (pos : Z) (v : Q)
  : list event :=
  MsgBestFocus name pos v ::
  match focus_method_of node with
  | Some m => if focus_raises node pos then [] else [FocusCmd name m pos]
  | None => []
  end.

(** A camera with a manual-focus lens whose next three frames have
    Laplacian variances 10, 35 and 22, one arriving during each sampling
    window of a three-position scan. *)
Definition lens_node : cam_node :=
  {| has_setManualFocus := true; has_setFocus := false;
     has_setLensPosition := false; focus_raises := fun _ => false |}.

Definition blank (var : Q) : image := {| gray_mean := 128; laplacian_var := var |}.


(** A fixed-focus camera: none of the three lens methods. *)
Definition fixed_node : cam_node :=
  {| has_setManualFocus := false; has_setFocus := false;
     has_setLensPosition := false; focus_raises := fun _ => false |}.

(** [e] is not a lens command for camera [name]. *)
Definition not_lens_cmd (name : string) (e : event) : Prop :=
  match e with
  | FocusCmd cam _ _ => cam <> name
  | _ => True
  end.

(** The scenario of two cameras: warm-up of 2 frames, one frame required
    of each camera, no quality threshold, no waiting for all cameras; one
    capture is requested (one-shot, headless).  Camera A delivers frames at
    0, 1 and 2 ms, camera B at 5 and 6 ms. *)
Definition scenario_cfg : config :=
  {| headless := true; auto_interval := None; one_shot := true;
     wait_all := false; wait_timeout := 2;
     warmup_frames := 2; min_frames_each := 1;
     min_brightness := None; brightness_retry := 2; brightness_wait := 1#2;
     min_sharpness := None; sharpness_frames := 3;
     focus_scan := false; focus_positions := None; focus_only_cam := None |}.

Definition scenario_world : world :=
  {| w_time := 0; w_lag := [];
     w_queues :=
       [("CAM_A"%string,
         {| q_popped := 0;
            q_pending := [(0, blank 1); (1#1000, blank 2); (2#1000, blank 3)] |});
        ("CAM_B"%string,
         {| q_popped := 0;
            q_pending := [(5#1000, blank 4); (6#1000, blank 5)] |})];
     w_keys := []; w_trace := [] |}.

(** The state an outcome hands to the next iteration or leaves at the end. *)
Definition state_of (o : outcome) : option state :=
  match o with
  | Continue st _ | Break st _ => Some st
  | _ => None
  end.

(** Events of the wait loop: nothing is written and no batch is announced. *)
Definition quiet_event (e : event) : Prop :=
  match e with
  | Sleep _ | Pop _ _ | ImShow _ _ | MsgWaitTimeout _ => True
  | _ => False
  end.

(** Every event but the writing of a file. *)
Definition no_write (e : event) : Prop :=
  match e with
  | ImWrite _ _ => False
  | _ => True
  end.

(** How the wait loop moves the counters, the held frames and the world
    from one point to a later one: the cameras stay the same, the trace
    grows by quiet events, the frame counters only go up, a held frame
    stays held, and a camera whose frame counter went up holds a frame. *)
Definition grows (st : state) (frames : dict frame) (w : world)
    (st' : state) (frames' : dict frame) (w' : world) : Prop :=
  cams w' = cams w /\
  trace_ext quiet_event w w' /\
  capture_count st' = capture_count st /\
  last_auto_capture st' = last_auto_capture st /\
  (forall c, (per_cam_frames st c <= per_cam_frames st' c)%Z) /\
  (forall c, dict_mem c frames = true -> dict_mem c frames' = true) /\
  (forall c, (per_cam_frames st c < per_cam_frames st' c)%Z ->
             dict_mem c frames' = true).

(** A property of what a fuelled loop returns, when it returns. *)
Definition res_sat {A : Type} (P : A -> Prop) (R : world -> Prop) (r : res A) : Prop :=
  match r with
  | Ok a => P a
  | Exn w => R w
  | NoFuel => True
  end.

(** Events of the two quality gates. *)
Definition gate_event (e : event) : Prop :=
  match e with
  | Sleep _ | Pop _ _ | MsgStillDark _ _ | MsgDarkRetry _ _ _ _
  | MsgBlurryRetry _ _ | MsgSharpOk _ => True
  | _ => False
  end.

(** What a quality gate does to the held frames and the world: the cameras
    stay the same, no held camera is dropped, and only gate events are
    added. *)
Definition gated_world (w w' : world) : Prop :=
  cams w' = cams w /\ trace_ext gate_event w w'.

Definition gated (captured : dict frame) (w : world) (r : dict frame * world) : Prop :=
  gated_world w (snd r) /\
  (forall c, dict_mem c captured = true -> dict_mem c (fst r) = true).

(** The trace of an accepted batch: gate events, the announcement, one
    file per held frame, and the one-shot farewell. *)
Definition batch_events (cfg : config) (st : state) (gate : list event)
    (captured : dict frame) : list event :=
  gate ++ MsgSaving (capture_count st + 1) ::
    map (fun sf => ImWrite (fst sf) (snd sf)) captured ++
    (if one_shot cfg then [MsgOneShotDone] else []).

(** The wait loop either hands over counters, frames and world grown from
    those it started with, or quits right after such a point. *)
Definition collected_grown (st : state) (frames : dict frame) (w : world)
    (r : collected) : Prop :=
  match r with
  | Collected st' frames' w' => grows st frames w st' frames' w'
  | CollectQuit w' =>
      exists st1 frames1 w1,
        grows st frames w st1 frames1 w1 /\ w' = emit MsgQuit w1
  | CollectFuel => True
  end.

(** The scenario at the point where camera A has delivered its third frame
    and camera B is through its warm-up but has delivered nothing since:
    the counters of that point, and a world in which B's next frame is
    ready. *)
Definition a_ready_state : state :=
  {| capture_count := 0; last_auto_capture := 0;
     warmup_counter := fun _ => 2%Z;
     per_cam_frames := fun c => if String.eqb c "CAM_A" then 1%Z else 0%Z |}.

Definition b_arrives_world : world :=
  {| w_time := 3#100; w_lag := [];
     w_queues :=
       [("CAM_A"%string, {| q_popped := 3; q_pending := [] |});
        ("CAM_B"%string, {| q_popped := 2; q_pending := [(25#1000, blank 6)] |})];
     w_keys := []; w_trace := [] |}.

(** No queue has a frame left. *)
Definition drained (w : world) : Prop :=
  Forall (fun kq => q_pending (snd kq) = []) (w_queues w).

(** An image of a given mean brightness and sharpness. *)
Definition picture (mean var : Q) : image :=
  {| gray_mean := mean; laplacian_var := var |}.

(** Quality gates switched on: at least 40 of mean brightness with two
    retries half a second apart, at least 50 of sharpness. *)
Definition gated_cfg : config :=
  {| headless := true; auto_interval := None; one_shot := true;
     wait_all := false; wait_timeout := 2;
     warmup_frames := 2; min_frames_each := 1;
     min_brightness := Some 40; brightness_retry := 2; brightness_wait := 1#2;
     min_sharpness := None; sharpness_frames := 3;
     focus_scan := false; focus_positions := None; focus_only_cam := None |}.

Definition blurry_cfg : config :=
  {| headless := true; auto_interval := None; one_shot := true;
     wait_all := false; wait_timeout := 2;
     warmup_frames := 2; min_frames_each := 1;
     min_brightness := None; brightness_retry := 2; brightness_wait := 1#2;
     min_sharpness := Some 50; sharpness_frames := 3;
     focus_scan := false; focus_positions := None; focus_only_cam := None |}.

(** Camera A holds a bright frame and camera B a dark one; each queue has
    one newer frame waiting. *)
Definition one_dark_frames : dict frame :=
  [("CAM_A"%string, {| f_seq := 5; f_img := picture 100 80 |});
   ("CAM_B"%string, {| f_seq := 5; f_img := picture 10 80 |})].

Definition one_dark_world : world :=
  {| w_time := 1; w_lag := [];
     w_queues :=
       [("CAM_A"%string, {| q_popped := 6; q_pending := [(1, picture 90 80)] |});
        ("CAM_B"%string, {| q_popped := 6; q_pending := [(1, picture 50 80)] |})];
     w_keys := []; w_trace := [] |}.

(** One camera whose frames stay blurred: the held one and the next three. *)
Definition blurred_frames : dict frame :=
  [("CAM_A"%string, {| f_seq := 5; f_img := picture 100 10 |})].

Definition blurred_world : world :=
  {| w_time := 1; w_lag := [];
     w_queues :=
       [("CAM_A"%string,
         {| q_popped := 6;
            q_pending := [(1, picture 100 11); (1, picture 100 12);
                          (1, picture 100 13)] |})];
     w_keys := []; w_trace := [] |}.

(** A pop from a queue. *)
Definition pop_event (e : event) : Prop :=
  match e with
  | Pop _ _ => True
  | _ => False
  end.

(** The events of one brightness retry: the notice of line 281 listing the
    dark cameras, the wait of [brightness_wait] seconds, then the pops of
    the re-poll. *)
Definition retry_pass (cfg : config) (pass : list event) : Prop :=
  exists too_dark attempt pops,
    pass = MsgDarkRetry too_dark (brightness_wait cfg) attempt (brightness_retry cfg)
           :: Sleep (brightness_wait cfg) :: pops /\
    too_dark <> [] /\
    Forall pop_event pops.

(** A camera that stays dark: the held frame and the next two have a mean
    brightness of 10. *)
Definition dark_frames : dict frame :=
  [("CAM_A"%string, {| f_seq := 5; f_img := picture 10 80 |})].

Definition dark_world : world :=
  {| w_time := 1; w_lag := [];
     w_queues :=
       [("CAM_A"%string,
         {| q_popped := 6;
            q_pending := [(1, picture 10 80); (1, picture 10 80)] |})];
     w_keys := []; w_trace := [] |}.

(** *** Vocabulary of the warm-up invariant

    [base c] is the number of frames already popped from camera [c]'s queue
    at the point taken as the start. *)

(** The frame is at least the [(warmup_frames + 1)]-th popped from its
    camera's queue since the start. *)
Definition past_warmup (cfg : config) (base : string -> nat) (c : string) (f : frame)
  : Prop :=
  (Z.of_nat (base c) + warmup_frames cfg <= Z.of_nat (f_seq f))%Z.

Definition frames_ok (cfg : config) (base : string -> nat) (frames : dict frame)
  : Prop :=
  forall c f, In (c, f) frames -> past_warmup cfg base c f.

Definition write_ok (cfg : config) (base : string -> nat) (e : event) : Prop :=
  match e with
  | ImWrite c f => past_warmup cfg base c f
  | _ => True
  end.

(** The counters account for pops: every frame counted as warm-up was
    popped, and a camera with a frame counted past warm-up has had more
    than [warmup_frames] frames popped. *)
Definition counted (cfg : config) (base : string -> nat) (st : state) (w : world)
  : Prop :=
  forall c,
    (Z.of_nat (base c) + warmup_counter st c <= Z.of_nat (popped c w))%Z /\
    ((1 <= per_cam_frames st c)%Z ->
     (Z.of_nat (base c) + warmup_frames cfg < Z.of_nat (popped c w))%Z).

(** Every one of the cameras [names] has had more than [warmup_frames]
    frames popped. *)
Definition ready (cfg : config) (base : string -> nat) (names : list string)
    (w : world) : Prop :=
  forall c, In c names ->
            (Z.of_nat (base c) + warmup_frames cfg < Z.of_nat (popped c w))%Z.

(** [w'] is a later world than [w]: same cameras, no pop undone. *)
Definition later (w w' : world) : Prop :=
  cams w' = cams w /\ forall c, (popped c w <= popped c w')%nat.

(** What a quality gate keeps, when it returns: held frames past warm-up,
    in a later world. *)
Definition kept_warm (cfg : config) (base : string -> nat) (w : world)
    (r : dict frame * world) : Prop :=
  frames_ok cfg base (fst r) /\ later w (snd r).

(** Events of the focus phase. *)
Definition focus_event (e : event) : Prop :=
  match e with
  | Sleep _ | Pop _ _ | FocusCmd _ _ _ | MsgCamNotFound _ | MsgNoFocusApi _
  | MsgScanning _ | MsgSetFailed _ | MsgPos _ _ | MsgBestFocus _ _ _
  | MsgNoBestFocus _ => True
  | _ => False
  end.

(** *** Vocabulary of the wait-all barrier *)

(** The work of the program never takes a negative time. *)
Definition lag_ok (w : world) : Prop := Forall (fun d => 0 <= d)%Q (w_lag w).

(** The cameras of [names] for which no frame is held yet. *)
Definition missing (frames : dict frame) (names : list string) : list string :=
  filter (fun c => negb (dict_mem c frames)) names.

(** A frame is held for every known camera. *)
Definition holds_all (frames : dict frame) (w : world) : Prop :=
  forall c, In c (cams w) -> dict_mem c frames = true.

(** Waiting for all cameras, at most 20 ms, no warm-up, one capture; camera
    A has a frame ready and camera B never delivers one.  The first reading
    of the clock finds that 1 ms has passed. *)
Definition barrier_cfg : config :=
  {| headless := true; auto_interval := None; one_shot := true;
     wait_all := true; wait_timeout := 20#1000;
     warmup_frames := 0; min_frames_each := 1;
     min_brightness := None; brightness_retry := 2; brightness_wait := 1#2;
     min_sharpness := None; sharpness_frames := 3;
     focus_scan := false; focus_positions := None; focus_only_cam := None |}.

Definition silent_b_world : world :=
  {| w_time := 0; w_lag := [1#1000];
     w_queues :=
       [("CAM_A"%string, {| q_popped := 0; q_pending := [(0, blank 1)] |});
        ("CAM_B"%string, {| q_popped := 0; q_pending := [] |})];
     w_keys := []; w_trace := [] |}.

(** Both cameras have a frame ready when the wait loop starts; the first
    reading of the clock finds that 1 ms has passed. *)
Definition both_ready_world : world :=
  {| w_time := 0; w_lag := [1#1000];
     w_queues :=
       [("CAM_A"%string, {| q_popped := 0; q_pending := [(0, blank 1)] |});
        ("CAM_B"%string, {| q_popped := 0; q_pending := [(0, blank 2)] |})];
     w_keys := []; w_trace := [] |}.

(** The scenario with a third frame from camera B, at 7 ms. *)
Definition late_b_world : world :=
  {| w_time := 0; w_lag := [];
     w_queues :=
       [("CAM_A"%string,
         {| q_popped := 0;
            q_pending := [(0, blank 1); (1#1000, blank 2); (2#1000, blank 3)] |});
        ("CAM_B"%string,
         {| q_popped := 0;
            q_pending := [(5#1000, blank 4); (6#1000, blank 5);
                          (7#1000, blank 6)] |})];
     w_keys := []; w_trace := [] |}.

(** No frame required of any camera ([--min-frames-each 0]), with the
    brightness gate on; camera A is through its warm-up and holds a dark
    frame, camera B has popped nothing yet and its first frame is ready. *)
Definition no_min_cfg : config :=
  {| headless := true; auto_interval := None; one_shot := true;
     wait_all := false; wait_timeout := 2;
     warmup_frames := 2; min_frames_each := 0;
     min_brightness := Some 40; brightness_retry := 2; brightness_wait := 1#2;
     min_sharpness := None; sharpness_frames := 3;
     focus_scan := false; focus_positions := None; focus_only_cam := None |}.

Definition a_only_state : state :=
  {| capture_count := 0; last_auto_capture := 0;
     warmup_counter := fun c => if String.eqb c "CAM_A" then 2%Z else 0%Z;
     per_cam_frames := fun c => if String.eqb c "CAM_A" then 1%Z else 0%Z |}.

Definition b_fresh_world : world :=
  {| w_time := 1; w_lag := [];
     w_queues :=
       [("CAM_A"%string, {| q_popped := 3; q_pending := [] |});
        ("CAM_B"%string, {| q_popped := 0; q_pending := [(1, picture 90 80)] |})];
     w_keys := []; w_trace := [] |}.

(** *** Vocabulary of the further properties *)

(** The batch numbers announced in a trace (line 318). *)
Definition saved (trace : list event) : list Z :=
  flat_map (fun e => match e with MsgSaving n => [n] | _ => [] end) trace.

(** [from + 1, from + 2, ..., from + k] *)
Fixpoint numbers (from : Z) (k : nat) : list Z :=
  match k with
  | O => []
  | S k' => (from + 1)%Z :: numbers (from + 1)%Z k'
  end.

(** The outcome of a capture that went through: [break] in one-shot mode,
    on to the next iteration otherwise (lines 332-334). *)
Definition batch_outcome (cfg : config) (st : state) (w : world) : outcome :=
  if one_shot cfg then Break (count_capture st) w else Continue (count_capture st) w.

(** Headless capture every 10 ms, no warm-up, one camera delivering a
    frame every 10 ms from time 1 on. *)
Definition auto_cfg : config :=
  {| headless := true; auto_interval := Some (1#100); one_shot := false;
     wait_all := false; wait_timeout := 2;
     warmup_frames := 0; min_frames_each := 1;
     min_brightness := None; brightness_retry := 2; brightness_wait := 1#2;
     min_sharpness := None; sharpness_frames := 3;
     focus_scan := false; focus_positions := None; focus_only_cam := None |}.

Definition steady_world : world :=
  {| w_time := 1; w_lag := [];
     w_queues :=
       [("CAM_A"%string,
         {| q_popped := 0;
            q_pending := [(1, blank 1); (101#100, blank 2); (102#100, blank 3)] |})];
     w_keys := []; w_trace := [] |}.

(** The scenario in GUI mode with the quit key pressed at the first
    reading of the keyboard. *)
Definition gui_cfg : config :=
  {| headless := false; auto_interval := None; one_shot := false;
     wait_all := false; wait_timeout := 2;
     warmup_frames := 0; min_frames_each := 1;
     min_brightness := None; brightness_retry := 2; brightness_wait := 1#2;
     min_sharpness := None; sharpness_frames := 3;
     focus_scan := false; focus_positions := None; focus_only_cam := None |}.

Definition quit_world : world :=
  {| w_time := 1; w_lag := [];
     w_queues :=
       [("CAM_A"%string, {| q_popped := 0; q_pending := [(1, blank 1)] |})];
     w_keys := [113%Z]; w_trace := [] |}.

(** Headless, no interval, no one-shot: the mode of the warning of lines
    102-104. *)
Definition idle_cfg : config :=
  {| headless := true; auto_interval := None; one_shot := false;
     wait_all := false; wait_timeout := 2;
     warmup_frames := 0; min_frames_each := 1;
     min_brightness := None; brightness_retry := 2; brightness_wait := 1#2;
     min_sharpness := None; sharpness_frames := 3;
     focus_scan := false; focus_positions := None; focus_only_cam := None |}.

(** The frames held are in order: one entry per camera, for known cameras
    only, and each entry is the frame popped last from its camera's
    queue. *)
Definition held_ok (frames : dict frame) (w : world) : Prop :=
  NoDup (dict_keys frames) /\
  incl (dict_keys frames) (cams w) /\
  forall c f, In (c, f) frames -> S (f_seq f) = popped c w.

(** One camera past its warm-up whose next frame is dark and the one after
    it bright. *)
Definition dark_then_bright_world : world :=
  {| w_time := 1; w_lag := [];
     w_queues :=
       [("CAM_A"%string,
         {| q_popped := 3;
            q_pending := [(1, picture 10 80); (1, picture 90 80)] |})];
     w_keys := []; w_trace := [] |}.

(** The events of one sharpness retry: the notice of line 301 with the
    average measured, below the threshold, the wait of 0.3 s, then the pops
    of the re-poll. *)
Definition blurry_pass (min_s : Q) (pass : list event) : Prop :=
  exists avg pops,
    pass = MsgBlurryRetry avg min_s :: Sleep (3#10) :: pops /\
    Qltb avg min_s = true /\
    Forall pop_event pops.

(** The queue of camera [c] is the same in [w'] as in [w]. *)
Definition untouched (c : string) (w w' : world) : Prop :=
  dict_get c (w_queues w') = dict_get c (w_queues w).

(** [e] is neither a pop from camera [name]'s queue nor a lens command for
    that camera. *)
Definition leaves_alone (name : string) (e : event) : Prop :=
  match e with
  | Pop cam _ | FocusCmd cam _ _ => cam <> name
  | _ => True
  end.

(** Two cameras with a lens; camera A's queue has frames for a scan of
    three positions, camera B's queue has one frame waiting. *)
Definition two_lens_nodes : dict cam_node :=
  [("CAM_A"%string, lens_node); ("CAM_B"%string, lens_node)].

Definition two_lens_world : world :=
  {| w_time := 0; w_lag := [];
     w_queues :=
       [("CAM_A"%string,
         {| q_popped := 0;
            q_pending := [(2#10, blank 10); (5#10, blank 35); (9#10, blank 22)] |});
        ("CAM_B"%string, {| q_popped := 0; q_pending := [(0, blank 50)] |})];
     w_keys := []; w_trace := [] |}.

(** A focus scan of camera A alone, over three positions. *)
Definition only_a_cfg : config :=
  {| headless := true; auto_interval := None; one_shot := true;
     wait_all := false; wait_timeout := 2;
     warmup_frames := 2; min_frames_each := 1;
     min_brightness := None; brightness_retry := 2; brightness_wait := 1#2;
     min_sharpness := None; sharpness_frames := 3;
     focus_scan := true; focus_positions := Some [50; 80; 110]%Z;
     focus_only_cam := Some "CAM_A"%string |}.

(** The brightness gate with a negative wait between the retries. *)
Definition negative_wait_cfg : config :=
  {| headless := true; auto_interval := None; one_shot := true;
     wait_all := false; wait_timeout := 2;
     warmup_frames := 2; min_frames_each := 1;
     min_brightness := Some 40; brightness_retry := 2;
     brightness_wait := - (1#2);
     min_sharpness := None; sharpness_frames := 3;
     focus_scan := false; focus_positions := None; focus_only_cam := None |}.

(** Events of a run without a window: no frame shown, no quit. *)
Definition headless_event (e : event) : Prop :=
  match e with
  | ImShow _ _ | MsgQuit => False
  | _ => True
  end.

(** Events of one pass over the queues: pops and, with a window, shows. *)
Definition pass_event (e : event) : Prop :=
  match e with
  | Pop _ _ | ImShow _ _ => True
  | _ => False
  end.

(** The positions reported as failed in a trace (line 148). *)
Definition failed_of (trace : list event) : list Z :=
  flat_map (fun e => match e with MsgSetFailed pos => [pos] | _ => [] end) trace.

(** The lens command of the node raises at [pos] (lines 140-149); a node
    without a lens method is commanded nothing. *)
Definition focus_fails (node : cam_node) (pos : Z) : bool :=
  match focus_method_of node with
  | Some _ => focus_raises node pos
  | None => false
  end.

(** Events that report neither a sample nor a failed position. *)
Definition silent_event (e : event) : Prop :=
  match e with
  | MsgPos _ _ | MsgSetFailed _ => False
  | _ => True
  end.

(** What a scan of [positions] reports. *)
Definition scan_report (node : cam_node) (positions : list Z) (new : list event)
  : Prop :=
  failed_of new = filter (focus_fails node) positions /\
  Forall (fun s => In (fst s) positions /\ focus_fails node (fst s) = false)
         (samples_of new) /\
  (List.length (samples_of new) + List.length (failed_of new)
   <= List.length positions)%nat.

(* ================================================================= *)
(** * Properties *)

(** ** Dictionaries *)

Section DictFacts.
Variable V : Type.
Implicit Types (d : dict V) (k : string) (v : V).

Lemma dict_get_set_same k v d : dict_get k (dict_set k v d) = Some v.
Proof.
  induction d as [|[k' v'] d IH]; simpl.
  - now rewrite String.eqb_refl.
  - destruct (String.eqb k k') eqn:E; simpl; rewrite ?E, ?String.eqb_refl; auto.
Qed.

Lemma dict_get_set_other k k' v d :
  k' <> k -> dict_get k' (dict_set k v d) = dict_get k' d.
Proof.
  intros Hne. induction d as [|[k0 v0] d IH]; simpl.
  - destruct (String.eqb k' k) eqn:E; auto.
    apply String.eqb_eq in E. contradiction.
  - destruct (String.eqb k k0) eqn:E; simpl.
    + apply String.eqb_eq in E. subst k0.
      destruct (String.eqb k' k) eqn:E'; auto.
      apply String.eqb_eq in E'. contradiction.
    + now rewrite IH.
Qed.

Lemma dict_mem_set k k' v d :
  dict_mem k' (dict_set k v d) = (String.eqb k' k || dict_mem k' d)%bool.
Proof.
  unfold dict_mem. destruct (String.eqb k' k) eqn:E; simpl.
  - apply String.eqb_eq in E. subst. now rewrite dict_get_set_same.
  - rewrite dict_get_set_other; auto. intros ->. now rewrite String.eqb_refl in E.
Qed.

Lemma dict_mem_keys k d : dict_mem k d = true <-> In k (dict_keys d).
Proof.
  unfold dict_mem. induction d as [|[k' v'] d IH]; simpl.
  - split; [discriminate | tauto].
  - destruct (String.eqb k k') eqn:E.
    + apply String.eqb_eq in E. subst. split; auto.
    + rewrite IH. split; auto. intros [->|H]; auto.
      now rewrite String.eqb_refl in E.
Qed.

Lemma dict_keys_set_mem k v d :
  dict_mem k d = true -> dict_keys (dict_set k v d) = dict_keys d.
Proof.
  unfold dict_mem, dict_keys. induction d as [|[k' v'] d IH]; simpl.
  - discriminate.
  - destruct (String.eqb k k') eqn:E; simpl.
    + apply String.eqb_eq in E. now subst.
    + intros H. now rewrite IH.
Qed.

Lemma dict_keys_set_new k v d :
  dict_mem k d = false -> dict_keys (dict_set k v d) = dict_keys d ++ [k].
Proof.
  unfold dict_mem, dict_keys. induction d as [|[k' v'] d IH]; simpl; auto.
  destruct (String.eqb k k') eqn:E; simpl.
  - discriminate.
  - intros H. now rewrite IH.
Qed.

Lemma dict_set_In k v d k0 v0 :
  In (k0, v0) (dict_set k v d) -> (k0, v0) = (k, v) \/ In (k0, v0) d.
Proof.
  induction d as [|[k' v'] d IH]; simpl.
  - intros [H|[]]; auto.
  - destruct (String.eqb k k'); simpl.
    + intros [H|H]; auto.
    + intros [H|H]; auto. destruct (IH H); auto.
Qed.
End DictFacts.

(** ** PNG compression *)

Example decimal_int_3 : decimal_int "3" = Some 3%Z.
Proof. reflexivity. Qed.

Example decimal_int_signed : decimal_int " -12 " = Some (-12)%Z.
Proof. reflexivity. Qed.

Example decimal_int_word : decimal_int "max" = None.
Proof. reflexivity. Qed.

(** C10. Whatever the environment holds for PNG_COMPRESSION, the level
    returned lies between 0 and 9: a value that [int] reads is clamped into
    that range, a value that [int] refuses gives 3, and so does an absent
    variable (whose default "3" reads as 3).  The function is total: the
    only exception [int] raises on a string is the one caught. *)
Theorem get_png_compression_in_range :
  forall (py_int : string -> option Z) (env : environ),
    py_int "3"%string = Some 3%Z ->
    (0 <= get_png_compression py_int env <= 9)%Z /\
    (forall v n,
        dict_get "PNG_COMPRESSION" env = Some v -> py_int v = Some n ->
        get_png_compression py_int env = Z.max 0 (Z.min 9 n)) /\
    (forall v,
        dict_get "PNG_COMPRESSION" env = Some v -> py_int v = None ->
        get_png_compression py_int env = 3%Z) /\
    (dict_get "PNG_COMPRESSION" env = None ->
     get_png_compression py_int env = 3%Z).
Proof.
  intros py_int env H3. unfold get_png_compression, environ_get.
  split; [|split; [|split]].
  - destruct (py_int (match dict_get _ env with Some v => v | None => _ end)); lia.
  - intros v n Hv Hn. now rewrite Hv, Hn.
  - intros v Hv Hn. now rewrite Hv, Hn.
  - intros Hv. now rewrite Hv, H3.
Qed.

Lemma get_png_compression_in_range_witness :
  decimal_int "3"%string = Some 3%Z /\
  get_png_compression decimal_int [("PNG_COMPRESSION", "12")]%string = 9%Z.
Proof.
  split; [reflexivity|].
  destruct (get_png_compression_in_range decimal_int
              [("PNG_COMPRESSION", "12")]%string eq_refl) as (_ & Hclamp & _).
  exact (Hclamp "12"%string 12%Z eq_refl eq_refl).
Defined.

(** ** Rationals *)

Lemma Qltb_lt x y : Qltb x y = true <-> (x < y)%Q.
Proof.
  unfold Qltb. rewrite negb_true_iff. split.
  - intros H. apply Qnot_le_lt. intros Hle.
    apply Qle_bool_iff in Hle. congruence.
  - intros H. destruct (Qle_bool y x) eqn:E; auto.
    apply Qle_bool_iff in E. exfalso. eapply Qlt_not_le; eauto.
Qed.

Lemma Qltb_ge x y : Qltb x y = false <-> (y <= x)%Q.
Proof.
  unfold Qltb. rewrite negb_false_iff. apply Qle_bool_iff.
Qed.

(** ** Traces *)

Lemma trace_ext_refl P w : trace_ext P w w.
Proof. exists []. rewrite app_nil_r. auto. Qed.

Lemma trace_ext_trans P w1 w2 w3 :
  trace_ext P w1 w2 -> trace_ext P w2 w3 -> trace_ext P w1 w3.
Proof.
  intros (n1 & E1 & F1) (n2 & E2 & F2). exists (n1 ++ n2).
  rewrite E2, E1, app_assoc. split; auto. apply Forall_app; auto.
Qed.

Lemma trace_ext_weaken (P Q : event -> Prop) w w' :
  (forall e, P e -> Q e) -> trace_ext P w w' -> trace_ext Q w w'.
Proof.
  intros H (n & E & F). exists n. split; auto. eapply Forall_impl; eauto.
Qed.

Lemma trace_ext_emit (P : event -> Prop) e w : P e -> trace_ext P w (emit e w).
Proof. intros H. exists [e]. simpl. auto. Qed.

Lemma trace_ext_sleep (P : event -> Prop) d w :
  P (Sleep d) -> trace_ext P w (time_sleep d w).
Proof. intros H. exists [Sleep d]. simpl. auto. Qed.

Lemma time_time_trace w : w_trace (snd (time_time w)) = w_trace w.
Proof. unfold time_time. destruct (w_lag w); reflexivity. Qed.

Lemma time_time_cams w : cams (snd (time_time w)) = cams w.
Proof. unfold time_time. destruct (w_lag w); reflexivity. Qed.

Lemma wait_key_trace w : w_trace (snd (wait_key w)) = w_trace w.
Proof. unfold wait_key. destruct (w_keys w); reflexivity. Qed.

Lemma trace_ext_time P w : trace_ext P w (snd (time_time w)).
Proof. exists []. now rewrite time_time_trace, app_nil_r. Qed.

Lemma trace_ext_key P w : trace_ext P w (snd (wait_key w)).
Proof. exists []. now rewrite wait_key_trace, app_nil_r. Qed.

Lemma events_since_app w w' new :
  w_trace w' = w_trace w ++ new -> events_since w w' = new.
Proof.
  intros E. unfold events_since. rewrite E, skipn_app, skipn_all, Nat.sub_diag.
  reflexivity.
Qed.

Lemma trace_ext_since P w w' : trace_ext P w w' -> Forall P (events_since w w').
Proof. intros (n & E & F). now rewrite (events_since_app _ _ _ E). Qed.

(** ** Queues *)

Lemma queue_poll_spec name w f w' :
  queue_poll name w = Some (f, w') ->
  f_seq f = popped name w /\
  popped name w' = S (popped name w) /\
  (forall other, other <> name -> popped other w' = popped other w) /\
  cams w' = cams w /\
  w_time w' = w_time w /\ w_lag w' = w_lag w /\ w_keys w' = w_keys w /\
  w_trace w' = w_trace w ++ [Pop name f].
Proof.
  unfold queue_poll, popped, cams.
  destruct (dict_get name (w_queues w)) as [q|] eqn:Hq; [|discriminate].
  destruct (q_pending q) as [|[arrival img] rest]; [discriminate|].
  destruct (Qle_bool arrival (w_time w)); [|discriminate].
  intros H. injection H as <- <-. simpl.
  rewrite dict_get_set_same. repeat split; auto.
  - intros other Hne. now rewrite dict_get_set_other.
  - apply dict_keys_set_mem. unfold dict_mem. now rewrite Hq.
Qed.

Lemma trace_ext_poll (P : event -> Prop) name w f w' :
  queue_poll name w = Some (f, w') -> P (Pop name f) -> trace_ext P w w'.
Proof.
  intros H HP. apply queue_poll_spec in H.
  exists [Pop name f]. split; [tauto | auto].
Qed.

(** ** Focus scan *)


Lemma samples_of_app t1 t2 : samples_of (t1 ++ t2) = samples_of t1 ++ samples_of t2.
Proof. unfold samples_of. apply flat_map_app. Qed.

Lemma set_focus_spec node name pos w :
  set_focus node name pos w =
  match focus_method_of node with
  | Some m => if focus_raises node pos then None
              else Some (emit (FocusCmd name m pos) w)
  | None => Some w
  end.
Proof.
  unfold set_focus, focus_method_of.
  destruct (has_setManualFocus node), (has_setFocus node),
    (has_setLensPosition node); reflexivity.
Qed.

Lemma set_focus_trace node name pos w w' :
  set_focus node name pos w = Some w' ->
  exists new, w_trace w' = w_trace w ++ new /\
              Forall (scan_event name) new /\ samples_of new = [].
Proof.
  rewrite set_focus_spec. destruct (focus_method_of node) as [m|].
  - destruct (focus_raises node pos); [discriminate|].
    intros H. injection H as <-. exists [FocusCmd name m pos]. simpl.
    repeat split; auto. constructor; simpl; auto.
  - intros H. injection H as <-. exists []. rewrite app_nil_r. auto.
Qed.

Lemma wait_frame_trace name window w o w' :
  wait_frame name window w = (o, w') ->
  exists new, w_trace w' = w_trace w ++ new /\
              Forall (scan_event name) new /\ samples_of new = [].
Proof.
  unfold wait_frame. pose proof (time_time_trace w) as Ht.
  destruct (time_time w) as [eval_start w1]. simpl in Ht.
  destruct (dict_get name (w_queues w1)) as [q|].
  - destruct (q_pending q) as [|[arrival img] rest].
    + intros H. injection H as <- <-. exists []. simpl. rewrite app_nil_r. auto.
    + destruct (Qltb arrival (eval_start + window)).
      * intros H. injection H as <- <-. simpl.
        eexists. rewrite Ht. split; [reflexivity|].
        split; auto. constructor; simpl; auto.
      * intros H. injection H as <- <-. exists []. simpl. rewrite app_nil_r. auto.
  - intros H. injection H as <- <-. exists []. simpl. rewrite app_nil_r. auto.
Qed.

Lemma scan_positions_pick node name positions : forall bv bp w bv' bp' w',
  scan_positions node name positions bv bp w = (bv', bp', w') ->
  exists new,
    w_trace w' = w_trace w ++ new /\
    Forall (scan_event name) new /\
    (bv', bp') = pick (bv, bp) (samples_of new).
Proof.
  induction positions as [|pos rest IH]; intros bv bp w bv' bp' w' H; simpl in H.
  - injection H as <- <- <-. exists []. rewrite app_nil_r. simpl. auto.
  - destruct (set_focus node name pos w) as [w1|] eqn:Hset.
    + apply set_focus_trace in Hset. destruct Hset as (n1 & E1 & F1 & S1).
      destruct (wait_frame name (1 # 2) (time_sleep (15 # 100) w1))
        as [[frame_eval|] w3] eqn:Hwait;
        apply wait_frame_trace in Hwait; destruct Hwait as (n3 & E3 & F3 & S3);
        simpl in E3.
      * set (sharp_var := laplacian_var (f_img frame_eval)) in *.
        assert (Hstep : exists bv1 bp1,
                   scan_positions node name rest bv1 bp1
                     (emit (MsgPos pos sharp_var) w3) = (bv', bp', w') /\
                   (bv1, bp1) = better (bv, bp) (pos, sharp_var)).
        { unfold better. simpl. destruct (Qltb bv sharp_var); eauto. }
        destruct Hstep as (bv1 & bp1 & Hrest & Hb).
        apply IH in Hrest. destruct Hrest as (n4 & E4 & F4 & S4).
        exists (n1 ++ [Sleep (15 # 100)] ++ n3 ++ [MsgPos pos sharp_var] ++ n4).
        split.
        { rewrite E4. simpl. rewrite E3, E1. now rewrite <- !app_assoc. }
        split.
        { repeat (apply Forall_app; split); auto; constructor; simpl; auto. }
        rewrite !samples_of_app, S1, S3. simpl. rewrite S4, Hb. reflexivity.
      * apply IH in H. destruct H as (n4 & E4 & F4 & S4).
        exists (n1 ++ [Sleep (15 # 100)] ++ n3 ++ n4).
        split.
        { rewrite E4, E3, E1. now rewrite <- !app_assoc. }
        split.
        { repeat (apply Forall_app; split); auto; constructor; simpl; auto. }
        rewrite !samples_of_app, S1, S3. simpl. exact S4.
    + apply IH in H. destruct H as (n4 & E4 & F4 & S4).
      exists ([MsgSetFailed pos] ++ n4). split.
      { rewrite E4. simpl. now rewrite <- app_assoc. }
      split; [constructor; simpl; auto|]. exact S4.
Qed.

Lemma drain_trace rounds name t0 : forall w,
  exists new, w_trace (drain rounds name t0 w) = w_trace w ++ new /\
              Forall (scan_event name) new /\ samples_of new = [].
Proof.
  induction rounds as [|rounds IH]; intros w; simpl.
  - exists []. rewrite app_nil_r. auto.
  - pose proof (time_time_trace w) as Ht.
    destruct (time_time w) as [now w1]. simpl in Ht.
    destruct (Qltb (now - t0) 1).
    + destruct (queue_poll name w1) as [[f w2]|] eqn:Hpoll.
      * apply queue_poll_spec in Hpoll.
        destruct Hpoll as (_ & _ & _ & _ & _ & _ & _ & E2).
        destruct (IH w2) as (n & E & F & S).
        exists ([Pop name f] ++ n). split.
        { rewrite E, E2, Ht. now rewrite <- app_assoc. }
        split; [constructor; simpl; auto | exact S].
      * exists []. rewrite app_nil_r. auto.
    + exists []. rewrite app_nil_r. auto.
Qed.

Lemma focus_scan_cam_trace node name positions w :
  exists pre scan bv bp,
    (bv, bp) = pick (-1, None) (samples_of scan) /\
    samples_of pre = [] /\
    Forall (scan_event name) (pre ++ scan) /\
    w_trace (focus_scan_cam node name positions w) =
    w_trace w ++ pre ++ scan ++
      match bp with
      | Some pos => apply_events node name pos bv
      | None => [MsgNoBestFocus name]
      end.
Proof.
  unfold focus_scan_cam.
  pose proof (time_time_trace (emit (MsgScanning name) w)) as Ht.
  destruct (time_time (emit (MsgScanning name) w)) as [t0 w1]. simpl in Ht.
  destruct (drain_trace (S (pending_count name w1)) name t0 w1) as (nd & Ed & Fd & Sd).
  set (w2 := drain (S (pending_count name w1)) name t0 w1) in *.
  destruct (scan_positions node name positions (-1) None w2)
    as [[bv bp] w3] eqn:Hscan.
  apply scan_positions_pick in Hscan. destruct Hscan as (ns & Es & Fs & Ss).
  exists ([MsgScanning name] ++ nd), ns, bv, bp.
  split; [exact Ss|]. split; [rewrite samples_of_app; simpl; exact Sd|].
  split.
  { repeat (apply Forall_app; split); auto. constructor; simpl; auto. }
  destruct bp as [pos|].
  - rewrite set_focus_spec. unfold apply_events.
    destruct (focus_method_of node) as [m|]; [destruct (focus_raises node pos)|];
      simpl; rewrite Es, Ed, Ht; rewrite <- !app_assoc; reflexivity.
  - simpl. rewrite Es, Ed, Ht. rewrite <- !app_assoc. reflexivity.
Qed.




Lemma focus_scan_cam_ext node name positions w :
  trace_ext (scan_event name) w (focus_scan_cam node name positions w).
Proof.
  destruct (focus_scan_cam_trace node name positions w)
    as (pre & scan & bv & bp & _ & _ & F & E).
  apply Forall_app in F. destruct F as [Fpre Fscan].
  eexists. split; [exact E|].
  repeat (apply Forall_app; split); auto.
  destruct bp as [pos|]; [|constructor; simpl; auto].
  unfold apply_events. constructor; simpl; auto.
  destruct (focus_method_of node); [destruct (focus_raises node pos)|]; auto.
  constructor; simpl; auto.
Qed.

Lemma focus_scan_cams_app cam_nodes positions before : forall after w,
  focus_scan_cams cam_nodes positions (before ++ after) w =
  focus_scan_cams cam_nodes positions after
    (focus_scan_cams cam_nodes positions before w).
Proof.
  induction before as [|c before IH]; intros after w; simpl; auto.
  destruct (dict_get c cam_nodes) as [node|]; [destruct (supported node)|];
    simpl; apply IH.
Qed.

Lemma focus_scan_cams_ext cam_nodes positions cam_name node :
  dict_get cam_name cam_nodes = Some node -> supported node = false ->
  forall targets w,
    trace_ext (not_lens_cmd cam_name) w
      (focus_scan_cams cam_nodes positions targets w).
Proof.
  intros Hnode Hnone. induction targets as [|c rest IH]; intros w; simpl.
  - apply trace_ext_refl.
  - destruct (dict_get c cam_nodes) as [node'|] eqn:Hc.
    + destruct (supported node') eqn:Hs; simpl.
      * eapply trace_ext_trans; [|apply IH].
        eapply trace_ext_weaken; [|apply focus_scan_cam_ext].
        intros e He. destruct e; simpl in *; auto.
        intros ->. subst c. congruence.
      * eapply trace_ext_trans; [|apply IH]. apply trace_ext_emit. exact I.
    + eapply trace_ext_trans; [|apply IH]. apply trace_ext_emit. exact I.
Qed.

(** C9. A camera whose node has none of the three lens methods is found
    out by plain attribute tests (no exception is involved), its
    calibration is skipped with the report of line 127, the scan goes on
    with the cameras after it exactly as it would have, and no lens command
    is ever issued for that camera during the whole focus phase. *)
Theorem focus_scan_skips_camera_without_lens :
  forall cam_nodes cam_name node,
    dict_get cam_name cam_nodes = Some node ->
    supported node = false ->
    (forall positions before after w,
        focus_scan_cams cam_nodes positions (before ++ cam_name :: after) w =
        focus_scan_cams cam_nodes positions after
          (emit (MsgNoFocusApi cam_name)
                (focus_scan_cams cam_nodes positions before w))) /\
    (forall cfg w m pos,
        ~ In (FocusCmd cam_name m pos)
             (events_since w (focus_scan_phase cfg cam_nodes w))).
Proof.
  intros cam_nodes cam_name node Hnode Hnone. split.
  - intros positions before after w.
    rewrite focus_scan_cams_app. simpl. now rewrite Hnode, Hnone.
  - intros cfg w m pos Hin.
    assert (Hext : trace_ext (not_lens_cmd cam_name) w
                     (focus_scan_phase cfg cam_nodes w)).
    { unfold focus_scan_phase. destruct (focus_scan cfg).
      - eapply focus_scan_cams_ext; eauto.
      - apply trace_ext_refl. }
    apply trace_ext_since in Hext.
    rewrite Forall_forall in Hext. apply Hext in Hin. simpl in Hin. congruence.
Qed.

Lemma focus_scan_skips_camera_without_lens_witness :
  dict_get "CAM_A" [("CAM_A", fixed_node); ("CAM_B", lens_node)]%string
  = Some fixed_node /\
  supported fixed_node = false /\
  forall cfg w m pos,
    ~ In (FocusCmd "CAM_A" m pos)
         (events_since w
            (focus_scan_phase cfg
               [("CAM_A", fixed_node); ("CAM_B", lens_node)]%string w)).
Proof.
  split; [reflexivity|]. split; [reflexivity|].
  exact (proj2 (focus_scan_skips_camera_without_lens
                  [("CAM_A", fixed_node); ("CAM_B", lens_node)]%string
                  "CAM_A"%string fixed_node eq_refl eq_refl)).
Defined.

(** ** Files written *)

Lemma writes_app t1 t2 : writes (t1 ++ t2) = writes t1 ++ writes t2.
Proof. unfold writes. apply flat_map_app. Qed.

Lemma writes_no_write new : Forall no_write new -> writes new = [].
Proof.
  induction 1 as [|e new He _ IH]; simpl; auto.
  destruct e; simpl in *; auto. contradiction.
Qed.

Lemma quiet_no_write e : quiet_event e -> no_write e.
Proof. destruct e; simpl; auto. Qed.

Lemma writes_quiet new : Forall quiet_event new -> writes new = [].
Proof.
  intros F. apply writes_no_write.
  apply Forall_impl with (P := quiet_event); auto using quiet_no_write.
Qed.

Lemma write_batch_trace captured : forall w,
  w_trace (write_batch captured w) =
  w_trace w ++ map (fun sf => ImWrite (fst sf) (snd sf)) captured.
Proof.
  unfold write_batch.
  induction captured as [|sf rest IH]; intros w; simpl.
  - now rewrite app_nil_r.
  - rewrite IH. simpl. now rewrite <- app_assoc.
Qed.

Lemma write_batch_cams captured : forall w, cams (write_batch captured w) = cams w.
Proof.
  unfold write_batch.
  induction captured as [|sf rest IH]; intros w; simpl; auto.
  now rewrite IH.
Qed.

Lemma write_batch_queues captured : forall w,
  w_queues (write_batch captured w) = w_queues w.
Proof.
  unfold write_batch.
  induction captured as [|sf rest IH]; intros w; simpl; auto.
  now rewrite IH.
Qed.

Lemma writes_of_batch (captured : dict frame) :
  writes (map (fun sf => ImWrite (fst sf) (snd sf)) captured) = captured.
Proof.
  induction captured as [|[c f] rest IH]; simpl; auto. now rewrite IH.
Qed.

(** ** The wait loop *)

Lemma grows_refl st frames w : grows st frames w st frames w.
Proof.
  unfold grows. repeat split; auto using trace_ext_refl; intros; lia.
Qed.

Lemma grows_trans st1 f1 w1 st2 f2 w2 st3 f3 w3 :
  grows st1 f1 w1 st2 f2 w2 -> grows st2 f2 w2 st3 f3 w3 ->
  grows st1 f1 w1 st3 f3 w3.
Proof.
  intros (C1 & T1 & N1 & L1 & M1 & K1 & B1) (C2 & T2 & N2 & L2 & M2 & K2 & B2).
  unfold grows. repeat split; try congruence.
  - eapply trace_ext_trans; eauto.
  - intros c. specialize (M1 c). specialize (M2 c). lia.
  - auto.
  - intros c Hlt.
    destruct (Z_lt_le_dec (per_cam_frames st2 c) (per_cam_frames st3 c)); auto.
    apply K2, B1. specialize (M2 c). lia.
Qed.

Lemma bump_same name c : bump name c name = (c name + 1)%Z.
Proof. unfold bump. now rewrite String.eqb_refl. Qed.

Lemma bump_other name c k : k <> name -> bump name c k = c k.
Proof.
  unfold bump. intros H. destruct (String.eqb k name) eqn:E; auto.
  apply String.eqb_eq in E. contradiction.
Qed.

Lemma bump_le name c k : (c k <= bump name c k)%Z.
Proof. unfold bump. destruct (String.eqb k name); lia. Qed.

Lemma bump_lt name c k : (c k < bump name c k)%Z -> k = name.
Proof.
  unfold bump. destruct (String.eqb k name) eqn:E; [|lia].
  intros _. now apply String.eqb_eq.
Qed.

Lemma poll_pass_grows cfg names : forall st frames acq w st' frames' acq' w',
  poll_pass cfg names st frames acq w = (st', frames', acq', w') ->
  grows st frames w st' frames' w'.
Proof.
  induction names as [|name rest IH]; intros st frames acq w st' frames' acq' w' H;
    simpl in H.
  - injection H as <- <- <- <-. apply grows_refl.
  - destruct (dict_mem name frames) eqn:Hmem; [eauto|].
    destruct (queue_poll name w) as [[f w1]|] eqn:Hpoll; [|eauto].
    pose proof (queue_poll_spec _ _ _ _ Hpoll) as (_ & _ & _ & Hc & _ & _ & _ & Ht).
    destruct (warmup_counter st name <? warmup_frames cfg)%Z.
    + apply IH in H. eapply grows_trans; [|exact H].
      unfold grows. simpl. repeat split; auto; try (intros; lia).
      exists [Pop name f]. split; auto. constructor; simpl; auto.
    + apply IH in H. eapply grows_trans; [|exact H].
      unfold grows. simpl. repeat split; auto.
      * destruct (headless cfg); simpl; auto.
      * destruct (headless cfg).
        -- exists [Pop name f]. split; auto. constructor; simpl; auto.
        -- exists [Pop name f; ImShow name f]. simpl. rewrite Ht, <- app_assoc.
           split; auto. repeat constructor.
      * intros c. apply bump_le.
      * intros c Hc'. rewrite dict_mem_set, Hc'. apply orb_true_r.
      * intros c Hlt. apply bump_lt in Hlt. subst c.
        rewrite dict_mem_set, String.eqb_refl. reflexivity.
Qed.

Lemma grows_time st frames w : grows st frames w st frames (snd (time_time w)).
Proof.
  unfold grows. repeat split; auto using time_time_cams, trace_ext_time;
    intros; lia.
Qed.

Lemma wait_key_cams w : cams (snd (wait_key w)) = cams w.
Proof. unfold wait_key. destruct (w_keys w); reflexivity. Qed.

Lemma grows_key st frames w : grows st frames w st frames (snd (wait_key w)).
Proof.
  unfold grows. repeat split; auto using wait_key_cams, trace_ext_key;
    intros; lia.
Qed.

Lemma grows_emit st frames w e :
  quiet_event e -> grows st frames w st frames (emit e w).
Proof.
  intros He. unfold grows. repeat split; auto using trace_ext_emit; intros; lia.
Qed.

Lemma grows_sleep st frames w d : grows st frames w st frames (time_sleep d w).
Proof.
  unfold grows. repeat split; auto; try (intros; lia).
  apply trace_ext_sleep. exact I.
Qed.

Lemma collected_grown_trans st frames w st1 frames1 w1 r :
  grows st frames w st1 frames1 w1 ->
  collected_grown st1 frames1 w1 r -> collected_grown st frames w r.
Proof.
  intros G. destruct r as [st' frames' w'|w'|]; simpl; auto.
  - intros G'. eapply grows_trans; eauto.
  - intros (st2 & frames2 & w2 & G' & ->).
    exists st2, frames2, w2. split; auto. eapply grows_trans; eauto.
Qed.

Lemma collect_frames_grows cfg start fuel : forall st frames w,
  collected_grown st frames w (collect_frames cfg fuel start st frames w).
Proof.
  induction fuel as [|fuel IH]; intros st frames w; simpl; auto.
  destruct (poll_pass cfg (cams w) st frames false w)
    as [[[st1 frames1] acq] w1] eqn:Hpass.
  apply poll_pass_grows in Hpass.
  eapply collected_grown_trans; [exact Hpass|]. clear Hpass.
  destruct (wait_all cfg); simpl; [|apply grows_refl].
  pose proof (grows_time st1 frames1 w1) as G2.
  destruct (time_time w1) as [now w2]. simpl in G2.
  eapply collected_grown_trans; [exact G2|]. clear G2.
  destruct (_ || _); simpl.
  { destruct (_ && _); [|apply grows_refl]. apply grows_emit. exact I. }
  set (w3 := if acq then w2 else time_sleep (5 # 1000) w2).
  assert (G3 : grows st1 frames1 w2 st1 frames1 w3).
  { subst w3. destruct acq; [apply grows_refl|apply grows_sleep]. }
  eapply collected_grown_trans; [exact G3|]. clear G3.
  destruct (headless cfg); [apply IH|].
  pose proof (grows_key st1 frames1 w3) as G4.
  destruct (wait_key w3) as [key w4]. simpl in G4.
  destruct (is_quit_key key); simpl.
  - exists st1, frames1, w4. auto.
  - eapply collected_grown_trans; [exact G4|]. apply IH.
Qed.

(** ** The quality gates *)

Lemma gate_no_write e : gate_event e -> no_write e.
Proof. destruct e; simpl; auto. Qed.

Lemma gated_world_refl w : gated_world w w.
Proof. split; auto using trace_ext_refl. Qed.

Lemma gated_world_trans w1 w2 w3 :
  gated_world w1 w2 -> gated_world w2 w3 -> gated_world w1 w3.
Proof.
  intros (C1 & T1) (C2 & T2). split; [congruence|].
  eapply trace_ext_trans; eauto.
Qed.

Lemma gated_world_emit w e : gate_event e -> gated_world w (emit e w).
Proof. intros He. split; auto. now apply trace_ext_emit. Qed.

Lemma gated_world_sleep w d : gated_world w (time_sleep d w).
Proof. split; auto. apply trace_ext_sleep. exact I. Qed.

Lemma gated_refl captured w : gated captured w (captured, w).
Proof. split; simpl; auto using gated_world_refl. Qed.

Lemma gated_step captured w w1 r :
  gated_world w w1 -> gated captured w1 r -> gated captured w r.
Proof.
  intros G (G1 & K1). split; auto. eapply gated_world_trans; eauto.
Qed.

Lemma gated_trans c1 w1 c2 w2 r :
  gated c1 w1 (c2, w2) -> gated c2 w2 r -> gated c1 w1 r.
Proof.
  intros (G1 & K1) (G2 & K2). simpl in *. split; auto.
  eapply gated_world_trans; eauto.
Qed.

Lemma refresh_gated names : forall captured w,
  gated captured w (refresh names captured w).
Proof.
  induction names as [|sock rest IH]; intros captured w; simpl.
  - apply gated_refl.
  - destruct (queue_poll sock w) as [[f w1]|] eqn:Hpoll; [|apply IH].
    pose proof (queue_poll_spec _ _ _ _ Hpoll) as (_ & _ & _ & Hc & _ & _ & _ & Ht).
    eapply gated_trans; [|apply IH].
    split; simpl.
    + split; auto. exists [Pop sock f]. split; auto. constructor; simpl; auto.
    + intros c Hm. rewrite dict_mem_set, Hm. apply orb_true_r.
Qed.

Lemma res_sat_step captured w w1 (r : res (dict frame * world)) :
  gated_world w w1 ->
  res_sat (gated captured w1) (gated_world w1) r ->
  res_sat (gated captured w) (gated_world w) r.
Proof.
  intros G. destruct r as [a|wx|]; simpl; auto.
  - now apply gated_step.
  - now apply gated_world_trans.
Qed.

Lemma res_sat_trans c1 w1 c2 w2 (r : res (dict frame * world)) :
  gated c1 w1 (c2, w2) ->
  res_sat (gated c2 w2) (gated_world w2) r ->
  res_sat (gated c1 w1) (gated_world w1) r.
Proof.
  intros G. destruct r as [a|wx|]; simpl; auto.
  - now apply gated_trans.
  - destruct G as (G & _). simpl in G. now apply gated_world_trans.
Qed.

Lemma brightness_loop_gated cfg fuel : forall attempt captured w,
  res_sat (gated captured w) (gated_world w)
          (brightness_loop cfg fuel attempt captured w).
Proof.
  induction fuel as [|fuel IH]; intros attempt captured w; simpl.
  - destruct (min_brightness cfg); [destruct (_ <=? _)%Z|]; simpl;
      auto using gated_refl.
  - destruct (min_brightness cfg) as [min_b|]; [|apply gated_refl].
    destruct (_ <=? _)%Z; [|apply gated_refl].
    destruct (nonempty _); simpl; [|apply gated_refl].
    destruct (_ >? _)%Z; simpl.
    { split; simpl; auto. now apply gated_world_emit. }
    match goal with
    | |- context [emit ?e w] =>
        apply (res_sat_step captured w (emit e w));
        [apply gated_world_emit; exact I|]
    end.
    destruct (Qltb (brightness_wait cfg) 0); simpl; [apply gated_world_refl|].
    match goal with
    | |- context [time_sleep ?d ?w0] =>
        apply (res_sat_step captured w0 (time_sleep d w0));
        [apply gated_world_sleep|]
    end.
    match goal with
    | |- context [refresh ?n ?c ?w0] =>
        pose proof (refresh_gated n c w0) as Hr;
        destruct (refresh n c w0) as [captured1 w3]
    end.
    eapply res_sat_trans; [exact Hr|]. apply IH.
Qed.

Lemma sharpness_loop_gated cfg min_s fuel : forall attempts captured w,
  res_sat (gated captured w) (gated_world w)
          (sharpness_loop cfg min_s fuel attempts captured w).
Proof.
  induction fuel as [|fuel IH]; intros attempts captured w; simpl.
  - destruct (_ <? _)%Z; simpl; auto using gated_refl.
  - destruct (_ <? _)%Z; [|apply gated_refl].
    destruct (nonempty _); [|apply gated_refl].
    destruct (Qltb _ _).
    2:{ split; simpl; auto. now apply gated_world_emit. }
    match goal with
    | |- context [emit ?e w] =>
        apply (res_sat_step captured w (emit e w));
        [apply gated_world_emit; exact I|]
    end.
    match goal with
    | |- context [time_sleep ?d ?w0] =>
        apply (res_sat_step captured w0 (time_sleep d w0));
        [apply gated_world_sleep|]
    end.
    match goal with
    | |- context [refresh ?n ?c ?w0] =>
        pose proof (refresh_gated n c w0) as Hr;
        destruct (refresh n c w0) as [captured1 w3]
    end.
    eapply res_sat_trans; [exact Hr|]. apply IH.
Qed.

Lemma sharpness_check_gated cfg fuel captured w :
  res_sat (gated captured w) (gated_world w)
          (sharpness_check cfg fuel captured w).
Proof.
  unfold sharpness_check. destruct (min_sharpness cfg).
  - apply sharpness_loop_gated.
  - apply gated_refl.
Qed.

(** ** One capture, one iteration *)

Lemma nonempty_false {A : Type} (l : list A) : nonempty l = false <-> l = [].
Proof. destruct l; simpl; split; congruence. Qed.

Lemma lacking_of_cams cfg st w w' :
  cams w' = cams w -> lacking_of cfg st w' = lacking_of cfg st w.
Proof. unfold lacking_of. now intros ->. Qed.

Lemma lacking_of_counts cfg st st' w :
  per_cam_frames st' = per_cam_frames st ->
  lacking_of cfg st' w = lacking_of cfg st w.
Proof. unfold lacking_of. now intros ->. Qed.

Lemma lacking_of_nil cfg st w :
  lacking_of cfg st w = [] <->
  forall cam, In cam (cams w) -> (min_frames_each cfg <= per_cam_frames st cam)%Z.
Proof.
  unfold lacking_of. induction (cams w) as [|c rest IH]; simpl.
  - split; auto. intros _ ? [].
  - destruct (per_cam_frames st c <? min_frames_each cfg)%Z eqn:E.
    + split; [discriminate|]. intros H. apply Z.ltb_lt in E.
      specialize (H c (or_introl eq_refl)). lia.
    + rewrite IH. apply Z.ltb_ge in E. split.
      * intros H cam [<-|Hin]; auto.
      * intros H cam Hin. auto.
Qed.

Lemma writes_batch_events cfg st gate captured :
  Forall gate_event gate -> writes (batch_events cfg st gate captured) = captured.
Proof.
  intros F. unfold batch_events. rewrite writes_app, writes_no_write.
  2:{ apply Forall_impl with (P := gate_event); [apply gate_no_write | exact F]. }
  simpl. rewrite writes_app, writes_of_batch.
  destruct (one_shot cfg); simpl; now rewrite app_nil_r.
Qed.

(** What one capture attempt adds to the trace: only the postponement
    notice when a camera is lacking; otherwise gate events and then, unless
    the brightness wait raised, the announcement and one file per held
    frame. *)
Lemma capture_batch_spec cfg fuel st frames w o w' :
  capture_batch cfg fuel st frames w = o -> world_of o = Some w' ->
  cams w' = cams w /\
  exists new, w_trace w' = w_trace w ++ new /\
  ((lacking_of cfg st w <> [] /\ o = Continue st w' /\
    new = [MsgPostponed (lacking_of cfg st w)]) \/
   (lacking_of cfg st w = [] /\ o = Raised w' /\ Forall gate_event new) \/
   (lacking_of cfg st w = [] /\
    (o = Continue (count_capture st) w' \/ o = Break (count_capture st) w') /\
    exists gate captured,
      Forall gate_event gate /\
      (forall c, dict_mem c frames = true -> dict_mem c captured = true) /\
      new = batch_events cfg st gate captured)).
Proof.
  unfold capture_batch. intros H Hw.
  destruct (nonempty (lacking_of cfg st w)) eqn:Hl.
  { subst o. injection Hw as <-. split; auto.
    exists [MsgPostponed (lacking_of cfg st w)]. split; auto. left.
    repeat split; auto. intros E. rewrite E in Hl. discriminate. }
  apply nonempty_false in Hl.
  pose proof (brightness_loop_gated cfg fuel 0 frames w) as Hb.
  destruct (brightness_loop cfg fuel 0 frames w) as [[captured1 w1]|wx|];
    simpl in Hb.
  - destruct Hb as ((C1 & g1 & E1 & F1) & K1). simpl in *.
    pose proof (sharpness_check_gated cfg fuel captured1 w1) as Hs.
    destruct (sharpness_check cfg fuel captured1 w1) as [[captured2 w2]|wx|];
      simpl in Hs.
    + destruct Hs as ((C2 & g2 & E2 & F2) & K2). simpl in *.
      assert (Hres : cams w' = cams w /\
                     w_trace w' = w_trace w ++ batch_events cfg st (g1 ++ g2) captured2 /\
                     (o = Continue (count_capture st) w' \/
                      o = Break (count_capture st) w')).
      { unfold batch_events.
        assert (Hcw : cams (write_batch captured2
                              (emit (MsgSaving (capture_count st + 1)) w2)) = cams w).
        { rewrite write_batch_cams. change (cams w2 = cams w). congruence. }
        destruct (one_shot cfg); subst o; injection Hw as <-;
          (split; [exact Hcw|]); (split; [|auto]); simpl;
          rewrite write_batch_trace; simpl; rewrite E2, E1;
          rewrite <- ?app_assoc; simpl; rewrite ?app_nil_r; reflexivity. }
      destruct Hres as (Hc & Ht & Ho). split; auto.
      eexists. split; [exact Ht|]. right. right. repeat split; auto.
      exists (g1 ++ g2), captured2. repeat split; auto.
      apply Forall_app. auto.
    + subst o. injection Hw as <-. destruct Hs as (C2 & g2 & E2 & F2).
      split; [congruence|].
      exists (g1 ++ g2). split; [rewrite E2, E1; now rewrite app_assoc|].
      right. left. repeat split; auto. apply Forall_app. auto.
    + subst o. discriminate.
  - subst o. injection Hw as <-. destruct Hb as (C1 & g1 & E1 & F1).
    split; auto. exists g1. split; auto.
  - subst o. discriminate.
Qed.

Lemma auto_trigger_spec cfg st frames w :
  per_cam_frames (snd (fst (auto_trigger cfg st frames w))) = per_cam_frames st /\
  warmup_counter (snd (fst (auto_trigger cfg st frames w))) = warmup_counter st /\
  capture_count (snd (fst (auto_trigger cfg st frames w))) = capture_count st /\
  cams (snd (auto_trigger cfg st frames w)) = cams w /\
  w_queues (snd (auto_trigger cfg st frames w)) = w_queues w /\
  w_trace (snd (auto_trigger cfg st frames w)) = w_trace w.
Proof.
  unfold auto_trigger. destruct (interval_of cfg) as [interval|]; auto 10.
  destruct (_ && _); auto 10.
  unfold time_time, cams.
  destruct (w_lag w); simpl; destruct (Qle_bool _ _); simpl; auto 10.
Qed.

(** The three ways an iteration goes on after the wait loop: nothing to
    do, quit on a key, or a capture attempt; up to there nothing was added
    to the trace but the idle sleep of headless mode. *)
Lemma evaluate_cases cfg fuel st frames w :
  exists st1 w2,
    per_cam_frames st1 = per_cam_frames st /\
    warmup_counter st1 = warmup_counter st /\
    capture_count st1 = capture_count st /\
    cams w2 = cams w /\
    w_queues w2 = w_queues w /\
    trace_ext quiet_event w w2 /\
    (evaluate cfg fuel st frames w = Continue st1 w2 \/
     evaluate cfg fuel st frames w = Break st1 (emit MsgQuit w2) \/
     (nonempty frames = true /\
      evaluate cfg fuel st frames w = capture_batch cfg fuel st1 frames w2)).
Proof.
  unfold evaluate.
  pose proof (auto_trigger_spec cfg st frames w) as (Hp & Hwc & Hcc & Hc & Hq & Ht).
  destruct (auto_trigger cfg st frames w) as [[do_capture st1] w1]. simpl in *.
  set (kw := if headless cfg then (255%Z, time_sleep (1 # 100) w1) else wait_key w1).
  assert (Hkw : cams (snd kw) = cams w /\ w_queues (snd kw) = w_queues w /\
                trace_ext quiet_event w (snd kw)).
  { subst kw. destruct (headless cfg); simpl.
    - repeat split; auto. exists [Sleep (1 # 100)]. simpl. rewrite Ht.
      split; auto. constructor; simpl; auto.
    - rewrite wait_key_cams. repeat split; auto.
      + unfold wait_key. destruct (w_keys w1); simpl; auto.
      + exists []. rewrite wait_key_trace, Ht, app_nil_r. auto. }
  destruct kw as [key w2]. simpl in Hkw. destruct Hkw as (Hc2 & Hq2 & Ht2).
  exists st1, w2. repeat split; auto.
  destruct (negb (headless cfg) && is_quit_key key); auto.
  destruct (nonempty frames); auto.
  - destruct (_ || _ || _); simpl; auto.
  - rewrite andb_false_r. auto.
Qed.

(** What one iteration of the main loop writes: nothing, or one batch,
    and then every camera has reached [min_frames_each] and every camera
    whose frame counter went up during the iteration is in the batch. *)
Lemma cycle_writes cfg fuel st w o w' :
  cycle cfg fuel st w = o -> world_of o = Some w' ->
  cams w' = cams w /\
  exists new, w_trace w' = w_trace w ++ new /\
  (writes new = [] \/
   exists st1,
     (o = Continue st1 w' \/ o = Break st1 w') /\
     capture_count st1 = (capture_count st + 1)%Z /\
     (forall c, (per_cam_frames st c <= per_cam_frames st1 c)%Z) /\
     lacking_of cfg st1 w = [] /\
     (forall c, (per_cam_frames st c < per_cam_frames st1 c)%Z ->
                dict_mem c (writes new) = true)).
Proof.
  unfold cycle. intros H Hw.
  pose proof (time_time_trace w) as Ht0. pose proof (time_time_cams w) as Hc0.
  destruct (time_time w) as [start w0]. simpl in Ht0, Hc0.
  pose proof (collect_frames_grows cfg start fuel st [] w0) as Hcol.
  destruct (collect_frames cfg fuel start st [] w0) as [st1 frames w1|w1|];
    simpl in Hcol.
  - destruct Hcol as (C1 & (n1 & E1 & F1) & N1 & L1 & M1 & K1 & B1).
    destruct (evaluate_cases cfg fuel st1 frames w1)
      as (st2 & w2 & Hp & Hwc & Hcc & C2 & _ & (n2 & E2 & F2) & Hcase).
    assert (Hq12 : writes (n1 ++ n2) = []).
    { rewrite writes_app, !writes_quiet; auto. }
    destruct Hcase as [He | [He | (Hne & He)]]; rewrite He in H.
    + subst o. injection Hw as <-. split; [congruence|].
      exists (n1 ++ n2). split; [rewrite E2, E1, Ht0; now rewrite app_assoc|].
      now left.
    + subst o. injection Hw as <-.
      split; [change (cams w2 = cams w); congruence|].
      exists ((n1 ++ n2) ++ [MsgQuit]). split.
      { simpl. rewrite E2, E1, Ht0. now rewrite <- !app_assoc. }
      left. rewrite writes_app, Hq12. reflexivity.
    + destruct (capture_batch_spec cfg fuel st2 frames w2 o w' H Hw)
        as (C3 & n3 & E3 & Hcap).
      split; [congruence|].
      exists ((n1 ++ n2) ++ n3). split.
      { rewrite E3, E2, E1, Ht0. now rewrite <- !app_assoc. }
      rewrite writes_app, Hq12. simpl.
      destruct Hcap as [(_ & _ & ->) | [(_ & _ & Fg) | (Hl & Ho & gate & captured & Fg & Kc & ->)]].
      * now left.
      * left. apply writes_no_write.
        apply Forall_impl with (P := gate_event); auto using gate_no_write.
      * right. exists (count_capture st2).
        rewrite writes_batch_events by assumption.
        repeat split; auto.
        -- simpl. lia.
        -- intros c. simpl. rewrite Hp. apply M1.
        -- rewrite (lacking_of_counts cfg st2 (count_capture st2) w eq_refl).
           rewrite <- Hl. symmetry. apply lacking_of_cams. congruence.
        -- intros c Hlt. simpl in Hlt. rewrite Hp in Hlt. auto.
  - destruct Hcol as (st1 & frames1 & wq & (C1 & (n1 & E1 & F1) & _) & ->).
    subst o. injection Hw as <-.
    split; [change (cams wq = cams w); congruence|].
    exists (n1 ++ [MsgQuit]). split.
    { simpl. rewrite E1, Ht0. now rewrite <- app_assoc. }
    left. rewrite writes_app, writes_quiet; auto.
  - subst o. discriminate.
Qed.

Lemma lacking_of_In cfg st w cam :
  In cam (lacking_of cfg st w) <->
  In cam (cams w) /\ (per_cam_frames st cam < min_frames_each cfg)%Z.
Proof.
  unfold lacking_of. rewrite filter_In, Z.ltb_lt. tauto.
Qed.

(** C7. When a capture is requested while some camera has delivered fewer
    than [min_frames_each] frames past warm-up, the capture is postponed:
    the only thing added to the trace is the notice naming the lacking
    cameras, no file is written, and the main loop goes on to its next
    iteration with its counters unchanged.  Hence an iteration of the main
    loop that writes files ends with every camera at or above
    [min_frames_each]. *)
Theorem capture_waits_for_min_frames :
  (forall cfg fuel st frames w cam,
      In cam (cams w) ->
      (per_cam_frames st cam < min_frames_each cfg)%Z ->
      In cam (lacking_of cfg st w) /\
      capture_batch cfg fuel st frames w
      = Continue st (emit (MsgPostponed (lacking_of cfg st w)) w) /\
      writes (events_since w (emit (MsgPostponed (lacking_of cfg st w)) w)) = []) /\
  (forall cfg fuel st w o w',
      cycle cfg fuel st w = o -> world_of o = Some w' ->
      writes (events_since w w') <> [] ->
      exists st1,
        (o = Continue st1 w' \/ o = Break st1 w') /\
        forall cam, In cam (cams w) ->
                    (min_frames_each cfg <= per_cam_frames st1 cam)%Z).
Proof.
  split.
  - intros cfg fuel st frames w cam Hin Hlt.
    assert (Hl : In cam (lacking_of cfg st w)) by (apply lacking_of_In; auto).
    split; auto. split.
    + unfold capture_batch.
      destruct (lacking_of cfg st w); [contradiction|reflexivity].
    + rewrite (events_since_app w _ [MsgPostponed (lacking_of cfg st w)]);
        reflexivity.
  - intros cfg fuel st w o w' Hcyc Hw Hwr.
    destruct (cycle_writes cfg fuel st w o w' Hcyc Hw) as (_ & new & E & Hcase).
    rewrite (events_since_app _ _ _ E) in Hwr.
    destruct Hcase as [Hnone | (st1 & Ho & _ & _ & Hl & _)]; [contradiction|].
    exists st1. split; auto. now apply lacking_of_nil.
Qed.

Lemma capture_waits_for_min_frames_witness :
  In "CAM_B"%string (cams b_arrives_world) /\
  (per_cam_frames a_ready_state "CAM_B"%string < min_frames_each scenario_cfg)%Z /\
  capture_batch scenario_cfg 5 a_ready_state
    [("CAM_A"%string, {| f_seq := 2; f_img := blank 3 |})] b_arrives_world
  = Continue a_ready_state
      (emit (MsgPostponed (lacking_of scenario_cfg a_ready_state b_arrives_world))
            b_arrives_world).
Proof.
  assert (Hin : In "CAM_B"%string (cams b_arrives_world)) by (simpl; auto).
  assert (Hlt : (per_cam_frames a_ready_state "CAM_B"%string
                 < min_frames_each scenario_cfg)%Z) by (simpl; lia).
  split; [exact Hin|]. split; [exact Hlt|].
  exact (proj1 (proj2 (proj1 capture_waits_for_min_frames scenario_cfg 5%nat
                         a_ready_state
                         [("CAM_A"%string, {| f_seq := 2; f_img := blank 3 |})]
                         b_arrives_world "CAM_B"%string Hin Hlt))).
Defined.

(** ** Runs of the main loop *)

Lemma main_loop_step cfg fuel n st w st1 w1 :
  cycle cfg fuel st w = Continue st1 w1 ->
  main_loop cfg fuel (S n) st w = main_loop cfg fuel n st1 w1.
Proof. intros H. simpl. now rewrite H. Qed.

Lemma queue_poll_drained name w : drained w -> queue_poll name w = None.
Proof.
  unfold drained, queue_poll. intros H.
  destruct (dict_get name (w_queues w)) as [q|] eqn:Hq; auto.
  assert (Hp : q_pending q = []).
  { revert Hq. induction H as [|[k q0] rest H0 _ IH]; simpl; [discriminate|].
    destruct (String.eqb name k); auto. intros E. now injection E as <-. }
  now rewrite Hp.
Qed.

Lemma poll_pass_drained cfg names : forall st frames acq w,
  drained w -> poll_pass cfg names st frames acq w = (st, frames, acq, w).
Proof.
  induction names as [|name rest IH]; intros st frames acq w Hd; simpl; auto.
  destruct (dict_mem name frames); auto.
  rewrite queue_poll_drained; auto.
Qed.

Lemma drained_time w : drained w -> drained (snd (time_time w)).
Proof. unfold drained, time_time. destruct (w_lag w); auto. Qed.

(** With every queue empty, an iteration of the headless loop that does not
    wait for all cameras only sleeps. *)
Lemma cycle_drained cfg fuel st w :
  headless cfg = true -> wait_all cfg = false -> drained w ->
  cycle cfg (S fuel) st w
  = Continue st (time_sleep (1 # 100) (snd (time_time w))).
Proof.
  intros Hh Hw Hd. unfold cycle.
  pose proof (drained_time w Hd) as Hd0.
  destruct (time_time w) as [start w0]. simpl in *.
  rewrite poll_pass_drained, Hw by assumption. simpl.
  unfold evaluate, auto_trigger. rewrite Hh. simpl.
  destruct (interval_of cfg); simpl; rewrite ?andb_false_r; reflexivity.
Qed.

Lemma main_loop_drained cfg fuel n : forall st w,
  headless cfg = true -> wait_all cfg = false -> drained w ->
  exists w', main_loop cfg (S fuel) n st w = Break st w' /\
             writes (w_trace w') = writes (w_trace w).
Proof.
  induction n as [|n IH]; intros st w Hh Hw Hd.
  - exists w. auto.
  - rewrite (main_loop_step cfg (S fuel) n st w _ _ (cycle_drained cfg fuel st w Hh Hw Hd)).
    destruct (IH st (time_sleep (1 # 100) (snd (time_time w))) Hh Hw)
      as (w' & E & Ew).
    { unfold drained. simpl. apply (drained_time w Hd). }
    exists w'. split; auto. rewrite Ew. simpl.
    rewrite writes_app, time_time_trace. simpl. now rewrite app_nil_r.
Qed.

(** C1, as stated, fails.  In the scenario, the third iteration pops and
    holds camera A's third frame and requests the capture, but the capture
    is postponed because camera B has no frame past warm-up, and nothing is
    written; and no run of the scenario, however long, ever writes a batch
    made of camera A's third frame alone. *)
Lemma scenario_third_frame_not_emitted :
  (exists st w,
      main_loop scenario_cfg 1 3 init_state scenario_world = Break st w /\
      In (Pop "CAM_A" {| f_seq := 2; f_img := blank 3 |}) (w_trace w) /\
      last (w_trace w) MsgQuit = MsgPostponed ["CAM_B"%string] /\
      writes (w_trace w) = []) /\
  ~ (exists fuel n o w,
        main_loop scenario_cfg fuel n init_state scenario_world = o /\
        world_of o = Some w /\
        writes (w_trace w)
        = [("CAM_A"%string, {| f_seq := 2; f_img := blank 3 |})]).
Proof.
  split.
  - eexists. eexists. split; [vm_compute; reflexivity|].
    split; [simpl; auto 10|]. split; reflexivity.
  - intros (fuel & n & o & w & Hrun & Hw & Hwr).
    assert (Hnone : writes (w_trace w) = []); [|rewrite Hnone in Hwr; discriminate].
    destruct fuel as [|fuel].
    { destruct n; simpl in Hrun; subst o; simpl in Hw; [|discriminate].
      injection Hw as <-. reflexivity. }
    destruct n as [|[|[|n]]];
      try (subst o; vm_compute in Hw; injection Hw as <-; reflexivity).
    erewrite main_loop_step in Hrun by (vm_compute; reflexivity).
    erewrite main_loop_step in Hrun by (vm_compute; reflexivity).
    erewrite main_loop_step in Hrun by (vm_compute; reflexivity).
    match type of Hrun with
    | main_loop _ _ _ ?st ?w3 = _ =>
        destruct (main_loop_drained scenario_cfg fuel n st w3 eq_refl eq_refl)
          as (w' & E & Ew)
    end.
    { repeat constructor. }
    rewrite E in Hrun. subst o. injection Hw as <-. rewrite Ew. reflexivity.
Qed.

(** C1, amended.  With two cameras, a warm-up of 2 frames, one frame
    required of each camera, no quality threshold and no waiting for all
    cameras: an iteration of the main loop that starts while camera B has
    delivered no frame past its warm-up writes nothing (a capture requested
    in it is postponed), unless camera B's frame is part of the batch it
    writes.  So no batch is emitted when camera A's third frame arrives
    while camera B is still in warm-up, and a batch of camera A alone is
    only possible once camera B has delivered a frame past warm-up. *)
Theorem scenario_batch_waits_for_camera_b :
  forall cfg fuel st w o w',
    warmup_frames cfg = 2%Z -> min_frames_each cfg = 1%Z ->
    min_brightness cfg = None -> min_sharpness cfg = None ->
    wait_all cfg = false ->
    cams w = ["CAM_A"; "CAM_B"]%string ->
    per_cam_frames st "CAM_B"%string = 0%Z ->
    cycle cfg fuel st w = o -> world_of o = Some w' ->
    writes (events_since w w') = [] \/
    dict_mem "CAM_B" (writes (events_since w w')) = true.
Proof.
  intros cfg fuel st w o w' _ Hmin _ _ _ Hcams Hb Hcyc Hw.
  destruct (cycle_writes cfg fuel st w o w' Hcyc Hw) as (_ & new & E & Hcase).
  rewrite (events_since_app _ _ _ E).
  destruct Hcase as [Hnone | (st1 & _ & _ & _ & Hl & Hin)]; [now left|].
  right. apply Hin. rewrite Hb.
  rewrite lacking_of_nil in Hl.
  specialize (Hl "CAM_B"%string). rewrite Hcams, Hmin in Hl.
  assert (1 <= per_cam_frames st1 "CAM_B"%string)%Z by (apply Hl; simpl; auto).
  lia.
Qed.

Lemma scenario_batch_waits_for_camera_b_witness :
  exists st' w',
    cycle scenario_cfg 1 a_ready_state b_arrives_world = Break st' w' /\
    writes (w_trace w') = [("CAM_B"%string, {| f_seq := 2; f_img := blank 6 |})] /\
    (writes (events_since b_arrives_world w') = [] \/
     dict_mem "CAM_B" (writes (events_since b_arrives_world w')) = true).
Proof.
  eexists. eexists. split; [vm_compute; reflexivity|].
  split; [reflexivity|].
  eapply (scenario_batch_waits_for_camera_b scenario_cfg 1 a_ready_state
            b_arrives_world _ _ eq_refl eq_refl eq_refl eq_refl eq_refl
            eq_refl eq_refl eq_refl).
  reflexivity.
Defined.

(** ** Quality gates on concrete inputs *)

(** C3 fails on the code.  Camera B's held frame is too dark and camera A's
    is not; both queues have a newer frame.  The retry pops both queues and
    replaces camera A's held frame as well. *)
Theorem brightness_retry_replaces_passing_camera :
  too_dark_of 40 one_dark_frames = [("CAM_B"%string, 10%Q)] /\
  dict_get "CAM_A" one_dark_frames
  = Some {| f_seq := 5; f_img := picture 100 80 |} /\
  exists captured w',
    brightness_loop gated_cfg 3 0 one_dark_frames one_dark_world
    = Ok (captured, w') /\
    dict_get "CAM_A" captured = Some {| f_seq := 6; f_img := picture 90 80 |} /\
    w_trace w' =
    [MsgDarkRetry [("CAM_B"%string, 10%Q)] (1 # 2) 1 2;
     Sleep (1 # 2);
     Pop "CAM_A" {| f_seq := 6; f_img := picture 90 80 |};
     Pop "CAM_B" {| f_seq := 6; f_img := picture 50 80 |}].
Proof.
  split; [reflexivity|]. split; [reflexivity|].
  eexists. eexists. split; [vm_compute; reflexivity|].
  split; reflexivity.
Qed.

(** C5 fails on the code.  A camera whose frames stay below the sharpness
    threshold: the three retries are made, the batch is then written, and
    between the last re-poll and the announcement of the batch nothing is
    reported, although the average of the frames written (13) is below the
    threshold (50). *)
Theorem sharpness_exhaustion_is_silent :
  exists captured w1 w',
    sharpness_check blurry_cfg 3 blurred_frames blurred_world = Ok (captured, w1) /\
    Qltb (average (sharp_values_of blurry_cfg captured)) 50 = true /\
    capture_batch blurry_cfg 3 a_ready_state blurred_frames blurred_world
    = Break (count_capture a_ready_state) w' /\
    w_trace w' =
    [MsgBlurryRetry 10 50; Sleep (3 # 10);
     Pop "CAM_A" {| f_seq := 6; f_img := picture 100 11 |};
     MsgBlurryRetry 11 50; Sleep (3 # 10);
     Pop "CAM_A" {| f_seq := 7; f_img := picture 100 12 |};
     MsgBlurryRetry 12 50; Sleep (3 # 10);
     Pop "CAM_A" {| f_seq := 8; f_img := picture 100 13 |};
     MsgSaving 1;
     ImWrite "CAM_A" {| f_seq := 8; f_img := picture 100 13 |};
     MsgOneShotDone].
Proof.
  eexists. eexists. eexists.
  split; [vm_compute; reflexivity|].
  split; [vm_compute; reflexivity|].
  split; [vm_compute; reflexivity|].
  vm_compute. reflexivity.
Qed.

(** ** The brightness gate *)

Lemma refresh_pops names : forall captured w,
  exists pops,
    w_trace (snd (refresh names captured w)) = w_trace w ++ pops /\
    Forall pop_event pops.
Proof.
  induction names as [|sock rest IH]; intros captured w; simpl.
  - exists []. now rewrite app_nil_r.
  - destruct (queue_poll sock w) as [[f w1]|] eqn:Hpoll; [|apply IH].
    pose proof (queue_poll_spec _ _ _ _ Hpoll) as (_ & _ & _ & _ & _ & _ & _ & Ht).
    destruct (IH (dict_set sock f captured) w1) as (pops & E & F).
    exists (Pop sock f :: pops). split.
    + rewrite E, Ht. now rewrite <- app_assoc.
    + constructor; simpl; auto.
Qed.

(** The brightness loop from any attempt on: it returns, after at most
    [brightness_retry - attempt] retries, either with no dark frame left or
    with all retries used and the dark frames reported. *)
Lemma brightness_loop_passes cfg min_b fuel : forall attempt captured w,
  min_brightness cfg = Some min_b ->
  (0 <= brightness_wait cfg)%Q ->
  (attempt <= brightness_retry cfg)%Z ->
  (Z.to_nat (brightness_retry cfg - attempt) < fuel)%nat ->
  exists captured' w' passes tail,
    brightness_loop cfg fuel attempt captured w = Ok (captured', w') /\
    w_trace w' = w_trace w ++ List.concat passes ++ tail /\
    Forall (retry_pass cfg) passes /\
    (Z.of_nat (List.length passes) <= brightness_retry cfg - attempt)%Z /\
    ((too_dark_of min_b captured' = [] /\ tail = []) \/
     (too_dark_of min_b captured' <> [] /\
      Z.of_nat (List.length passes) = (brightness_retry cfg - attempt)%Z /\
      tail = [MsgStillDark (brightness_retry cfg) (too_dark_of min_b captured')])).
Proof.
  induction fuel as [|fuel IH]; intros attempt captured w Hmin Hwait Hle Hfuel.
  { lia. }
  simpl. rewrite Hmin.
  destruct (attempt <=? brightness_retry cfg)%Z eqn:Hc; [|apply Z.leb_gt in Hc; lia].
  destruct (too_dark_of min_b captured) as [|d ds] eqn:Hdark; simpl.
  { exists captured, w, [], []. simpl. rewrite app_nil_r.
    repeat split; auto. lia. }
  destruct (attempt + 1 >? brightness_retry cfg)%Z eqn:Hgt.
  { exists captured, (emit (MsgStillDark (brightness_retry cfg) (d :: ds)) w), [],
      [MsgStillDark (brightness_retry cfg) (d :: ds)].
    rewrite Hdark. simpl. repeat split; auto; try lia.
    right. repeat split; auto; [discriminate|]. apply Z.gtb_lt in Hgt. lia. }
  assert (Hlt : (attempt + 1 <= brightness_retry cfg)%Z).
  { destruct (Z.gtb_spec (attempt + 1) (brightness_retry cfg)); [discriminate|lia]. }
  assert (Hw0 : Qltb (brightness_wait cfg) 0 = false) by (now apply Qltb_ge).
  rewrite Hw0.
  match goal with
  | |- context [refresh ?n ?c ?w0] =>
      destruct (refresh_pops n c w0) as (pops & Ep & Fp);
      destruct (refresh n c w0) as [captured1 w3]
  end.
  simpl in Ep.
  destruct (IH (attempt + 1)%Z captured1 w3 Hmin Hwait Hlt)
    as (captured' & w' & passes & tail & Eloop & Etr & Fpass & Hlen & Hfin).
  { lia. }
  exists captured', w',
    ((MsgDarkRetry (d :: ds) (brightness_wait cfg) (attempt + 1)
                   (brightness_retry cfg)
      :: Sleep (brightness_wait cfg) :: pops) :: passes), tail.
  split; [exact Eloop|]. split.
  { rewrite Etr, Ep. simpl. rewrite <- !app_assoc. reflexivity. }
  split.
  { constructor; auto. exists (d :: ds), (attempt + 1)%Z, pops.
    repeat split; auto. discriminate. }
  split.
  { simpl List.length. lia. }
  destruct Hfin as [Hok | (Hd & Hn & Ht)]; [now left|].
  right. repeat split; auto. simpl List.length. lia.
Qed.

Lemma sharpness_loop_total cfg min_s fuel : forall attempts captured w,
  (Z.to_nat (3 - attempts) <= fuel)%nat ->
  exists r, sharpness_loop cfg min_s fuel attempts captured w = Ok r.
Proof.
  induction fuel as [|fuel IH]; intros attempts captured w Hfuel; simpl.
  - destruct (attempts <? 3)%Z eqn:E; [apply Z.ltb_lt in E; lia|eauto].
  - destruct (attempts <? 3)%Z eqn:E; [|eauto].
    destruct (nonempty _); [|eauto].
    destruct (Qltb _ _); [|eauto].
    match goal with
    | |- context [refresh ?n ?c ?w0] => destruct (refresh n c w0) as [captured1 w3]
    end.
    apply IH. apply Z.ltb_lt in E. lia.
Qed.

Lemma sharpness_check_total cfg fuel captured w :
  (3 <= fuel)%nat -> exists r, sharpness_check cfg fuel captured w = Ok r.
Proof.
  intros Hfuel. unfold sharpness_check. destruct (min_sharpness cfg); [|eauto].
  apply sharpness_loop_total. simpl. lia.
Qed.

(** C4. With [min_brightness] set (and a retry count and a wait that are
    not negative), the brightness loop always returns; it makes at most
    [brightness_retry] retry passes, each one the notice, a sleep of
    [brightness_wait] seconds and then the re-poll; it ends either with no
    dark frame left, or with all retries used and the report of line 279
    listing each dark camera with the mean measured.  Whatever the
    brightness, the capture then goes on: once no camera is lacking, the
    batch is counted and a file is written for every held camera. *)
Theorem brightness_retry_bounded_then_accepted :
  forall cfg fuel st frames w min_b,
    min_brightness cfg = Some min_b ->
    (0 <= brightness_retry cfg)%Z ->
    (0 <= brightness_wait cfg)%Q ->
    (Z.to_nat (brightness_retry cfg) < fuel)%nat ->
    (3 <= fuel)%nat ->
    (exists captured w' passes tail,
        brightness_loop cfg fuel 0 frames w = Ok (captured, w') /\
        events_since w w' = List.concat passes ++ tail /\
        Forall (retry_pass cfg) passes /\
        (Z.of_nat (List.length passes) <= brightness_retry cfg)%Z /\
        ((too_dark_of min_b captured = [] /\ tail = []) \/
         (too_dark_of min_b captured <> [] /\
          Z.of_nat (List.length passes) = brightness_retry cfg /\
          tail = [MsgStillDark (brightness_retry cfg)
                               (too_dark_of min_b captured)]))) /\
    (lacking_of cfg st w = [] ->
     exists st' w'',
       (capture_batch cfg fuel st frames w = Continue st' w'' \/
        capture_batch cfg fuel st frames w = Break st' w'') /\
       capture_count st' = (capture_count st + 1)%Z /\
       forall c, dict_mem c frames = true ->
                 dict_mem c (writes (events_since w w'')) = true).
Proof.
  intros cfg fuel st frames w min_b Hmin Hretry Hwait Hfuel H3.
  destruct (brightness_loop_passes cfg min_b fuel 0 frames w Hmin Hwait Hretry)
    as (captured & w1 & passes & tail & Eloop & Etr & Fpass & Hlen & Hfin).
  { now rewrite Z.sub_0_r. }
  rewrite Z.sub_0_r in Hlen, Hfin.
  split.
  { exists captured, w1, passes, tail. repeat split; auto.
    now apply events_since_app. }
  intros Hl.
  destruct (sharpness_check_total cfg fuel captured w1 H3) as ([captured2 w2] & Es).
  assert (Hw : exists w'', world_of (capture_batch cfg fuel st frames w) = Some w'' /\
                           capture_batch cfg fuel st frames w <> Raised w'').
  { unfold capture_batch. rewrite Hl, Eloop, Es. simpl.
    destruct (one_shot cfg); eexists; split; simpl; eauto; discriminate. }
  destruct Hw as (w'' & Hw & Hnr).
  destruct (capture_batch_spec cfg fuel st frames w _ w'' eq_refl Hw)
    as (_ & new & E & [(Hne & _) | [(_ & Hr & _) | (_ & Ho & gate & cap & Fg & Kc & ->)]]).
  - contradiction.
  - contradiction.
  - exists (count_capture st), w''. split; auto. split; [reflexivity|].
    intros c Hc. rewrite (events_since_app _ _ _ E), writes_batch_events; auto.
Qed.

Lemma brightness_retry_bounded_then_accepted_witness :
  exists captured w',
    brightness_loop gated_cfg 3 0 dark_frames dark_world = Ok (captured, w') /\
    too_dark_of 40 captured <> [] /\
    exists passes,
      events_since dark_world w'
      = List.concat passes ++ [MsgStillDark 2 (too_dark_of 40 captured)] /\
      List.length passes = 2%nat.
Proof.
  destruct (brightness_retry_bounded_then_accepted gated_cfg 3 a_ready_state
              dark_frames dark_world 40 eq_refl)
    as ((captured & w' & passes & tail & Eloop & Ev & _ & _ & Hfin) & _).
  - simpl. lia.
  - simpl. unfold Qle. simpl. lia.
  - simpl. lia.
  - lia.
  - exists captured, w'. split; [exact Eloop|].
    assert (Hdark : too_dark_of 40 captured <> []).
    { vm_compute in Eloop. injection Eloop as <- _. discriminate. }
    split; [exact Hdark|].
    destruct Hfin as [(Hnone & _) | (_ & Hlen & ->)]; [contradiction|].
    exists passes. split; [exact Ev|]. simpl in Hlen. lia.
Defined.

(** ** The warm-up invariant *)

Lemma later_refl w : later w w.
Proof. split; auto. Qed.

Lemma later_trans w1 w2 w3 : later w1 w2 -> later w2 w3 -> later w1 w3.
Proof.
  intros (C1 & P1) (C2 & P2). split; [congruence|].
  intros c. specialize (P1 c). specialize (P2 c). lia.
Qed.

Lemma later_queues w w' : w_queues w' = w_queues w -> later w w'.
Proof. intros E. unfold later, cams, popped. rewrite E. auto. Qed.

Lemma time_time_queues w : w_queues (snd (time_time w)) = w_queues w.
Proof. unfold time_time. destruct (w_lag w); reflexivity. Qed.

Lemma wait_key_queues w : w_queues (snd (wait_key w)) = w_queues w.
Proof. unfold wait_key. destruct (w_keys w); reflexivity. Qed.

Lemma queue_poll_later name w f w' :
  queue_poll name w = Some (f, w') -> later w w'.
Proof.
  intros H. apply queue_poll_spec in H.
  destruct H as (_ & Hs & Ho & Hc & _). split; auto.
  intros c. destruct (string_dec c name) as [->|Hne].
  - rewrite Hs. lia.
  - rewrite Ho; auto.
Qed.

Lemma counted_later cfg base st w w' :
  counted cfg base st w -> later w w' -> counted cfg base st w'.
Proof.
  intros H (_ & P) c. destruct (H c) as (H1 & H2). specialize (P c).
  split; [lia|]. intros Hc. specialize (H2 Hc). lia.
Qed.

Lemma ready_later cfg base names w w' :
  ready cfg base names w -> later w w' -> ready cfg base names w'.
Proof.
  intros H (_ & P) c Hin. specialize (H c Hin). specialize (P c). lia.
Qed.

Lemma frames_ok_set cfg base name f frames :
  past_warmup cfg base name f -> frames_ok cfg base frames ->
  frames_ok cfg base (dict_set name f frames).
Proof.
  intros Hf Hok c f0 Hin. apply dict_set_In in Hin.
  destruct Hin as [E|Hin]; [injection E as -> ->; auto|eauto].
Qed.

Lemma poll_pass_warm cfg base names : forall st frames acq w st' frames' acq' w',
  counted cfg base st w -> frames_ok cfg base frames ->
  poll_pass cfg names st frames acq w = (st', frames', acq', w') ->
  counted cfg base st' w' /\ frames_ok cfg base frames' /\ later w w'.
Proof.
  induction names as [|name rest IH];
    intros st frames acq w st' frames' acq' w' Hcnt Hok H; simpl in H.
  - injection H as <- <- <- <-. auto using later_refl.
  - destruct (dict_mem name frames); [eauto|].
    destruct (queue_poll name w) as [[f w1]|] eqn:Hpoll; [|eauto].
    pose proof (queue_poll_later _ _ _ _ Hpoll) as Hl.
    pose proof (queue_poll_spec _ _ _ _ Hpoll) as (Hseq & Hs & Ho & _).
    destruct (warmup_counter st name <? warmup_frames cfg)%Z eqn:Hwarm.
    + apply IH in H; auto.
      * destruct H as (H1 & H2 & H3). eauto using later_trans.
      * intros c. destruct (Hcnt c) as (C1 & C2). simpl.
        destruct (string_dec c name) as [->|Hne].
        -- rewrite bump_same, Hs. split; [lia|]. intros Hc.
           specialize (C2 Hc). lia.
        -- rewrite bump_other, Ho by assumption. auto.
    + apply Z.ltb_ge in Hwarm.
      destruct (Hcnt name) as (N1 & N2).
      apply IH in H.
      * destruct H as (H1 & H2 & H3). split; [exact H1|]. split; [exact H2|].
        eapply later_trans; [exact Hl|]. eapply later_trans; [|exact H3].
        destruct (headless cfg); [apply later_refl|now apply later_queues].
      * assert (Hc1 : counted cfg base (bump_frames name st) w1).
        { intros c. destruct (Hcnt c) as (C1 & C2). simpl.
          destruct (string_dec c name) as [->|Hne].
          - rewrite Hs. split; lia.
          - rewrite bump_other, Ho by assumption. auto. }
        destruct (headless cfg); exact Hc1.
      * apply frames_ok_set; auto. unfold past_warmup. rewrite Hseq. lia.
Qed.

Lemma collect_frames_warm cfg base start fuel : forall st frames w,
  counted cfg base st w -> frames_ok cfg base frames ->
  match collect_frames cfg fuel start st frames w with
  | Collected st' frames' w' =>
      counted cfg base st' w' /\ frames_ok cfg base frames' /\ later w w'
  | _ => True
  end.
Proof.
  induction fuel as [|fuel IH]; intros st frames w Hcnt Hok; simpl; auto.
  destruct (poll_pass cfg (cams w) st frames false w)
    as [[[st1 frames1] acq] w1] eqn:Hpass.
  apply (poll_pass_warm cfg base) in Hpass; auto.
  destruct Hpass as (Hc1 & Hok1 & Hl1).
  destruct (wait_all cfg); simpl; auto.
  pose proof (time_time_queues w1) as Hq2.
  destruct (time_time w1) as [now w2]. simpl in Hq2.
  apply later_queues in Hq2.
  assert (Hl2 : later w w2) by eauto using later_trans.
  assert (Hc2 : counted cfg base st1 w2) by eauto using counted_later.
  destruct (_ || _); simpl.
  { split; [|split; [exact Hok1|]]; destruct (_ && _); auto. }
  set (w3 := if acq then w2 else time_sleep (5 # 1000) w2).
  assert (Hq3 : later w2 w3).
  { subst w3. destruct acq; [apply later_refl|now apply later_queues]. }
  assert (Hl3 : later w w3) by eauto using later_trans.
  assert (Hc3 : counted cfg base st1 w3) by eauto using counted_later.
  destruct (headless cfg).
  - specialize (IH st1 frames1 w3 Hc3 Hok1).
    destruct (collect_frames cfg fuel start st1 frames1 w3); auto.
    destruct IH as (I1 & I2 & I3). eauto using later_trans.
  - pose proof (wait_key_queues w3) as Hq4.
    destruct (wait_key w3) as [key w4]. simpl in Hq4.
    apply later_queues in Hq4.
    destruct (is_quit_key key); auto.
    assert (Hc4 : counted cfg base st1 w4) by eauto using counted_later.
    specialize (IH st1 frames1 w4 Hc4 Hok1).
    destruct (collect_frames cfg fuel start st1 frames1 w4); auto.
    destruct IH as (I1 & I2 & I3). eauto 6 using later_trans.
Qed.

Lemma refresh_warm cfg base names : forall captured w,
  ready cfg base names w -> frames_ok cfg base captured ->
  kept_warm cfg base w (refresh names captured w).
Proof.
  induction names as [|sock rest IH]; intros captured w Hr Hok; simpl.
  - split; auto using later_refl.
  - assert (Hrest : ready cfg base rest w).
    { intros c Hin. apply Hr. now right. }
    destruct (queue_poll sock w) as [[f w1]|] eqn:Hpoll; [|auto].
    pose proof (queue_poll_later _ _ _ _ Hpoll) as Hl.
    pose proof (queue_poll_spec _ _ _ _ Hpoll) as (Hseq & _).
    destruct (IH (dict_set sock f captured) w1) as (I1 & I2).
    + eapply ready_later; eauto.
    + apply frames_ok_set; auto. unfold past_warmup. rewrite Hseq.
      specialize (Hr sock (or_introl eq_refl)). lia.
    + split; auto. eapply later_trans; eauto.
Qed.

Lemma kept_warm_step cfg base w w1 r :
  later w w1 -> kept_warm cfg base w1 r -> kept_warm cfg base w r.
Proof. intros Hl (H1 & H2). split; auto. eapply later_trans; eauto. Qed.

Lemma brightness_loop_warm cfg base fuel : forall attempt captured w,
  ready cfg base (cams w) w -> frames_ok cfg base captured ->
  res_sat (kept_warm cfg base w) (fun _ => True)
          (brightness_loop cfg fuel attempt captured w).
Proof.
  induction fuel as [|fuel IH]; intros attempt captured w Hr Hok; simpl.
  - destruct (min_brightness cfg); [destruct (_ <=? _)%Z|]; simpl; auto;
      split; auto using later_refl.
  - destruct (min_brightness cfg) as [min_b|]; [|split; auto using later_refl].
    destruct (_ <=? _)%Z; [|split; auto using later_refl].
    destruct (nonempty _); simpl; [|split; auto using later_refl].
    destruct (_ >? _)%Z; simpl.
    { split; simpl; auto. now apply later_queues. }
    destruct (Qltb (brightness_wait cfg) 0); simpl; auto.
    match goal with
    | |- context [refresh ?n ?c ?w0] =>
        pose proof (refresh_warm cfg base n c w0 Hr Hok) as Hw;
        destruct (refresh n c w0) as [captured1 w3]
    end.
    destruct Hw as (W1 & W2). simpl in W1, W2.
    specialize (IH (attempt + 1)%Z captured1 w3).
    destruct (brightness_loop cfg fuel (attempt + 1) captured1 w3) as [r|wx|];
      simpl in *; auto.
    eapply kept_warm_step; [exact W2|]. apply IH; auto.
    rewrite (proj1 W2). eapply ready_later; [exact Hr|exact W2].
Qed.

Lemma sharpness_loop_warm cfg base min_s fuel : forall attempts captured w,
  ready cfg base (cams w) w -> frames_ok cfg base captured ->
  res_sat (kept_warm cfg base w) (fun _ => True)
          (sharpness_loop cfg min_s fuel attempts captured w).
Proof.
  induction fuel as [|fuel IH]; intros attempts captured w Hr Hok; simpl.
  - destruct (_ <? _)%Z; simpl; auto. split; auto using later_refl.
  - destruct (_ <? _)%Z; [|split; auto using later_refl].
    destruct (nonempty _); [|split; auto using later_refl].
    destruct (Qltb _ _).
    2:{ split; simpl; auto. now apply later_queues. }
    match goal with
    | |- context [refresh ?n ?c ?w0] =>
        pose proof (refresh_warm cfg base n c w0 Hr Hok) as Hw;
        destruct (refresh n c w0) as [captured1 w3]
    end.
    destruct Hw as (W1 & W2). simpl in W1, W2.
    specialize (IH (attempts + 1)%Z captured1 w3).
    destruct (sharpness_loop cfg min_s fuel (attempts + 1) captured1 w3) as [r|wx|];
      simpl in *; auto.
    eapply kept_warm_step; [exact W2|]. apply IH; auto.
    rewrite (proj1 W2). eapply ready_later; [exact Hr|exact W2].
Qed.

Lemma sharpness_check_warm cfg base fuel captured w :
  ready cfg base (cams w) w -> frames_ok cfg base captured ->
  res_sat (kept_warm cfg base w) (fun _ => True)
          (sharpness_check cfg fuel captured w).
Proof.
  intros Hr Hok. unfold sharpness_check. destruct (min_sharpness cfg).
  - now apply sharpness_loop_warm.
  - split; auto using later_refl.
Qed.

Lemma gate_write_ok cfg base e : gate_event e -> write_ok cfg base e.
Proof. destruct e; simpl; auto. contradiction. Qed.

Lemma quiet_write_ok cfg base e : quiet_event e -> write_ok cfg base e.
Proof. destruct e; simpl; auto. contradiction. Qed.

Lemma counted_ready cfg base st w :
  (1 <= min_frames_each cfg)%Z ->
  counted cfg base st w -> lacking_of cfg st w = [] ->
  ready cfg base (cams w) w.
Proof.
  intros Hmin Hcnt Hl c Hin. rewrite lacking_of_nil in Hl.
  specialize (Hl c Hin). destruct (Hcnt c) as (_ & H2). apply H2. lia.
Qed.

Lemma batch_write_ok cfg base captured :
  frames_ok cfg base captured ->
  Forall (write_ok cfg base) (map (fun sf => ImWrite (fst sf) (snd sf)) captured).
Proof.
  intros Hok. apply Forall_forall. intros e Hin.
  apply in_map_iff in Hin. destruct Hin as ([c f] & <- & Hin). simpl. auto.
Qed.

(** A capture attempt writes only frames past warm-up, provided at least
    one frame is required of each camera. *)
Lemma capture_batch_warm cfg base fuel st frames w o w' :
  (1 <= min_frames_each cfg)%Z ->
  counted cfg base st w -> frames_ok cfg base frames ->
  capture_batch cfg fuel st frames w = o -> world_of o = Some w' ->
  trace_ext (write_ok cfg base) w w' /\
  forall st', state_of o = Some st' -> counted cfg base st' w'.
Proof.
  intros Hmin Hcnt Hok H Hw. unfold capture_batch in H.
  destruct (nonempty (lacking_of cfg st w)) eqn:Hl.
  { subst o. injection Hw as <-. split.
    - apply trace_ext_emit. exact I.
    - intros st' E. injection E as <-. exact Hcnt. }
  apply nonempty_false in Hl.
  pose proof (counted_ready cfg base st w Hmin Hcnt Hl) as Hr.
  pose proof (brightness_loop_gated cfg fuel 0 frames w) as Hb.
  pose proof (brightness_loop_warm cfg base fuel 0 frames w Hr Hok) as Hbw.
  destruct (brightness_loop cfg fuel 0 frames w) as [[captured1 w1]|wx|];
    simpl in Hb, Hbw.
  - destruct Hb as ((C1 & T1) & _). destruct Hbw as (Ok1 & L1). simpl in *.
    assert (Hr1 : ready cfg base (cams w1) w1).
    { rewrite C1. eapply ready_later; eauto. }
    pose proof (sharpness_check_gated cfg fuel captured1 w1) as Hs.
    pose proof (sharpness_check_warm cfg base fuel captured1 w1 Hr1 Ok1) as Hsw.
    destruct (sharpness_check cfg fuel captured1 w1) as [[captured2 w2]|wx|];
      simpl in Hs, Hsw.
    + destruct Hs as ((C2 & T2) & _). destruct Hsw as (Ok2 & L2). simpl in *.
      set (w4 := write_batch captured2 (emit (MsgSaving (capture_count st + 1)) w2)) in *.
      assert (T4 : trace_ext (write_ok cfg base) w w4).
      { eapply trace_ext_trans;
          [eapply trace_ext_weaken; [apply gate_write_ok|exact T1]|].
        eapply trace_ext_trans;
          [eapply trace_ext_weaken; [apply gate_write_ok|exact T2]|].
        eexists. split.
        - subst w4. rewrite write_batch_trace. simpl.
          rewrite <- app_assoc. reflexivity.
        - constructor; [exact I|]. now apply batch_write_ok. }
      assert (C4 : counted cfg base (count_capture st) w4).
      { assert (L4 : later w w4).
        { eapply later_trans; [exact L1|]. eapply later_trans; [exact L2|].
          apply later_queues. subst w4. now rewrite write_batch_queues. }
        intros c. destruct (counted_later cfg base st w w4 Hcnt L4 c). auto. }
      destruct (one_shot cfg); subst o; injection Hw as <-.
      * split.
        -- eapply trace_ext_trans; [exact T4|]. apply trace_ext_emit. exact I.
        -- intros st' E. injection E as <-. exact C4.
      * split; auto. intros st' E. injection E as <-. exact C4.
    + subst o. injection Hw as <-. destruct Hs as (_ & T2). split.
      * eapply trace_ext_trans;
          [eapply trace_ext_weaken; [apply gate_write_ok|exact T1]
          |eapply trace_ext_weaken; [apply gate_write_ok|exact T2]].
      * intros st' E. discriminate.
    + subst o. discriminate.
  - subst o. injection Hw as <-. destruct Hb as (_ & T1). split.
    + eapply trace_ext_weaken; [apply gate_write_ok|exact T1].
    + intros st' E. discriminate.
  - subst o. discriminate.
Qed.

Lemma evaluate_warm cfg base fuel st frames w o w' :
  (1 <= min_frames_each cfg)%Z ->
  counted cfg base st w -> frames_ok cfg base frames ->
  evaluate cfg fuel st frames w = o -> world_of o = Some w' ->
  trace_ext (write_ok cfg base) w w' /\
  forall st', state_of o = Some st' -> counted cfg base st' w'.
Proof.
  intros Hmin Hcnt Hok H Hw.
  destruct (evaluate_cases cfg fuel st frames w)
    as (st1 & w2 & Hp & Hwc & _ & _ & Hq & T2 & Hcase).
  assert (Hc2 : counted cfg base st1 w2).
  { intros c. unfold popped. rewrite Hq, Hp, Hwc. apply Hcnt. }
  assert (T2' : trace_ext (write_ok cfg base) w w2).
  { eapply trace_ext_weaken; [apply quiet_write_ok|exact T2]. }
  destruct Hcase as [He | [He | (_ & He)]]; rewrite He in H.
  - subst o. injection Hw as <-. split; auto.
    intros st' E. injection E as <-. exact Hc2.
  - subst o. injection Hw as <-. split.
    + eapply trace_ext_trans; [exact T2'|]. apply trace_ext_emit. exact I.
    + intros st' E. injection E as <-. exact Hc2.
  - destruct (capture_batch_warm cfg base fuel st1 frames w2 o w' Hmin Hc2 Hok H Hw)
      as (T3 & C3).
    split; auto. eapply trace_ext_trans; eauto.
Qed.

Lemma cycle_warm cfg base fuel st w o w' :
  (1 <= min_frames_each cfg)%Z ->
  counted cfg base st w ->
  cycle cfg fuel st w = o -> world_of o = Some w' ->
  trace_ext (write_ok cfg base) w w' /\
  forall st', state_of o = Some st' -> counted cfg base st' w'.
Proof.
  intros Hmin Hcnt H Hw. unfold cycle in H.
  pose proof (time_time_trace w) as Ht0. pose proof (time_time_queues w) as Hq0.
  destruct (time_time w) as [start w0]. simpl in Ht0, Hq0.
  assert (Hc0 : counted cfg base st w0).
  { eapply counted_later; [exact Hcnt|]. now apply later_queues. }
  assert (T0 : trace_ext (write_ok cfg base) w w0).
  { exists []. now rewrite Ht0, app_nil_r. }
  pose proof (collect_frames_grows cfg start fuel st [] w0) as Hg.
  pose proof (collect_frames_warm cfg base start fuel st [] w0 Hc0) as Hcw.
  destruct (collect_frames cfg fuel start st [] w0) as [st1 frames w1|w1|];
    simpl in Hg.
  - destruct Hg as (_ & T1 & _).
    destruct Hcw as (Hc1 & Hok1 & _); [intros c f []|].
    destruct (evaluate_warm cfg base fuel st1 frames w1 o w' Hmin Hc1 Hok1 H Hw)
      as (T2 & C2).
    split; auto. eapply trace_ext_trans; [exact T0|].
    eapply trace_ext_trans; [|exact T2].
    eapply trace_ext_weaken; [apply quiet_write_ok|exact T1].
  - destruct Hg as (st1 & frames1 & wq & (_ & T1 & _) & ->).
    subst o. injection Hw as <-. split; [|intros st' E; discriminate].
    eapply trace_ext_trans; [exact T0|].
    eapply trace_ext_trans;
      [eapply trace_ext_weaken; [apply quiet_write_ok|exact T1]|].
    apply trace_ext_emit. exact I.
  - subst o. discriminate.
Qed.

Lemma main_loop_warm cfg base fuel n : forall st w o w',
  (1 <= min_frames_each cfg)%Z ->
  counted cfg base st w ->
  main_loop cfg fuel n st w = o -> world_of o = Some w' ->
  trace_ext (write_ok cfg base) w w'.
Proof.
  induction n as [|n IH]; intros st w o w' Hmin Hcnt H Hw; simpl in H.
  - subst o. injection Hw as <-. apply trace_ext_refl.
  - destruct (cycle cfg fuel st w) as [st1 w1|st1 w1|w1|w1|] eqn:Hcyc.
    + destruct (cycle_warm cfg base fuel st w _ w1 Hmin Hcnt Hcyc eq_refl)
        as (T1 & C1).
      eapply trace_ext_trans; [exact T1|].
      apply (IH st1 w1 o w' Hmin (C1 st1 eq_refl) H Hw).
    + subst o. injection Hw as <-.
      apply (cycle_warm cfg base fuel st w _ w1 Hmin Hcnt Hcyc eq_refl).
    + subst o. injection Hw as <-.
      apply (cycle_warm cfg base fuel st w _ w1 Hmin Hcnt Hcyc eq_refl).
    + subst o. injection Hw as <-.
      apply (cycle_warm cfg base fuel st w _ w1 Hmin Hcnt Hcyc eq_refl).
    + subst o. discriminate.
Qed.

(** The focus phase only pops: it leaves a later world and writes no file. *)

Lemma scan_event_focus name e : scan_event name e -> focus_event e.
Proof. destruct e; simpl; auto. Qed.

Lemma focus_write_ok cfg base e : focus_event e -> write_ok cfg base e.
Proof. destruct e; simpl; auto. contradiction. Qed.

Lemma set_focus_queues node name pos w w' :
  set_focus node name pos w = Some w' -> w_queues w' = w_queues w.
Proof.
  rewrite set_focus_spec. destruct (focus_method_of node).
  - destruct (focus_raises node pos); [discriminate|].
    intros H. now injection H as <-.
  - intros H. now injection H as <-.
Qed.

Lemma wait_frame_later name window w o w' :
  wait_frame name window w = (o, w') -> later w w'.
Proof.
  unfold wait_frame. pose proof (time_time_queues w) as Hq.
  destruct (time_time w) as [eval_start w1]. simpl in Hq.
  destruct (dict_get name (w_queues w1)) as [q|] eqn:Hget.
  - destruct (q_pending q) as [|[arrival img] rest].
    + intros H. injection H as <- <-. now apply later_queues.
    + destruct (Qltb arrival (eval_start + window)).
      * intros H. injection H as <- <-. rewrite Hq in *.
        assert (Hm : dict_mem name (w_queues w) = true).
        { unfold dict_mem. now rewrite Hget. }
        split.
        { unfold cams. simpl. now apply dict_keys_set_mem. }
        intros c. unfold popped at 2. simpl.
        destruct (String.eqb c name) eqn:E.
        -- apply String.eqb_eq in E. subst c. rewrite dict_get_set_same.
           unfold popped. rewrite Hget. simpl. lia.
        -- rewrite dict_get_set_other.
           ++ unfold popped. lia.
           ++ intros ->. now rewrite String.eqb_refl in E.
      * intros H. injection H as <- <-. now apply later_queues.
  - intros H. injection H as <- <-. now apply later_queues.
Qed.

Lemma scan_positions_later node name positions : forall bv bp w bv' bp' w',
  scan_positions node name positions bv bp w = (bv', bp', w') -> later w w'.
Proof.
  induction positions as [|pos rest IH]; intros bv bp w bv' bp' w' H; simpl in H.
  - injection H as <- <- <-. apply later_refl.
  - destruct (set_focus node name pos w) as [w1|] eqn:Hset.
    + apply set_focus_queues in Hset.
      destruct (wait_frame name (1 # 2) (time_sleep (15 # 100) w1))
        as [[frame_eval|] w3] eqn:Hwait; apply wait_frame_later in Hwait.
      * assert (L3 : later w (emit (MsgPos pos (laplacian_var (f_img frame_eval))) w3)).
        { eapply later_trans; [apply later_queues; exact Hset|].
          eapply later_trans; [|apply later_queues; reflexivity].
          exact Hwait. }
        destruct (Qltb bv _); apply IH in H; eapply later_trans; eauto.
      * apply IH in H. eapply later_trans; [apply later_queues; exact Hset|].
        eapply later_trans; [exact Hwait|exact H].
    + apply IH in H. eapply later_trans; [|exact H]. now apply later_queues.
Qed.

Lemma drain_later rounds name t0 : forall w, later w (drain rounds name t0 w).
Proof.
  induction rounds as [|rounds IH]; intros w; simpl.
  - apply later_refl.
  - pose proof (time_time_queues w) as Hq.
    destruct (time_time w) as [now w1]. simpl in Hq. apply later_queues in Hq.
    destruct (Qltb (now - t0) 1); auto.
    destruct (queue_poll name w1) as [[f w2]|] eqn:Hpoll; auto.
    apply queue_poll_later in Hpoll.
    eapply later_trans; [exact Hq|]. eapply later_trans; [exact Hpoll|apply IH].
Qed.

Lemma focus_scan_cam_later node name positions w :
  later w (focus_scan_cam node name positions w).
Proof.
  unfold focus_scan_cam.
  pose proof (time_time_queues (emit (MsgScanning name) w)) as Hq.
  destruct (time_time (emit (MsgScanning name) w)) as [t0 w1]. simpl in Hq.
  apply later_queues in Hq.
  pose proof (drain_later (S (pending_count name w1)) name t0 w1) as Hd.
  set (w2 := drain (S (pending_count name w1)) name t0 w1) in *.
  destruct (scan_positions node name positions (-1) None w2)
    as [[bv bp] w3] eqn:Hscan.
  apply scan_positions_later in Hscan.
  assert (L3 : later w w3) by (eapply later_trans; eauto using later_trans).
  destruct bp as [pos|].
  - destruct (set_focus node name pos (emit (MsgBestFocus name pos bv) w3))
      as [w5|] eqn:Hset.
    + apply set_focus_queues in Hset.
      eapply later_trans; [exact L3|]. now apply later_queues.
    + eapply later_trans; [exact L3|]. now apply later_queues.
  - eapply later_trans; [exact L3|]. now apply later_queues.
Qed.

Lemma focus_scan_phase_later cfg cam_nodes w :
  later w (focus_scan_phase cfg cam_nodes w) /\
  trace_ext focus_event w (focus_scan_phase cfg cam_nodes w).
Proof.
  unfold focus_scan_phase. destruct (focus_scan cfg);
    [|split; [apply later_refl|apply trace_ext_refl]].
  generalize (effective_positions cfg) as positions.
  generalize (target_cams cfg cam_nodes) as targets.
  intros targets positions. revert w.
  induction targets as [|c rest IH]; intros w; simpl.
  - split; [apply later_refl|apply trace_ext_refl].
  - destruct (dict_get c cam_nodes) as [node|].
    + destruct (supported node); simpl.
      * destruct (IH (focus_scan_cam node c positions w)) as (L & T). split.
        -- eapply later_trans; [apply focus_scan_cam_later|exact L].
        -- eapply trace_ext_trans; [|exact T].
           eapply trace_ext_weaken; [apply scan_event_focus|].
           apply focus_scan_cam_ext.
      * destruct (IH (emit (MsgNoFocusApi c) w)) as (L & T). split.
        -- eapply later_trans; [|exact L]. now apply later_queues.
        -- eapply trace_ext_trans; [|exact T]. apply trace_ext_emit. exact I.
    + destruct (IH (emit (MsgCamNotFound c) w)) as (L & T). split.
      * eapply later_trans; [|exact L]. now apply later_queues.
      * eapply trace_ext_trans; [|exact T]. apply trace_ext_emit. exact I.
Qed.

(** ** The wait-all barrier *)

Lemma time_time_now w : w_time (snd (time_time w)) = fst (time_time w).
Proof. unfold time_time. destruct (w_lag w); reflexivity. Qed.

Lemma time_time_ge w : lag_ok w -> (w_time w <= fst (time_time w))%Q.
Proof.
  unfold lag_ok, time_time. destruct (w_lag w) as [|d rest]; simpl.
  - intros _. apply Qle_refl.
  - intros H. inversion H; subst. lra.
Qed.

Lemma time_time_lag_ok w : lag_ok w -> lag_ok (snd (time_time w)).
Proof.
  unfold lag_ok, time_time. destruct (w_lag w) as [|d rest] eqn:E; simpl.
  - now rewrite E.
  - intros H. inversion H; subst; assumption.
Qed.

Lemma wait_key_clock w :
  w_time (snd (wait_key w)) = w_time w /\ w_lag (snd (wait_key w)) = w_lag w.
Proof. unfold wait_key. destruct (w_keys w); auto. Qed.

Lemma poll_pass_clock cfg names : forall st frames acq w st' frames' acq' w',
  poll_pass cfg names st frames acq w = (st', frames', acq', w') ->
  w_time w' = w_time w /\ w_lag w' = w_lag w.
Proof.
  induction names as [|name rest IH]; intros st frames acq w st' frames' acq' w' H;
    simpl in H.
  - injection H as <- <- <- <-. auto.
  - destruct (dict_mem name frames); [eauto|].
    destruct (queue_poll name w) as [[f w1]|] eqn:Hpoll; [|eauto].
    pose proof (queue_poll_spec _ _ _ _ Hpoll) as (_ & _ & _ & _ & Ht & Hl & _).
    destruct (_ <? _)%Z; apply IH in H; destruct H as (H1 & H2).
    + split; congruence.
    + destruct (headless cfg); simpl in *; split; congruence.
Qed.

(** What a pass adds to the held frames: nothing is dropped, the keys stay
    distinct and among the cameras polled, and a pass that acquired
    something holds a camera it did not hold before. *)
Lemma poll_pass_keys cfg names : forall st frames acq w st' frames' acq' w',
  poll_pass cfg names st frames acq w = (st', frames', acq', w') ->
  (forall c, dict_mem c frames = true -> dict_mem c frames' = true) /\
  (NoDup (dict_keys frames) -> NoDup (dict_keys frames')) /\
  (forall cs, incl (dict_keys frames) cs -> incl names cs ->
              incl (dict_keys frames') cs) /\
  (acq' = true ->
   acq = true \/
   exists name, In name names /\ dict_mem name frames = false /\
                dict_mem name frames' = true).
Proof.
  induction names as [|name rest IH]; intros st frames acq w st' frames' acq' w' H;
    simpl in H.
  - injection H as <- <- <- <-. repeat split; auto.
  - assert (Hrest : forall st0 acq0 w0,
               poll_pass cfg rest st0 frames acq0 w0 = (st', frames', acq', w') ->
               acq0 = acq ->
               (forall c, dict_mem c frames = true -> dict_mem c frames' = true) /\
               (NoDup (dict_keys frames) -> NoDup (dict_keys frames')) /\
               (forall cs, incl (dict_keys frames) cs -> incl (name :: rest) cs ->
                           incl (dict_keys frames') cs) /\
               (acq' = true ->
                acq = true \/
                exists name0, In name0 (name :: rest) /\ dict_mem name0 frames = false /\
                              dict_mem name0 frames' = true)).
    { intros st0 acq0 w0 H0 ->. apply IH in H0.
      destruct H0 as (K & N & I & A). repeat split; auto.
      - intros cs Hi Hn. apply I; auto. intros x Hx. apply Hn. now right.
      - intros Ha. destruct (A Ha) as [|(n0 & Hin & Hf & Ht)]; auto.
        right. exists n0. repeat split; auto. now right. }
    destruct (dict_mem name frames) eqn:Hmem; [eapply Hrest; eauto|].
    destruct (queue_poll name w) as [[f w1]|] eqn:Hpoll; [|eapply Hrest; eauto].
    destruct (_ <? _)%Z; [eapply Hrest; eauto|].
    apply IH in H. destruct H as (K & N & I & A).
    assert (Hnew : dict_mem name frames' = true).
    { apply K. rewrite dict_mem_set, String.eqb_refl. reflexivity. }
    repeat split.
    + intros c Hc. apply K. rewrite dict_mem_set, Hc. apply orb_true_r.
    + intros Hnd. apply N. rewrite dict_keys_set_new by assumption.
      apply NoDup_app; auto.
      * repeat constructor. intros [].
      * intros x Hx [<-|[]]. apply dict_mem_keys in Hx. congruence.
    + intros cs Hi Hn. apply I.
      * rewrite dict_keys_set_new by assumption.
        apply incl_app; auto. intros x [<-|[]]. apply Hn. now left.
      * intros x Hx. apply Hn. now right.
    + intros _. right. exists name. repeat split; auto. now left.
Qed.

Lemma missing_le frames frames' names :
  (forall c, dict_mem c frames = true -> dict_mem c frames' = true) ->
  (List.length (missing frames' names) <= List.length (missing frames names))%nat.
Proof.
  intros K. unfold missing. induction names as [|c rest IH]; simpl; auto.
  destruct (dict_mem c frames) eqn:E.
  - rewrite (K c E). simpl. exact IH.
  - simpl. destruct (dict_mem c frames'); simpl; lia.
Qed.

Lemma missing_lt frames frames' names name :
  (forall c, dict_mem c frames = true -> dict_mem c frames' = true) ->
  In name names -> dict_mem name frames = false -> dict_mem name frames' = true ->
  (List.length (missing frames' names) < List.length (missing frames names))%nat.
Proof.
  intros K Hin Hf Ht. unfold missing.
  induction names as [|c rest IH]; simpl; [contradiction|].
  destruct Hin as [->|Hin].
  - rewrite Hf, Ht. simpl.
    pose proof (missing_le frames frames' rest K) as Hle. unfold missing in Hle. lia.
  - specialize (IH Hin). destruct (dict_mem c frames) eqn:E.
    + rewrite (K c E). simpl. exact IH.
    + simpl. destruct (dict_mem c frames'); simpl; lia.
Qed.

(** The wait loop ends within [k + m + 1] passes when [k] idle sleeps of
    5 ms cover what is left of the timeout and at most [m] cameras are
    missing. *)
Lemma collect_frames_ends cfg start fuel : forall (k m : nat) st frames w,
  wait_all cfg = true ->
  lag_ok w ->
  (wait_timeout cfg - (w_time w - start)
   <= inject_Z (Z.of_nat k) * (5 # 1000))%Q ->
  (List.length (missing frames (cams w)) <= m)%nat ->
  (k + m < fuel)%nat ->
  collect_frames cfg fuel start st frames w <> CollectFuel.
Proof.
  induction fuel as [|fuel IH]; intros k m st frames w Hwa Hlag Hk Hm Hfuel.
  { lia. }
  simpl.
  destruct (poll_pass cfg (cams w) st frames false w)
    as [[[st1 frames1] acq] w1] eqn:Hpass.
  pose proof (poll_pass_clock _ _ _ _ _ _ _ _ _ _ Hpass) as (Ht1 & Hl1).
  pose proof (poll_pass_keys _ _ _ _ _ _ _ _ _ _ Hpass) as (K & _ & _ & A).
  pose proof (poll_pass_grows _ _ _ _ _ _ _ _ _ _ Hpass) as (C1 & _).
  rewrite Hwa. simpl.
  assert (Hlag1 : lag_ok w1) by (unfold lag_ok; now rewrite Hl1).
  pose proof (time_time_ge w1 Hlag1) as Hge.
  pose proof (time_time_lag_ok w1 Hlag1) as Hlag2.
  pose proof (time_time_now w1) as Hnow.
  pose proof (time_time_cams w1) as C2.
  destruct (time_time w1) as [now w2]. simpl in Hge, Hlag2, Hnow, C2.
  destruct (Qle_bool (wait_timeout cfg) (now - start)) eqn:Hto.
  { rewrite orb_true_r. discriminate. }
  rewrite orb_false_r.
  destruct (_ =? _)%nat; [discriminate|].
  assert (Hleft : (now - start < wait_timeout cfg)%Q).
  { apply Qnot_le_lt. intros Hle. apply Qle_bool_iff in Hle. congruence. }
  destruct k as [|k].
  { exfalso. simpl in Hk. change (inject_Z 0) with 0%Q in Hk.
    rewrite Ht1 in Hge. lra. }
  assert (Hk' : (wait_timeout cfg - (now + (5 # 1000) - start)
                 <= inject_Z (Z.of_nat k) * (5 # 1000))%Q).
  { rewrite Nat2Z.inj_succ in Hk. unfold Z.succ in Hk.
    rewrite inject_Z_plus in Hk. rewrite Ht1 in Hge.
    change (inject_Z 1) with 1%Q in Hk. lra. }
  assert (Hk0 : (wait_timeout cfg - (now - start)
                 <= inject_Z (Z.of_nat (S k)) * (5 # 1000))%Q).
  { rewrite Ht1 in Hge. lra. }
  set (w3 := if acq then w2 else time_sleep (5 # 1000) w2).
  assert (Hrec : forall w4, w_time w4 = w_time w3 -> w_lag w4 = w_lag w3 ->
                            cams w4 = cams w3 ->
                   collect_frames cfg fuel start st1 frames1 w4 <> CollectFuel).
  { intros w4 E4 L4 C4.
    assert (Hc4 : cams w4 = cams w).
    { rewrite C4. subst w3.
      destruct acq; [|change (cams w2 = cams w)]; congruence. }
    assert (Hlag4 : lag_ok w4).
    { unfold lag_ok. rewrite L4. subst w3. destruct acq; exact Hlag2. }
    destruct acq.
    - destruct (A eq_refl) as [Hf|(name & Hin & Hf & Ht)]; [discriminate|].
      pose proof (missing_lt frames frames1 (cams w) name K Hin Hf Ht) as Hlt.
      apply (IH (S k) (pred m)); auto.
      + rewrite E4. subst w3. simpl. rewrite Hnow. exact Hk0.
      + rewrite Hc4. lia.
      + lia.
    - pose proof (missing_le frames frames1 (cams w) K) as Hle.
      apply (IH k m); auto.
      + rewrite E4. subst w3. simpl. rewrite Hnow. exact Hk'.
      + rewrite Hc4. lia.
      + lia. }
  destruct (headless cfg); [apply Hrec; auto|].
  pose proof (wait_key_clock w3) as (E4 & L4).
  pose proof (wait_key_cams w3) as C4.
  destruct (wait_key w3) as [key w4]. simpl in E4, L4, C4.
  destruct (is_quit_key key); [discriminate|]. apply Hrec; auto.
Qed.

Lemma NoDup_same_length (l l' : list string) :
  NoDup l -> incl l l' -> List.length l = List.length l' -> incl l' l.
Proof.
  intros Hnd Hincl Hlen. apply NoDup_length_incl; auto. lia.
Qed.

(** How the wait loop ends when it ends by [break]: with a frame for every
    camera or with the timeout elapsed, and in one-shot mode with the
    warning when some camera is missing. *)
Lemma collect_frames_exit cfg start fuel : forall st frames w st' frames' w',
  wait_all cfg = true ->
  NoDup (dict_keys frames) -> incl (dict_keys frames) (cams w) ->
  collect_frames cfg fuel start st frames w = Collected st' frames' w' ->
  (holds_all frames' w \/ (wait_timeout cfg <= w_time w' - start)%Q) /\
  (one_shot cfg = true -> ~ holds_all frames' w ->
   exists before, w_trace w' = before ++ [MsgWaitTimeout (dict_keys frames')]).
Proof.
  induction fuel as [|fuel IH]; intros st frames w st' frames' w' Hwa Hnd Hin H;
    simpl in H.
  { discriminate. }
  destruct (poll_pass cfg (cams w) st frames false w)
    as [[[st1 frames1] acq] w1] eqn:Hpass.
  pose proof (poll_pass_keys _ _ _ _ _ _ _ _ _ _ Hpass) as (_ & N & I & _).
  pose proof (poll_pass_grows _ _ _ _ _ _ _ _ _ _ Hpass) as (C1 & _).
  specialize (N Hnd). specialize (I (cams w) Hin (incl_refl _)).
  rewrite Hwa in H. simpl in H.
  pose proof (time_time_now w1) as Hnow.
  pose proof (time_time_cams w1) as C2.
  destruct (time_time w1) as [now w2]. simpl in Hnow, C2.
  assert (Hall : List.length frames1 = List.length (w_queues w1) ->
                 holds_all frames1 w).
  { intros Hlen c Hc. apply dict_mem_keys.
    apply (NoDup_same_length (dict_keys frames1) (cams w)); auto.
    unfold dict_keys, cams, dict_keys in *. rewrite !length_map.
    rewrite Hlen.
    rewrite <- (length_map fst (w_queues w1)), <- (length_map fst (w_queues w)).
    now rewrite C1. }
  destruct ((List.length frames1 =? List.length (w_queues w1))%nat) eqn:Hlen.
  - apply Nat.eqb_eq in Hlen. simpl in H. rewrite andb_false_r in H. simpl in H.
    injection H as <- <- <-. split; [left; auto|].
    intros _ Hno. exfalso. auto.
  - simpl in H.
    destruct (Qle_bool (wait_timeout cfg) (now - start)) eqn:Hto; simpl in H.
    + apply Qle_bool_iff in Hto.
      destruct (one_shot cfg); injection H as <- <- <-; simpl; rewrite Hnow.
      * split; [now right|]. intros _ _. eexists. reflexivity.
      * split; [now right|]. intros E. discriminate.
    + set (w3 := if acq then w2 else time_sleep (5 # 1000) w2) in *.
      assert (C3 : cams w3 = cams w).
      { subst w3. destruct acq; [|change (cams w2 = cams w)]; congruence. }
      destruct (headless cfg).
      * destruct (IH st1 frames1 w3 st' frames' w' Hwa N) as (E1 & E2); auto.
        { now rewrite C3. }
        split.
        -- destruct E1 as [E1|E1]; auto. left. intros c Hc. apply E1.
           now rewrite C3.
        -- intros Hos Hno. apply E2; auto. intros Hh. apply Hno.
           intros c Hc. apply Hh. now rewrite C3.
      * pose proof (wait_key_cams w3) as C4.
        destruct (wait_key w3) as [key w4]. simpl in C4.
        destruct (is_quit_key key); [discriminate|].
        assert (C4' : cams w4 = cams w) by congruence.
        destruct (IH st1 frames1 w4 st' frames' w' Hwa N) as (E1 & E2); auto.
        { now rewrite C4'. }
        split.
        -- destruct E1 as [E1|E1]; auto. left. intros c Hc. apply E1.
           now rewrite C4'.
        -- intros Hos Hno. apply E2; auto. intros Hh. apply Hno.
           intros c Hc. apply Hh. now rewrite C4'.
Qed.

(** The test of line 220, [len(frames) == len(outputQueues)], says that a
    frame is held for every camera: the held cameras are distinct and are
    cameras of the pipeline, and so are the keys of [outputQueues]. *)
Lemma have_all_iff (frames1 : dict frame) (w w1 : world) :
  NoDup (cams w) -> cams w1 = cams w ->
  NoDup (dict_keys frames1) -> incl (dict_keys frames1) (cams w) ->
  (List.length frames1 =? List.length (w_queues w1))%nat = true <->
  holds_all frames1 w.
Proof.
  intros Hcams C1 N I.
  assert (L1 : List.length frames1 = List.length (dict_keys frames1)).
  { unfold dict_keys. now rewrite length_map. }
  assert (L2 : List.length (w_queues w1) = List.length (cams w)).
  { rewrite <- C1. unfold cams, dict_keys. now rewrite length_map. }
  rewrite Nat.eqb_eq, L1, L2. split.
  - intros Hlen c Hc. apply dict_mem_keys.
    apply (NoDup_same_length (dict_keys frames1) (cams w)); auto.
  - intros Hall.
    assert (I' : incl (cams w) (dict_keys frames1)).
    { intros c Hc. apply dict_mem_keys. now apply Hall. }
    apply Nat.le_antisymm; apply NoDup_incl_length; auto.
Qed.

(** One pass of the wait loop under [wait_all]: it is the last one exactly
    when, after it, a frame is held for every camera or the clock read
    after it is [wait_timeout] or more past the start. *)
Lemma collect_frames_pass cfg start st frames w st1 frames1 acquired_any w1 now w2 :
  wait_all cfg = true -> lag_ok w ->
  NoDup (dict_keys frames) -> incl (dict_keys frames) (cams w) ->
  NoDup (cams w) ->
  poll_pass cfg (cams w) st frames false w = (st1, frames1, acquired_any, w1) ->
  time_time w1 = (now, w2) ->
  (holds_all frames1 w ->
   forall fuel,
     collect_frames cfg (S fuel) start st frames w = Collected st1 frames1 w2) /\
  (~ holds_all frames1 w -> (wait_timeout cfg <= now - start)%Q ->
   forall fuel,
     collect_frames cfg (S fuel) start st frames w =
     Collected st1 frames1
       (if one_shot cfg then emit (MsgWaitTimeout (dict_keys frames1)) w2
        else w2)) /\
  (~ holds_all frames1 w -> (now - start < wait_timeout cfg)%Q ->
   let w3 := if acquired_any then w2 else time_sleep (5#1000) w2 in
   let w4 := if headless cfg then w3 else snd (wait_key w3) in
   (lag_ok w4 /\ cams w4 = cams w /\
    NoDup (dict_keys frames1) /\ incl (dict_keys frames1) (cams w4)) /\
   forall fuel,
     collect_frames cfg (S fuel) start st frames w =
     if negb (headless cfg) && is_quit_key (fst (wait_key w3))
     then CollectQuit (emit MsgQuit w4)
     else collect_frames cfg fuel start st1 frames1 w4).
Proof.
  intros Hwa Hlag Hnd Hin Hcams Hpass Htime.
  pose proof (poll_pass_keys _ _ _ _ _ _ _ _ _ _ Hpass) as (_ & N & I & _).
  pose proof (poll_pass_grows _ _ _ _ _ _ _ _ _ _ Hpass) as (C1 & _).
  pose proof (poll_pass_clock _ _ _ _ _ _ _ _ _ _ Hpass) as (_ & Hl1).
  specialize (N Hnd). specialize (I (cams w) Hin (incl_refl _)).
  pose proof (have_all_iff frames1 w w1 Hcams C1 N I) as Hiff.
  assert (Hunfold : forall fuel,
    collect_frames cfg (S fuel) start st frames w =
    if (List.length frames1 =? List.length (w_queues w1))%nat
       || Qle_bool (wait_timeout cfg) (now - start)
    then Collected st1 frames1
           (if Qle_bool (wait_timeout cfg) (now - start)
               && negb (List.length frames1 =? List.length (w_queues w1))%nat
               && one_shot cfg
            then emit (MsgWaitTimeout (dict_keys frames1)) w2
            else w2)
    else
      let w3 := if acquired_any then w2 else time_sleep (5#1000) w2 in
      if headless cfg
      then collect_frames cfg fuel start st1 frames1 w3
      else
        let (key, w4) := wait_key w3 in
        if is_quit_key key then CollectQuit (emit MsgQuit w4)
        else collect_frames cfg fuel start st1 frames1 w4).
  { intros fuel. simpl. rewrite Hpass, Hwa. simpl. rewrite Htime. reflexivity. }
  split; [|split].
  - intros Hall fuel. rewrite Hunfold.
    apply Hiff in Hall. rewrite Hall. simpl.
    now rewrite andb_false_r.
  - intros Hno Hto fuel. rewrite Hunfold.
    destruct (List.length frames1 =? List.length (w_queues w1))%nat eqn:Hlen.
    { exfalso. apply Hno. now apply Hiff. }
    apply Qle_bool_iff in Hto. rewrite Hto. reflexivity.
  - intros Hno Hto w3 w4. split.
    + assert (Hlag2 : lag_ok w2).
      { pose proof (time_time_lag_ok w1) as H. rewrite Htime in H. apply H.
        unfold lag_ok in *. now rewrite Hl1. }
      assert (C2 : cams w2 = cams w).
      { pose proof (time_time_cams w1) as H. rewrite Htime in H. simpl in H.
        congruence. }
      assert (H3 : lag_ok w3 /\ cams w3 = cams w).
      { subst w3. destruct acquired_any; auto. }
      assert (H4 : lag_ok w4 /\ cams w4 = cams w).
      { subst w4. destruct (headless cfg); [exact H3|].
        destruct H3 as (L3 & C3).
        pose proof (wait_key_clock w3) as (_ & L4).
        pose proof (wait_key_cams w3) as C4.
        split; [unfold lag_ok in *; now rewrite L4|congruence]. }
      destruct H4 as (L4 & C4).
      split; [exact L4|]. split; [exact C4|]. split; [exact N|].
      now rewrite C4.
    + intros fuel. rewrite Hunfold.
      destruct (List.length frames1 =? List.length (w_queues w1))%nat eqn:Hlen.
      { exfalso. apply Hno. now apply Hiff. }
      destruct (Qle_bool (wait_timeout cfg) (now - start)) eqn:Hq.
      { exfalso. apply Qle_bool_iff in Hq. apply (Qlt_not_le _ _ Hto Hq). }
      simpl. fold w3. subst w4.
      destruct (headless cfg); simpl; [reflexivity|].
      destruct (wait_key w3) as [key wk]. reflexivity.
Qed.

(** C6. With [wait_all], the wait loop, at its start or at any pass
    (the cameras held so far being distinct cameras of the pipeline), always
    ends: a number of passes suffices that depends only on the cameras and
    on what is left of the timeout.  When it ends by going on with the
    cycle, either a frame is held for every known camera, or the clock
    reading that ended it is at least [wait_timeout] after
    [start_wait_cycle]; it never goes on otherwise.  In one-shot mode, going
    on with a camera missing prints the warning that lists the cameras
    held.  And it ends at the first such pass, the names of the queues
    being distinct: a pass after which a frame is held for every camera is
    the last one, and the cycle goes on with these frames at the clock
    reading that follows the pass, without the warning; a pass after which
    a camera is missing and the clock reading is at least [wait_timeout]
    past the start is the last one, with the partial set, and with the
    warning exactly in one-shot mode; after any other pass the loop does
    not go on with the cycle: it sleeps 5 ms if the pass acquired nothing,
    reads the keyboard unless headless, and quits on the quit key or makes
    another pass with the frames held, from a point at which all of this
    holds again. *)
Theorem wait_all_barrier :
  forall cfg start st frames w,
    wait_all cfg = true ->
    lag_ok w ->
    NoDup (dict_keys frames) ->
    incl (dict_keys frames) (cams w) ->
    (exists passes, forall fuel,
        (passes <= fuel)%nat ->
        collect_frames cfg fuel start st frames w <> CollectFuel) /\
    (forall fuel st' frames' w',
        collect_frames cfg fuel start st frames w = Collected st' frames' w' ->
        (holds_all frames' w \/ (wait_timeout cfg <= w_time w' - start)%Q) /\
        (one_shot cfg = true -> ~ holds_all frames' w ->
         exists before,
           w_trace w' = before ++ [MsgWaitTimeout (dict_keys frames')])) /\
    (NoDup (cams w) ->
     forall st1 frames1 acquired_any w1 now w2,
       poll_pass cfg (cams w) st frames false w
       = (st1, frames1, acquired_any, w1) ->
       time_time w1 = (now, w2) ->
       (holds_all frames1 w ->
        forall fuel,
          collect_frames cfg (S fuel) start st frames w
          = Collected st1 frames1 w2) /\
       (~ holds_all frames1 w -> (wait_timeout cfg <= now - start)%Q ->
        forall fuel,
          collect_frames cfg (S fuel) start st frames w =
          Collected st1 frames1
            (if one_shot cfg then emit (MsgWaitTimeout (dict_keys frames1)) w2
             else w2)) /\
       (~ holds_all frames1 w -> (now - start < wait_timeout cfg)%Q ->
        let w3 := if acquired_any then w2 else time_sleep (5#1000) w2 in
        let w4 := if headless cfg then w3 else snd (wait_key w3) in
        (lag_ok w4 /\ cams w4 = cams w /\
         NoDup (dict_keys frames1) /\ incl (dict_keys frames1) (cams w4)) /\
        forall fuel,
          collect_frames cfg (S fuel) start st frames w =
          if negb (headless cfg) && is_quit_key (fst (wait_key w3))
          then CollectQuit (emit MsgQuit w4)
          else collect_frames cfg fuel start st1 frames1 w4)).
Proof.
  intros cfg start st frames w Hwa Hlag Hnd Hin. split; [|split].
  - set (r := (wait_timeout cfg - (w_time w - start))%Q).
    set (k := Z.to_nat (Qceiling (r * 200))).
    exists (S (k + List.length (cams w))). intros fuel Hfuel.
    apply (collect_frames_ends cfg start fuel k (List.length (cams w)));
      [exact Hwa|exact Hlag| | |].
    + fold r.
      assert (H1 : (r * 200 <= inject_Z (Qceiling (r * 200)))%Q)
        by apply Qle_ceiling.
      assert (H2 : (inject_Z (Qceiling (r * 200)) <= inject_Z (Z.of_nat k))%Q).
      { rewrite <- Zle_Qle. subst k. lia. }
      lra.
    + unfold missing. apply filter_length_le.
    + lia.
  - intros fuel st' frames' w' H.
    apply (collect_frames_exit cfg start fuel st frames w st' frames' w'); auto.
  - intros Hcams st1 frames1 acquired_any w1 now w2 Hpass Htime.
    exact (collect_frames_pass cfg start st frames w st1 frames1 acquired_any
             w1 now w2 Hwa Hlag Hnd Hin Hcams Hpass Htime).
Qed.

Lemma wait_all_barrier_witness :
  wait_all barrier_cfg = true /\
  lag_ok both_ready_world /\ lag_ok silent_b_world /\
  NoDup (cams both_ready_world) /\
  (exists st' frames',
      collect_frames barrier_cfg 10 0 init_state [] both_ready_world
      = Collected st' frames'
          {| w_time := 1#1000; w_lag := [];
             w_queues :=
               [("CAM_A"%string, {| q_popped := 1; q_pending := [] |});
                ("CAM_B"%string, {| q_popped := 1; q_pending := [] |})];
             w_keys := [];
             w_trace := [Pop "CAM_A" {| f_seq := 0; f_img := blank 1 |};
                         Pop "CAM_B" {| f_seq := 0; f_img := blank 2 |}] |} /\
      dict_keys frames' = ["CAM_A"%string; "CAM_B"%string]) /\
  exists st' frames' w',
    collect_frames barrier_cfg 10 0 init_state [] silent_b_world
    = Collected st' frames' w' /\
    dict_keys frames' = ["CAM_A"%string] /\
    (holds_all frames' silent_b_world \/
     (wait_timeout barrier_cfg <= w_time w' - 0)%Q) /\
    (one_shot barrier_cfg = true -> ~ holds_all frames' silent_b_world ->
     exists before,
       w_trace w' = before ++ [MsgWaitTimeout (dict_keys frames')]).
Proof.
  assert (Hlag : lag_ok silent_b_world).
  { unfold lag_ok. simpl. repeat constructor. unfold Qle. simpl. lia. }
  assert (Hlag' : lag_ok both_ready_world).
  { unfold lag_ok. simpl. repeat constructor. unfold Qle. simpl. lia. }
  assert (Hcams : NoDup (cams both_ready_world)).
  { repeat constructor; simpl; intuition discriminate. }
  assert (Hnil : forall w, incl (dict_keys (@nil (string * frame))) (cams w)).
  { intros w c []. }
  split; [reflexivity|]. split; [exact Hlag'|]. split; [exact Hlag|].
  split; [exact Hcams|]. split.
  - pose proof (proj2 (proj2 (wait_all_barrier barrier_cfg 0 init_state []
                                both_ready_world eq_refl Hlag' (NoDup_nil _)
                                (Hnil _))) Hcams) as Hb.
    destruct (poll_pass barrier_cfg (cams both_ready_world) init_state [] false
                both_ready_world) as [[[st1 frames1] acq] w1] eqn:Ep.
    destruct (time_time w1) as [now w2] eqn:Et.
    destruct (Hb st1 frames1 acq w1 now w2 eq_refl Et) as (Hall & _).
    vm_compute in Ep. injection Ep as <- <- <- <-.
    vm_compute in Et. injection Et as <- <-.
    eexists. eexists. split.
    + apply (Hall ltac:(intros c [<-|[<-|[]]]; reflexivity) 9%nat).
    + reflexivity.
  - pose proof (proj1 (proj2 (wait_all_barrier barrier_cfg 0 init_state []
                                silent_b_world eq_refl Hlag (NoDup_nil _)
                                (Hnil _))) 10%nat) as Hb.
    destruct (collect_frames barrier_cfg 10 0 init_state [] silent_b_world)
      as [st' frames' w'| |] eqn:E.
    + exists st', frames', w'. split; [reflexivity|].
      split; [|exact (Hb st' frames' w' eq_refl)].
      vm_compute in E. injection E as _ Ef _. now rewrite <- Ef.
    + vm_compute in E. discriminate.
    + vm_compute in E. discriminate.
Defined.

Lemma writes_In c f trace : In (c, f) (writes trace) <-> In (ImWrite c f) trace.
Proof.
  unfold writes. rewrite in_flat_map. split.
  - intros (e & Hin & He). destruct e; simpl in He; try contradiction.
    destruct He as [E|[]]. now injection E as -> ->.
  - intros Hin. exists (ImWrite c f). simpl. auto.
Qed.

(** C2. Whatever [main] does (the focus scan, then any number of
    iterations of the main loop), when at least one frame is required of
    each camera, every file written holds a frame that is at least the
    [(warmup_frames + 1)]-th popped from its camera's queue since [main]
    started: the first [warmup_frames] frames popped are never written.
    This covers the frames stored by the wait loop and those put in the
    batch by the re-polls of the brightness and sharpness retries. *)
Theorem warmup_frames_never_written :
  forall cfg cam_nodes fuel iterations w o w',
    (1 <= min_frames_each cfg)%Z ->
    main cfg cam_nodes fuel iterations w = o ->
    world_of o = Some w' ->
    forall c f,
      In (c, f) (writes (events_since w w')) ->
      (Z.of_nat (popped c w) + warmup_frames cfg <= Z.of_nat (f_seq f))%Z.
Proof.
  intros cfg cam_nodes fuel iterations w o w' Hmin Hmain Hw c f Hin.
  set (base := fun c => popped c w).
  unfold main in Hmain.
  destruct (focus_scan_phase_later cfg cam_nodes w) as ((_ & Hpop) & Tf).
  assert (Hcnt : counted cfg base init_state (focus_scan_phase cfg cam_nodes w)).
  { intros c0. simpl. subst base. simpl. specialize (Hpop c0). split; lia. }
  pose proof (main_loop_warm cfg base fuel iterations init_state _ o w'
                Hmin Hcnt Hmain Hw) as Tm.
  assert (T : trace_ext (write_ok cfg base) w w').
  { eapply trace_ext_trans; [|exact Tm].
    eapply trace_ext_weaken; [apply focus_write_ok|exact Tf]. }
  apply trace_ext_since in T. rewrite Forall_forall in T.
  apply writes_In in Hin. apply T in Hin. exact Hin.
Qed.

Lemma warmup_frames_never_written_witness :
  (1 <= min_frames_each scenario_cfg)%Z /\
  exists st' w',
    main scenario_cfg [] 1 4 late_b_world = Break st' w' /\
    writes (events_since late_b_world w')
    = [("CAM_B"%string, {| f_seq := 2; f_img := blank 6 |})] /\
    forall c f,
      In (c, f) (writes (events_since late_b_world w')) ->
      (Z.of_nat (popped c late_b_world) + warmup_frames scenario_cfg
       <= Z.of_nat (f_seq f))%Z.
Proof.
  assert (Hmin : (1 <= min_frames_each scenario_cfg)%Z) by (simpl; lia).
  split; [exact Hmin|].
  eexists. eexists. split; [vm_compute; reflexivity|].
  split; [reflexivity|].
  exact (warmup_frames_never_written scenario_cfg [] 1 4 late_b_world _ _
           Hmin eq_refl eq_refl).
Defined.

(** The requirement of one frame per camera cannot be dropped from C2:
    with [min_frames_each = 0] a brightness retry re-polls camera B, which
    has popped nothing yet, and the very first frame of its queue is
    written. *)
Remark retry_repoll_skips_warmup_check :
  exists st' w',
    capture_batch no_min_cfg 3 a_only_state
      [("CAM_A"%string, {| f_seq := 2; f_img := picture 10 80 |})] b_fresh_world
    = Break st' w' /\
    In ("CAM_B"%string, {| f_seq := 0; f_img := picture 90 80 |})
       (writes (w_trace w')).
Proof.
  eexists. eexists. split; [vm_compute; reflexivity|].
  simpl. auto.
Qed.

(** * Further properties of the capture loop *)

(** ** The shape of one iteration *)

Lemma saved_app t1 t2 : saved (t1 ++ t2) = saved t1 ++ saved t2.
Proof. unfold saved. apply flat_map_app. Qed.

Lemma saved_quiet new : Forall quiet_event new -> saved new = [].
Proof.
  induction 1 as [|e new He _ IH]; simpl; auto.
  destruct e; simpl in *; auto; contradiction.
Qed.

Lemma saved_gate new : Forall gate_event new -> saved new = [].
Proof.
  induction 1 as [|e new He _ IH]; simpl; auto.
  destruct e; simpl in *; auto; contradiction.
Qed.

Lemma saved_batch_events cfg st gate captured :
  Forall gate_event gate ->
  saved (batch_events cfg st gate captured) = [(capture_count st + 1)%Z].
Proof.
  intros F. unfold batch_events. rewrite saved_app, saved_gate by assumption.
  simpl. rewrite saved_app.
  assert (E : saved (map (fun sf => ImWrite (fst sf) (snd sf)) captured) = []).
  { induction captured as [|sf rest IH]; simpl; auto. }
  rewrite E. destruct (one_shot cfg); reflexivity.
Qed.

(** A capture ends the run exactly in one-shot mode. *)
Lemma capture_batch_ends cfg fuel st frames w :
  (forall st' w', capture_batch cfg fuel st frames w = Break st' w' ->
                  one_shot cfg = true /\ st' = count_capture st /\
                  exists w4, w' = emit MsgOneShotDone w4) /\
  (forall st' w', capture_batch cfg fuel st frames w = Continue st' w' ->
                  st' = st /\ lacking_of cfg st w <> [] \/
                  one_shot cfg = false /\ st' = count_capture st).
Proof.
  unfold capture_batch.
  destruct (lacking_of cfg st w) as [|l ls]; simpl.
  - destruct (brightness_loop cfg fuel 0 frames w) as [[c1 w1]|wx|];
      [|split; intros; discriminate|split; intros; discriminate].
    destruct (sharpness_check cfg fuel c1 w1) as [[c2 w2]|wx|];
      [|split; intros; discriminate|split; intros; discriminate].
    destruct (one_shot cfg); split; intros st' w' H; try discriminate.
    + injection H as <- <-. eauto.
    + injection H as <- <-. auto.
  - split; intros st' w' H; [discriminate|].
    injection H as <- <-. left. split; auto. discriminate.
Qed.

(** One iteration of the main loop: quiet events of the wait loop, then
    nothing, or the farewell of a quit, or a postponement notice, or the
    events of a brightness wait that raised, or one batch. *)
Lemma cycle_cases cfg fuel st w o w' :
  cycle cfg fuel st w = o -> world_of o = Some w' ->
  exists st1 pre post,
    w_trace w' = w_trace w ++ pre ++ post /\
    Forall quiet_event pre /\
    capture_count st1 = capture_count st /\
    ((post = [] /\ o = Continue st1 w') \/
     (post = [MsgQuit] /\ (o = Break st1 w' \/ o = Return w')) \/
     (exists l, post = [MsgPostponed l] /\ o = Continue st1 w') \/
     (Forall gate_event post /\ o = Raised w') \/
     (exists gate captured,
         post = batch_events cfg st1 gate captured /\
         Forall gate_event gate /\ captured <> [] /\
         o = batch_outcome cfg st1 w')).
Proof.
  unfold cycle. intros H Hw.
  pose proof (time_time_trace w) as Ht0.
  destruct (time_time w) as [start w0]. simpl in Ht0.
  pose proof (collect_frames_grows cfg start fuel st [] w0) as Hcol.
  destruct (collect_frames cfg fuel start st [] w0) as [st1 frames w1|w1|];
    simpl in Hcol.
  - destruct Hcol as (_ & (n1 & E1 & F1) & N1 & _).
    destruct (evaluate_cases cfg fuel st1 frames w1)
      as (st2 & w2 & _ & _ & Hcc & _ & _ & (n2 & E2 & F2) & Hcase).
    assert (F12 : Forall quiet_event (n1 ++ n2)) by (apply Forall_app; auto).
    assert (E12 : w_trace w2 = w_trace w ++ n1 ++ n2).
    { rewrite E2, E1, Ht0. now rewrite app_assoc. }
    exists st2, (n1 ++ n2).
    destruct Hcase as [He | [He | (Hne & He)]]; rewrite He in H.
    + subst o. injection Hw as <-. exists [].
      split; [now rewrite app_nil_r|]. split; [exact F12|].
      split; [congruence|]. left. auto.
    + subst o. injection Hw as <-. exists [MsgQuit].
      split; [simpl; rewrite E12, <- app_assoc; reflexivity|].
      split; [exact F12|]. split; [congruence|]. right. left. auto.
    + destruct (capture_batch_spec cfg fuel st2 frames w2 o w' H Hw)
        as (_ & n3 & E3 & Hcap).
      exists n3.
      split; [rewrite E3, E12, <- app_assoc; reflexivity|].
      split; [exact F12|]. split; [congruence|].
      destruct Hcap as [(_ & Ho & ->) | [(_ & Ho & Fg) | (_ & Ho & gate & captured & Fg & Kc & ->)]].
      * right. right. left. eauto.
      * right. right. right. left. auto.
      * right. right. right. right. exists gate, captured.
        split; auto. split; auto. split.
        { destruct frames as [|[c f] rest]; [discriminate|].
          assert (Hm : dict_mem c captured = true).
          { apply Kc. unfold dict_mem. simpl. now rewrite String.eqb_refl. }
          intros ->. discriminate. }
        destruct (capture_batch_ends cfg fuel st2 frames w2) as (Hb & Hc).
        unfold batch_outcome.
        destruct Ho as [Ho|Ho]; rewrite Ho in H |- *.
        -- destruct (Hc _ _ H) as [(Hs & _)|(Hos & _)].
           ++ exfalso. assert (E : capture_count (count_capture st2)
                                   = capture_count st2) by congruence.
              simpl in E. lia.
           ++ now rewrite Hos.
        -- destruct (Hb _ _ H) as (Hos & _). now rewrite Hos.
  - destruct Hcol as (st1 & frames1 & wq & (_ & (n1 & E1 & F1) & _) & ->).
    subst o. injection Hw as <-. exists st, n1, [MsgQuit].
    split; [simpl; rewrite E1, Ht0, <- app_assoc; reflexivity|].
    split; [exact F1|]. split; [reflexivity|]. right. left. auto.
  - subst o. discriminate.
Qed.

(** ** Batches of a run *)

Lemma numbers_app from k1 k2 :
  numbers from (k1 + k2) = numbers from k1 ++ numbers (from + Z.of_nat k1) k2.
Proof.
  revert from. induction k1 as [|k1 IH]; intros from.
  - simpl. now rewrite Z.add_0_r.
  - cbn [numbers Nat.add app]. rewrite IH. do 3 f_equal. lia.
Qed.

Lemma batch_events_one_shot cfg st gate captured :
  one_shot cfg = true ->
  exists before, batch_events cfg st gate captured = before ++ [MsgOneShotDone].
Proof.
  intros Hos. unfold batch_events. rewrite Hos.
  exists (gate ++ MsgSaving (capture_count st + 1) ::
            map (fun sf => ImWrite (fst sf) (snd sf)) captured).
  rewrite <- app_assoc. simpl. reflexivity.
Qed.

(** The batches of a run of the main loop: how many, how numbered, and what
    one-shot mode adds. *)
Lemma main_loop_batches cfg fuel n : forall st w o w',
  main_loop cfg fuel n st w = o -> world_of o = Some w' ->
  exists new k,
    w_trace w' = w_trace w ++ new /\
    (k <= n)%nat /\
    saved new = numbers (capture_count st) k /\
    (forall st', state_of o = Some st' ->
                 capture_count st' = (capture_count st + Z.of_nat k)%Z) /\
    (one_shot cfg = true ->
     (k <= 1)%nat /\
     (k = 1%nat ->
      exists st' before, o = Break st' w' /\ new = before ++ [MsgOneShotDone])).
Proof.
  induction n as [|n IH]; intros st w o w' H Hw; simpl in H.
  { subst o. injection Hw as <-. exists [], O. rewrite app_nil_r. simpl.
    repeat split; auto.
    - intros st' E. injection E as <-. lia.
    - intros E. discriminate. }
  destruct (cycle cfg fuel st w) as [st1 w1|st1 w1|w1|w1|] eqn:Hcyc.
  - (* the iteration goes on *)
    destruct (cycle_cases cfg fuel st w _ w1 Hcyc eq_refl)
      as (st0 & pre & post & E1 & Fpre & Hcc & Hcase).
    destruct (IH st1 w1 o w' H Hw) as (new2 & k2 & E2 & Hk2 & S2 & C2 & O2).
    assert (Hstep : (saved (pre ++ post) = [] /\ capture_count st1 = capture_count st) \/
                    (saved (pre ++ post) = [(capture_count st + 1)%Z] /\
                     capture_count st1 = (capture_count st + 1)%Z /\
                     one_shot cfg = false)).
    { rewrite saved_app, saved_quiet by assumption. simpl.
      destruct Hcase as [(-> & Ho) | [(_ & [Ho|Ho]) | [(l & -> & Ho) | [(_ & Ho) | (gate & captured & -> & Fg & _ & Ho)]]]];
        try discriminate.
      - injection Ho as <-. left. auto.
      - injection Ho as <-. left. auto.
      - unfold batch_outcome in Ho. destruct (one_shot cfg) eqn:Hos; [discriminate|].
        injection Ho as ->. right. rewrite saved_batch_events by assumption.
        simpl. rewrite Hcc. auto. }
    destruct Hstep as [(S1 & C1) | (S1 & C1 & Hos)].
    + exists ((pre ++ post) ++ new2), k2.
      split; [rewrite E2, E1; now rewrite <- !app_assoc|].
      split; [lia|]. split; [rewrite saved_app, S1, S2, C1; reflexivity|].
      split; [intros st' E; rewrite (C2 st' E), C1; reflexivity|].
      intros Hos. destruct (O2 Hos) as (Hle & Hone). split; auto.
      intros Hk. destruct (Hone Hk) as (st' & before & Eo & En).
      exists st', ((pre ++ post) ++ before). split; auto.
      rewrite En. now rewrite <- !app_assoc.
    + exists ((pre ++ post) ++ new2), (S k2).
      split; [rewrite E2, E1; now rewrite <- !app_assoc|].
      split; [lia|].
      split; [rewrite saved_app, S1, S2, C1; reflexivity|].
      split; [intros st' E; rewrite (C2 st' E), C1; lia|].
      intros Hos'. congruence.
  - (* the iteration leaves the loop *)
    subst o. injection Hw as <-.
    destruct (cycle_cases cfg fuel st w _ w1 Hcyc eq_refl)
      as (st0 & pre & post & E1 & Fpre & Hcc & Hcase).
    destruct Hcase as [(_ & Ho) | [(-> & [Ho|Ho]) | [(l & _ & Ho) | [(_ & Ho) | (gate & captured & -> & Fg & _ & Ho)]]]];
      try discriminate.
    + injection Ho as ->. exists (pre ++ [MsgQuit]), O.
      split; auto. split; [lia|].
      split; [rewrite saved_app, saved_quiet by assumption; reflexivity|].
      split; [intros st' E; injection E as <-; lia|].
      intros _. split; [lia|]. intros E. discriminate.
    + unfold batch_outcome in Ho. destruct (one_shot cfg) eqn:Hos; [|discriminate].
      injection Ho as ->. exists (pre ++ batch_events cfg st0 gate captured), 1%nat.
      split; auto. split; [lia|].
      split.
      { rewrite saved_app, saved_quiet, saved_batch_events by assumption.
        simpl. now rewrite Hcc. }
      split; [intros st' E; injection E as <-; simpl; lia|].
      intros _. split; [lia|]. intros _.
      destruct (batch_events_one_shot cfg st0 gate captured Hos) as (before & Eb).
      exists (count_capture st0), (pre ++ before). split; auto.
      rewrite Eb. now rewrite <- app_assoc.
  - (* quit from inside the wait loop *)
    subst o. injection Hw as <-.
    destruct (cycle_cases cfg fuel st w _ w1 Hcyc eq_refl)
      as (st0 & pre & post & E1 & Fpre & Hcc & Hcase).
    destruct Hcase as [(_ & Ho) | [(-> & [Ho|Ho]) | [(l & _ & Ho) | [(_ & Ho) | (gate & captured & _ & _ & _ & Ho)]]]];
      try discriminate;
      [|unfold batch_outcome in Ho; destruct (one_shot cfg); discriminate].
    exists (pre ++ [MsgQuit]), O.
    split; auto. split; [lia|].
    split; [rewrite saved_app, saved_quiet by assumption; reflexivity|].
    split; [intros st' E; discriminate|].
    intros _. split; [lia|]. intros E. discriminate.
  - (* the brightness wait raised *)
    subst o. injection Hw as <-.
    destruct (cycle_cases cfg fuel st w _ w1 Hcyc eq_refl)
      as (st0 & pre & post & E1 & Fpre & Hcc & Hcase).
    destruct Hcase as [(_ & Ho) | [(_ & [Ho|Ho]) | [(l & _ & Ho) | [(Fg & Ho) | (gate & captured & _ & _ & _ & Ho)]]]];
      try discriminate;
      [|unfold batch_outcome in Ho; destruct (one_shot cfg); discriminate].
    exists (pre ++ post), O.
    split; auto. split; [lia|].
    split; [rewrite saved_app, saved_quiet, saved_gate by assumption; reflexivity|].
    split; [intros st' E; discriminate|].
    intros _. split; [lia|]. intros E. discriminate.
  - subst o. discriminate.
Qed.

(** X1. In any run of the main loop the batches announced are numbered
    consecutively from the batch counter it started with, there are no more
    of them than iterations, and the counter ends at their number: the
    counter is exactly the count of batches written. *)
Theorem batches_numbered_consecutively :
  forall cfg fuel n st w o w',
    main_loop cfg fuel n st w = o -> world_of o = Some w' ->
    exists k,
      (k <= n)%nat /\
      saved (events_since w w') = numbers (capture_count st) k /\
      forall st', state_of o = Some st' ->
                  capture_count st' = (capture_count st + Z.of_nat k)%Z.
Proof.
  intros cfg fuel n st w o w' H Hw.
  destruct (main_loop_batches cfg fuel n st w o w' H Hw)
    as (new & k & E & Hk & S & C & _).
  exists k. rewrite (events_since_app _ _ _ E). auto.
Qed.

Lemma batches_numbered_consecutively_witness :
  exists st' w',
    main_loop auto_cfg 1 3 init_state steady_world = Break st' w' /\
    saved (w_trace w') = [1; 2; 3]%Z /\
    exists k,
      (k <= 3)%nat /\
      saved (events_since steady_world w') = numbers (capture_count init_state) k /\
      forall st'', state_of (Break st' w') = Some st'' ->
                   capture_count st'' = (capture_count init_state + Z.of_nat k)%Z.
Proof.
  eexists. eexists. split; [vm_compute; reflexivity|].
  split; [reflexivity|].
  apply (batches_numbered_consecutively auto_cfg 1 3 init_state steady_world).
  - vm_compute. reflexivity.
  - reflexivity.
Defined.

(** X2. In one-shot mode a run writes at most one batch, and a run that
    wrote one has left the main loop right after it, its last message being
    the one-shot farewell. *)
Theorem one_shot_writes_at_most_one_batch :
  forall cfg fuel n st w o w',
    one_shot cfg = true ->
    main_loop cfg fuel n st w = o -> world_of o = Some w' ->
    (List.length (saved (events_since w w')) <= 1)%nat /\
    (saved (events_since w w') <> [] ->
     exists st' before,
       o = Break st' w' /\ events_since w w' = before ++ [MsgOneShotDone]).
Proof.
  intros cfg fuel n st w o w' Hos H Hw.
  destruct (main_loop_batches cfg fuel n st w o w' H Hw)
    as (new & k & E & _ & S & _ & O).
  destruct (O Hos) as (Hle & Hone).
  rewrite (events_since_app _ _ _ E), S.
  destruct k as [|[|k]]; [| |lia].
  - split; [simpl; lia|]. intros Hne. now contradiction Hne.
  - split; [simpl; lia|]. intros _. exact (Hone eq_refl).
Qed.

Lemma one_shot_writes_at_most_one_batch_witness :
  one_shot scenario_cfg = true /\
  exists st' w',
    main_loop scenario_cfg 1 9 init_state late_b_world = Break st' w' /\
    saved (events_since late_b_world w') = [1%Z] /\
    (saved (events_since late_b_world w') <> [] ->
     exists st'' before,
       Break st' w' = Break st'' w' /\
       events_since late_b_world w' = before ++ [MsgOneShotDone]).
Proof.
  split; [reflexivity|].
  eexists. eexists. split; [vm_compute; reflexivity|].
  split; [reflexivity|].
  apply (one_shot_writes_at_most_one_batch scenario_cfg 1 9 init_state
           late_b_world _ _ eq_refl).
  - vm_compute. reflexivity.
  - reflexivity.
Defined.

(** ** Headless mode without a trigger *)

Lemma evaluate_idle cfg fuel st frames w :
  headless cfg = true -> one_shot cfg = false -> interval_of cfg = None ->
  evaluate cfg fuel st frames w = Continue st (time_sleep (1 # 100) w).
Proof.
  intros Hh Hos Hint. unfold evaluate, auto_trigger.
  rewrite Hint, Hh, Hos. reflexivity.
Qed.

(** Headless mode reads no key: the wait loop cannot end by a quit. *)
Lemma collect_frames_headless cfg start fuel : forall st frames w wq,
  headless cfg = true ->
  collect_frames cfg fuel start st frames w <> CollectQuit wq.
Proof.
  induction fuel as [|fuel IH]; intros st frames w wq Hh; simpl.
  - discriminate.
  - destruct (poll_pass cfg (cams w) st frames false w) as [[[st1 frames1] acq] w1].
    destruct (wait_all cfg); simpl; [|discriminate].
    destruct (time_time w1) as [now w2].
    destruct (_ || _); [discriminate|].
    rewrite Hh. now apply IH.
Qed.

Lemma main_loop_idle cfg fuel n : forall st w o w',
  headless cfg = true -> one_shot cfg = false -> interval_of cfg = None ->
  main_loop cfg fuel n st w = o -> world_of o = Some w' ->
  trace_ext quiet_event w w'.
Proof.
  induction n as [|n IH]; intros st w o w' Hh Hos Hint H Hw; simpl in H.
  { subst o. injection Hw as <-. apply trace_ext_refl. }
  unfold cycle in H.
  pose proof (trace_ext_time quiet_event w) as T0.
  destruct (time_time w) as [start w0]. simpl in T0.
  pose proof (collect_frames_grows cfg start fuel st [] w0) as Hcol.
  pose proof (collect_frames_headless cfg start fuel st [] w0) as Hnq.
  destruct (collect_frames cfg fuel start st [] w0) as [st1 frames w1|w1|];
    simpl in Hcol.
  - destruct Hcol as (_ & T1 & _).
    rewrite evaluate_idle in H by assumption.
    eapply trace_ext_trans; [exact T0|]. eapply trace_ext_trans; [exact T1|].
    eapply trace_ext_trans; [apply trace_ext_sleep; exact I|].
    eapply IH; eauto.
  - exfalso. exact (Hnq w1 Hh eq_refl).
  - subst o. discriminate.
Qed.

Lemma focus_no_write e : focus_event e -> no_write e.
Proof. destruct e; simpl; auto. Qed.

Lemma saved_focus new : Forall focus_event new -> saved new = [].
Proof.
  induction 1 as [|e new He _ IH]; simpl; auto.
  destruct e; simpl in *; auto; contradiction.
Qed.

(** X3. In headless mode with neither an interval nor one-shot (the mode
    the program itself warns about, lines 102-104), [main] never writes a
    file and never announces a batch, whatever the cameras deliver. *)
Theorem headless_without_trigger_never_captures :
  forall cfg cam_nodes fuel n w o w',
    headless cfg = true -> one_shot cfg = false -> interval_of cfg = None ->
    main cfg cam_nodes fuel n w = o -> world_of o = Some w' ->
    writes (events_since w w') = [] /\ saved (events_since w w') = [].
Proof.
  intros cfg cam_nodes fuel n w o w' Hh Hos Hint H Hw. unfold main in H.
  destruct (focus_scan_phase_later cfg cam_nodes w) as (_ & (n1 & E1 & F1)).
  destruct (main_loop_idle cfg fuel n init_state _ o w' Hh Hos Hint H Hw)
    as (n2 & E2 & F2).
  rewrite (events_since_app w w' (n1 ++ n2)).
  2:{ rewrite E2, E1. now rewrite app_assoc. }
  assert (W1 : writes n1 = []).
  { apply writes_no_write.
    apply Forall_impl with (P := focus_event); auto using focus_no_write. }
  rewrite writes_app, saved_app, W1, (writes_quiet n2 F2), (saved_quiet n2 F2),
    (saved_focus n1 F1).
  auto.
Qed.

Lemma headless_without_trigger_never_captures_witness :
  headless idle_cfg = true /\ one_shot idle_cfg = false /\
  interval_of idle_cfg = None /\
  exists st' w',
    main idle_cfg [] 1 3 steady_world = Break st' w' /\
    List.length (w_trace w') = 6%nat /\
    writes (events_since steady_world w') = [] /\
    saved (events_since steady_world w') = [].
Proof.
  split; [reflexivity|]. split; [reflexivity|]. split; [reflexivity|].
  eexists. eexists. split; [vm_compute; reflexivity|].
  split; [reflexivity|].
  eapply (headless_without_trigger_never_captures idle_cfg [] 1 3 steady_world
            _ _ eq_refl eq_refl eq_refl eq_refl).
  vm_compute. reflexivity.
Defined.

(** ** Quit *)

Lemma quiet_not_quit new : Forall quiet_event new -> ~ In MsgQuit new.
Proof.
  intros F Hin. rewrite Forall_forall in F. exact (F _ Hin).
Qed.

Lemma gate_not_quit new : Forall gate_event new -> ~ In MsgQuit new.
Proof.
  intros F Hin. rewrite Forall_forall in F. exact (F _ Hin).
Qed.

(** X4. An iteration of the main loop in which the quit key is seen (in
    the wait loop or right after it) writes no file, announces no batch and
    ends the run; the farewell is the last thing it prints. *)
Theorem quit_ends_the_run_without_writing :
  forall cfg fuel st w o w',
    cycle cfg fuel st w = o -> world_of o = Some w' ->
    In MsgQuit (events_since w w') ->
    writes (events_since w w') = [] /\
    saved (events_since w w') = [] /\
    (exists before, events_since w w' = before ++ [MsgQuit]) /\
    ((exists st', o = Break st' w') \/ o = Return w').
Proof.
  intros cfg fuel st w o w' H Hw Hin.
  destruct (cycle_cases cfg fuel st w o w' H Hw)
    as (st1 & pre & post & E & Fpre & _ & Hcase).
  rewrite (events_since_app _ _ _ E) in *.
  apply in_app_or in Hin.
  destruct Hin as [Hin|Hin]; [exfalso; exact (quiet_not_quit pre Fpre Hin)|].
  destruct Hcase as [(-> & _) | [(-> & Ho) | [(l & -> & _) | [(Fg & _) | (gate & captured & -> & Fg & _ & _)]]]].
  - destruct Hin.
  - rewrite writes_app, saved_app, writes_quiet, saved_quiet by assumption.
    simpl. repeat split; eauto. destruct Ho; eauto.
  - destruct Hin as [Hin|[]]. discriminate.
  - exfalso. exact (gate_not_quit post Fg Hin).
  - exfalso. unfold batch_events in Hin. apply in_app_or in Hin.
    destruct Hin as [Hin|[Hin|Hin]]; [exact (gate_not_quit gate Fg Hin)|discriminate|].
    apply in_app_or in Hin. destruct Hin as [Hin|Hin].
    + apply in_map_iff in Hin. destruct Hin as (sf & Hsf & _). discriminate.
    + destruct (one_shot cfg); [destruct Hin as [Hin|[]]; discriminate|destruct Hin].
Qed.

Lemma quit_ends_the_run_without_writing_witness :
  exists st' w',
    cycle gui_cfg 1 init_state quit_world = Break st' w' /\
    In MsgQuit (events_since quit_world w') /\
    writes (events_since quit_world w') = [].
Proof.
  eexists. eexists. split; [vm_compute; reflexivity|].
  match goal with
  | |- In MsgQuit (events_since _ ?w1) /\ _ =>
      assert (Hin : In MsgQuit (events_since quit_world w1)) by (simpl; auto)
  end.
  split; [exact Hin|].
  refine (proj1 (quit_ends_the_run_without_writing gui_cfg 1 init_state
                   quit_world _ _ _ _ Hin));
    [vm_compute; reflexivity|reflexivity].
Defined.

(** ** The frames of a batch *)

Lemma dict_set_In_nodup (V : Type) k (v : V) d k0 v0 :
  NoDup (dict_keys d) ->
  In (k0, v0) (dict_set k v d) ->
  (k0 = k /\ v0 = v) \/ (k0 <> k /\ In (k0, v0) d).
Proof.
  unfold dict_keys. induction d as [|[k' v'] d IH]; simpl; intros Hnd Hin.
  - destruct Hin as [E|[]]. injection E as <- <-. auto.
  - inversion Hnd as [|? ? Hnotin Hnd']; subst.
    destruct (String.eqb k k') eqn:E; simpl in Hin.
    + apply String.eqb_eq in E. subst k'.
      destruct Hin as [E|Hin]; [injection E as <- <-; auto|].
      right. split; auto. intros ->. apply Hnotin.
      apply in_map_iff. exists (k, v0). auto.
    + destruct Hin as [E'|Hin].
      * injection E' as <- <-. right. split; auto.
        intros ->. now rewrite String.eqb_refl in E.
      * destruct (IH Hnd' Hin) as [?|(Hne & Hin')]; auto.
Qed.

Lemma dict_keys_set_nodup (V : Type) k (v : V) d :
  NoDup (dict_keys d) -> NoDup (dict_keys (dict_set k v d)).
Proof.
  intros Hnd. destruct (dict_mem k d) eqn:Hm.
  - now rewrite dict_keys_set_mem.
  - rewrite dict_keys_set_new by assumption. apply NoDup_app; auto.
    + repeat constructor. intros [].
    + intros x Hx [<-|[]]. apply dict_mem_keys in Hx. congruence.
Qed.

Lemma dict_keys_set_incl (V : Type) k (v : V) d cs :
  In k cs -> incl (dict_keys d) cs -> incl (dict_keys (dict_set k v d)) cs.
Proof.
  intros Hk Hi. destruct (dict_mem k d) eqn:Hm.
  - now rewrite dict_keys_set_mem.
  - rewrite dict_keys_set_new by assumption. apply incl_app; auto.
    intros x [<-|[]]. exact Hk.
Qed.

Lemma held_ok_nil w : held_ok [] w.
Proof.
  split; [constructor|]. split; [intros c []|intros c f []].
Qed.

Lemma held_ok_queues frames w w' :
  w_queues w' = w_queues w -> held_ok frames w -> held_ok frames w'.
Proof.
  intros E (N & I & L). unfold held_ok, cams, popped in *. rewrite E. auto.
Qed.

(** Popping camera [name] and holding the frame keeps the held frames in
    order. *)
Lemma held_ok_pop name w f w1 frames :
  queue_poll name w = Some (f, w1) -> In name (cams w) ->
  held_ok frames w -> held_ok (dict_set name f frames) w1.
Proof.
  intros Hpoll Hin (N & I & L).
  pose proof (queue_poll_spec _ _ _ _ Hpoll) as (Hseq & Hs & Ho & Hc & _).
  split; [now apply dict_keys_set_nodup|].
  split; [rewrite Hc; now apply dict_keys_set_incl|].
  intros c f0 Hin0. apply dict_set_In_nodup in Hin0; auto.
  destruct Hin0 as [(-> & ->)|(Hne & Hin0)].
  - rewrite Hs, Hseq. reflexivity.
  - rewrite Ho by assumption. auto.
Qed.

(** Popping camera [name], whose frame is not held, and dropping the frame
    keeps them in order too. *)
Lemma held_ok_drop name w f w1 frames :
  queue_poll name w = Some (f, w1) -> dict_mem name frames = false ->
  held_ok frames w -> held_ok frames w1.
Proof.
  intros Hpoll Hm (N & I & L).
  pose proof (queue_poll_spec _ _ _ _ Hpoll) as (_ & _ & Ho & Hc & _).
  split; auto. split; [now rewrite Hc|].
  intros c f0 Hin0. rewrite Ho; auto.
  intros ->. assert (Hk : In name (dict_keys frames)).
  { apply in_map_iff. exists (name, f0). auto. }
  apply dict_mem_keys in Hk. congruence.
Qed.

Lemma poll_pass_held cfg names : forall st frames acq w st' frames' acq' w',
  incl names (cams w) -> held_ok frames w ->
  poll_pass cfg names st frames acq w = (st', frames', acq', w') ->
  held_ok frames' w'.
Proof.
  induction names as [|name rest IH];
    intros st frames acq w st' frames' acq' w' Hn Hok H; simpl in H.
  - injection H as <- <- <- <-. exact Hok.
  - assert (Hname : In name (cams w)) by (apply Hn; now left).
    assert (Hrest : incl rest (cams w)) by (intros x Hx; apply Hn; now right).
    destruct (dict_mem name frames) eqn:Hm; [eauto|].
    destruct (queue_poll name w) as [[f w1]|] eqn:Hpoll; [|eauto].
    pose proof (queue_poll_spec _ _ _ _ Hpoll) as (_ & _ & _ & Hc & _).
    destruct (_ <? _)%Z.
    + eapply IH; [| |exact H].
      * now rewrite Hc.
      * eapply held_ok_drop; eauto.
    + eapply IH; [| |exact H].
      * destruct (headless cfg); unfold cams in *; simpl; now rewrite Hc.
      * assert (Hok1 : held_ok (dict_set name f frames) w1)
          by (eapply held_ok_pop; eauto).
        destruct (headless cfg); auto.
Qed.

Lemma collect_frames_held cfg start fuel : forall st frames w,
  held_ok frames w ->
  match collect_frames cfg fuel start st frames w with
  | Collected st' frames' w' => held_ok frames' w'
  | _ => True
  end.
Proof.
  induction fuel as [|fuel IH]; intros st frames w Hok; simpl; auto.
  destruct (poll_pass cfg (cams w) st frames false w)
    as [[[st1 frames1] acq] w1] eqn:Hpass.
  apply poll_pass_held in Hpass; auto using incl_refl.
  destruct (wait_all cfg); simpl; auto.
  pose proof (time_time_queues w1) as Hq2.
  destruct (time_time w1) as [now w2]. simpl in Hq2.
  assert (Hok2 : held_ok frames1 w2) by (eapply held_ok_queues; eauto).
  destruct (_ || _); simpl.
  { destruct (_ && _); exact Hok2. }
  set (w3 := if acq then w2 else time_sleep (5 # 1000) w2).
  assert (Hok3 : held_ok frames1 w3).
  { subst w3. destruct acq; exact Hok2. }
  destruct (headless cfg); [apply IH; auto|].
  pose proof (wait_key_queues w3) as Hq4.
  destruct (wait_key w3) as [key w4]. simpl in Hq4.
  destruct (is_quit_key key); auto.
  apply IH. eapply held_ok_queues; eauto.
Qed.

Lemma refresh_held names : forall captured w,
  incl names (cams w) -> held_ok captured w ->
  held_ok (fst (refresh names captured w)) (snd (refresh names captured w)).
Proof.
  induction names as [|sock rest IH]; intros captured w Hn Hok; simpl; auto.
  assert (Hsock : In sock (cams w)) by (apply Hn; now left).
  assert (Hrest : incl rest (cams w)) by (intros x Hx; apply Hn; now right).
  destruct (queue_poll sock w) as [[f w1]|] eqn:Hpoll; [|auto].
  pose proof (queue_poll_spec _ _ _ _ Hpoll) as (_ & _ & _ & Hc & _).
  apply IH.
  - now rewrite Hc.
  - eapply held_ok_pop; eauto.
Qed.

Lemma brightness_loop_held cfg fuel : forall attempt captured w,
  held_ok captured w ->
  res_sat (fun r => held_ok (fst r) (snd r)) (fun _ => True)
          (brightness_loop cfg fuel attempt captured w).
Proof.
  induction fuel as [|fuel IH]; intros attempt captured w Hok; simpl.
  - destruct (min_brightness cfg); [destruct (_ <=? _)%Z|]; simpl; auto.
  - destruct (min_brightness cfg) as [min_b|]; [|exact Hok].
    destruct (_ <=? _)%Z; [|exact Hok].
    destruct (nonempty _); simpl; [|exact Hok].
    destruct (_ >? _)%Z; simpl.
    { eapply held_ok_queues; [|exact Hok]. reflexivity. }
    destruct (Qltb (brightness_wait cfg) 0); simpl; auto.
    match goal with
    | |- context [refresh ?n ?c ?w0] =>
        pose proof (refresh_held n c w0 (incl_refl _)) as Hr;
        destruct (refresh n c w0) as [captured1 w3]
    end.
    apply IH. apply Hr. eapply held_ok_queues; [|exact Hok]. reflexivity.
Qed.

Lemma sharpness_check_held cfg fuel captured w :
  held_ok captured w ->
  res_sat (fun r => held_ok (fst r) (snd r)) (fun _ => True)
          (sharpness_check cfg fuel captured w).
Proof.
  unfold sharpness_check. destruct (min_sharpness cfg) as [min_s|]; [|auto].
  generalize 0%Z as attempts. revert captured w.
  induction fuel as [|fuel IH]; intros captured w attempts Hok; simpl.
  - destruct (_ <? _)%Z; simpl; auto.
  - destruct (_ <? _)%Z; [|exact Hok].
    destruct (nonempty _); [|exact Hok].
    destruct (Qltb _ _).
    2:{ eapply held_ok_queues; [|exact Hok]. reflexivity. }
    match goal with
    | |- context [refresh ?n ?c ?w0] =>
        pose proof (refresh_held n c w0 (incl_refl _)) as Hr;
        destruct (refresh n c w0) as [captured1 w3]
    end.
    apply IH. apply Hr. eapply held_ok_queues; [|exact Hok]. reflexivity.
Qed.


Lemma capture_batch_held cfg fuel st frames w o w' :
  held_ok frames w ->
  capture_batch cfg fuel st frames w = o -> world_of o = Some w' ->
  exists new, w_trace w' = w_trace w ++ new /\ held_ok (writes new) w'.
Proof.
  unfold capture_batch. intros Hok H Hw.
  destruct (nonempty (lacking_of cfg st w)) eqn:Hl.
  { subst o. injection Hw as <-. eexists. split; [reflexivity|].
    apply held_ok_nil. }
  pose proof (brightness_loop_gated cfg fuel 0 frames w) as Hb.
  pose proof (brightness_loop_held cfg fuel 0 frames w Hok) as Hbh.
  destruct (brightness_loop cfg fuel 0 frames w) as [[captured1 w1]|wx|];
    simpl in Hb, Hbh.
  - destruct Hb as ((C1 & g1 & E1 & F1) & K1). simpl in *.
    pose proof (sharpness_check_gated cfg fuel captured1 w1) as Hs.
    pose proof (sharpness_check_held cfg fuel captured1 w1 Hbh) as Hsh.
    destruct (sharpness_check cfg fuel captured1 w1) as [[captured2 w2]|wx|];
      simpl in Hs, Hsh.
    + destruct Hs as ((C2 & g2 & E2 & F2) & K2). simpl in *.
      exists (batch_events cfg st (g1 ++ g2) captured2).
      assert (F12 : Forall gate_event (g1 ++ g2)) by (apply Forall_app; auto).
      rewrite (writes_batch_events cfg st (g1 ++ g2) captured2 F12).
      unfold batch_events.
      destruct (one_shot cfg); subst o; injection Hw as <-; split.
      * simpl. rewrite write_batch_trace. simpl. rewrite E2, E1.
        rewrite <- ?app_assoc. simpl. rewrite <- ?app_assoc. reflexivity.
      * eapply held_ok_queues; [|exact Hsh]. simpl.
        now rewrite write_batch_queues.
      * simpl. rewrite write_batch_trace. simpl. rewrite E2, E1.
        rewrite <- ?app_assoc. simpl. rewrite ?app_nil_r. reflexivity.
      * eapply held_ok_queues; [|exact Hsh].
        now rewrite write_batch_queues.
    + subst o. injection Hw as <-. destruct Hs as (C2 & g2 & E2 & F2).
      exists (g1 ++ g2). split; [rewrite E2, E1; now rewrite app_assoc|].
      rewrite writes_no_write; [apply held_ok_nil|].
      apply Forall_impl with (P := gate_event); [apply gate_no_write|].
      apply Forall_app. auto.
    + subst o. discriminate.
  - subst o. injection Hw as <-. destruct Hb as (C1 & g1 & E1 & F1).
    exists g1. split; auto.
    rewrite writes_no_write; [apply held_ok_nil|].
    apply Forall_impl with (P := gate_event); [apply gate_no_write|exact F1].
  - subst o. discriminate.
Qed.

Lemma cycle_held cfg fuel st w o w' :
  cycle cfg fuel st w = o -> world_of o = Some w' ->
  held_ok (writes (events_since w w')) w'.
Proof.
  unfold cycle. intros H Hw.
  pose proof (time_time_trace w) as Ht0.
  pose proof (time_time_queues w) as Hq0.
  destruct (time_time w) as [start w0]. simpl in Ht0, Hq0.
  pose proof (collect_frames_grows cfg start fuel st [] w0) as Hcol.
  pose proof (collect_frames_held cfg start fuel st [] w0 (held_ok_nil w0)) as Hh.
  destruct (collect_frames cfg fuel start st [] w0) as [st1 frames w1|w1|];
    simpl in Hcol.
  - destruct Hcol as (_ & (n1 & E1 & F1) & _).
    destruct (evaluate_cases cfg fuel st1 frames w1)
      as (st2 & w2 & _ & _ & _ & _ & Hq2 & (n2 & E2 & F2) & Hcase).
    assert (F12 : Forall quiet_event (n1 ++ n2)) by (apply Forall_app; auto).
    assert (E12 : w_trace w2 = w_trace w ++ n1 ++ n2).
    { rewrite E2, E1, Ht0. now rewrite app_assoc. }
    destruct Hcase as [He | [He | (Hne & He)]]; rewrite He in H.
    + subst o. injection Hw as <-.
      rewrite (events_since_app _ _ _ E12), writes_quiet by exact F12.
      apply held_ok_nil.
    + subst o. injection Hw as <-.
      assert (E : w_trace (emit MsgQuit w2) = w_trace w ++ (n1 ++ n2) ++ [MsgQuit]).
      { simpl. rewrite E12. now rewrite <- app_assoc. }
      rewrite (events_since_app _ _ _ E), writes_app, writes_quiet by exact F12.
      simpl. apply held_ok_nil.
    + assert (Hh2 : held_ok frames w2) by (eapply held_ok_queues; eauto).
      destruct (capture_batch_held cfg fuel st2 frames w2 o w' Hh2 H Hw)
        as (n3 & E3 & Hh3).
      assert (E : w_trace w' = w_trace w ++ (n1 ++ n2) ++ n3).
      { rewrite E3, E12. now rewrite <- app_assoc. }
      rewrite (events_since_app _ _ _ E), writes_app, writes_quiet by exact F12.
      exact Hh3.
  - destruct Hcol as (st1 & frames1 & wq & (_ & (n1 & E1 & F1) & _) & ->).
    subst o. injection Hw as <-.
    assert (E : w_trace (emit MsgQuit wq) = w_trace w ++ n1 ++ [MsgQuit]).
    { simpl. rewrite E1, Ht0. now rewrite <- app_assoc. }
    rewrite (events_since_app _ _ _ E), writes_app, writes_quiet by exact F1.
    simpl. apply held_ok_nil.
  - subst o. discriminate.
Qed.

(** X5.  One iteration of the main loop writes at most one file per
    camera, and only for cameras of the pipeline (lines 316-331: the loop
    over [captured_frames], a dictionary keyed by camera name). *)
Theorem one_file_per_camera_in_a_cycle cfg fuel st w o w' :
  cycle cfg fuel st w = o -> world_of o = Some w' ->
  NoDup (map fst (writes (events_since w w'))) /\
  incl (map fst (writes (events_since w w'))) (cams w).
Proof.
  intros H Hw.
  destruct (cycle_held cfg fuel st w o w' H Hw) as (N & I & _).
  split; [exact N|].
  intros c Hc. specialize (I c Hc).
  pose proof (proj1 (cycle_writes cfg fuel st w o w' H Hw)) as E.
  now rewrite <- E.
Qed.

Lemma one_file_per_camera_in_a_cycle_witness :
  exists o w',
    cycle scenario_cfg 20 a_ready_state b_arrives_world = o /\
    world_of o = Some w' /\
    map fst (writes (events_since b_arrives_world w')) <> [] /\
    NoDup (map fst (writes (events_since b_arrives_world w'))).
Proof.
  eexists. eexists. split; [reflexivity|].
  split; [vm_compute; reflexivity|].
  split; [vm_compute; discriminate|].
  refine (proj1 (one_file_per_camera_in_a_cycle scenario_cfg 20 a_ready_state
                   b_arrives_world _ _ eq_refl _)).
  vm_compute; reflexivity.
Defined.

(** X6.  Every file an iteration writes holds the frame popped last from
    its camera's queue: whatever the brightness and sharpness retries
    popped afterwards replaced the held frame, and nothing is popped
    between the last retry and the writing (lines 284-287, 304-307,
    316-331). *)
Theorem written_frame_is_the_last_popped cfg fuel st w o w' c f :
  cycle cfg fuel st w = o -> world_of o = Some w' ->
  In (ImWrite c f) (events_since w w') ->
  S (f_seq f) = popped c w'.
Proof.
  intros H Hw Hin.
  destruct (cycle_held cfg fuel st w o w' H Hw) as (_ & _ & L).
  apply L. now apply writes_In.
Qed.


Lemma written_frame_is_the_last_popped_witness :
  exists w',
    world_of (cycle gated_cfg 20 a_ready_state dark_then_bright_world) = Some w' /\
    In (ImWrite "CAM_A" {| f_seq := 4; f_img := picture 90 80 |})
       (events_since dark_then_bright_world w') /\
    popped "CAM_A" w' = 5%nat.
Proof.
  eexists. split; [vm_compute; reflexivity|].
  match goal with
  | |- In ?e (events_since _ ?w1) /\ _ =>
      assert (Hin : In e (events_since dark_then_bright_world w1))
        by (vm_compute; auto 10)
  end.
  split; [exact Hin|].
  symmetry.
  refine (written_frame_is_the_last_popped gated_cfg 20 a_ready_state
            dark_then_bright_world _ _ _ _ eq_refl _ Hin).
  vm_compute; reflexivity.
Defined.


(** ** The sharpness gate *)

Lemma sharpness_loop_passes cfg min_s fuel : forall attempts captured w,
  (attempts <= 3)%Z ->
  (Z.to_nat (3 - attempts) <= fuel)%nat ->
  exists captured' w' passes tail,
    sharpness_loop cfg min_s fuel attempts captured w = Ok (captured', w') /\
    w_trace w' = w_trace w ++ List.concat passes ++ tail /\
    Forall (blurry_pass min_s) passes /\
    (Z.of_nat (List.length passes) + attempts <= 3)%Z /\
    ((sharp_values_of cfg captured' <> [] /\
      Qltb (average (sharp_values_of cfg captured')) min_s = false /\
      tail = [MsgSharpOk (average (sharp_values_of cfg captured'))]) \/
     (tail = [] /\
      (sharp_values_of cfg captured' = [] \/
       (Z.of_nat (List.length passes) + attempts = 3)%Z))).
Proof.
  induction fuel as [|fuel IH]; intros attempts captured w Hle Hfuel; simpl.
  - destruct (attempts <? 3)%Z eqn:E; [apply Z.ltb_lt in E; lia|].
    apply Z.ltb_ge in E.
    exists captured, w, [], []. simpl. rewrite app_nil_r.
    repeat split; auto; try lia. right. split; auto. right. lia.
  - destruct (attempts <? 3)%Z eqn:E.
    2:{ apply Z.ltb_ge in E.
        exists captured, w, [], []. simpl. rewrite app_nil_r.
        repeat split; auto; try lia. right. split; auto. right. lia. }
    apply Z.ltb_lt in E.
    destruct (sharp_values_of cfg captured) as [|v vs] eqn:Hv; simpl.
    { exists captured, w, [], []. simpl. rewrite app_nil_r.
      repeat split; auto; try lia. }
    destruct (Qltb (average (v :: vs)) min_s) eqn:Hb.
    2:{ exists captured, (emit (MsgSharpOk (average (v :: vs))) w), [],
          [MsgSharpOk (average (v :: vs))].
        rewrite Hv. simpl. repeat split; auto; try lia.
        left. repeat split; auto. discriminate. }
    match goal with
    | |- context [refresh ?n ?c ?w0] =>
        destruct (refresh_pops n c w0) as (pops & Ep & Fp);
        destruct (refresh n c w0) as [captured1 w3]
    end.
    simpl in Ep.
    destruct (IH (attempts + 1)%Z captured1 w3)
      as (captured' & w' & passes & tail & Eloop & Etr & Fpass & Hlen & Hfin);
      [lia|lia|].
    exists captured', w',
      ((MsgBlurryRetry (average (v :: vs)) min_s :: Sleep (3#10) :: pops) :: passes),
      tail.
    split; [exact Eloop|]. split.
    { rewrite Etr, Ep. simpl. rewrite <- !app_assoc. reflexivity. }
    split.
    { constructor; auto. exists (average (v :: vs)), pops. auto. }
    split.
    { simpl List.length. lia. }
    destruct Hfin as [Hok | (Ht & [Hn | Hn])]; [now left| |].
    + right. auto.
    + right. split; auto. right. simpl List.length. lia.
Qed.

(** X7.  With [min_sharpness] set, the sharpness gate always returns and
    never raises; it makes at most three retries, each one the notice with
    an average below the threshold, a sleep of 0.3 s and the re-poll; it
    ends with the report of an average that is not below the threshold,
    or, without any report, when there is nothing to measure or the third
    retry has been made (lines 290-314). *)
Theorem sharpness_gate_at_most_three_retries cfg min_s fuel captured w :
  min_sharpness cfg = Some min_s ->
  (3 <= fuel)%nat ->
  exists captured' w' passes tail,
    sharpness_check cfg fuel captured w = Ok (captured', w') /\
    events_since w w' = List.concat passes ++ tail /\
    Forall (blurry_pass min_s) passes /\
    (List.length passes <= 3)%nat /\
    ((sharp_values_of cfg captured' <> [] /\
      Qltb (average (sharp_values_of cfg captured')) min_s = false /\
      tail = [MsgSharpOk (average (sharp_values_of cfg captured'))]) \/
     (tail = [] /\
      (sharp_values_of cfg captured' = [] \/ List.length passes = 3%nat))).
Proof.
  intros Hmin Hfuel. unfold sharpness_check. rewrite Hmin.
  destruct (sharpness_loop_passes cfg min_s fuel 0 captured w)
    as (captured' & w' & passes & tail & Eloop & Etr & Fpass & Hlen & Hfin);
    [lia|simpl; lia|].
  exists captured', w', passes, tail.
  split; [exact Eloop|].
  split; [now apply events_since_app|].
  split; [exact Fpass|].
  split; [lia|].
  destruct Hfin as [Hok | (Ht & [Hn | Hn])]; auto.
  right. split; auto. right. lia.
Qed.

Lemma sharpness_gate_at_most_three_retries_witness :
  exists captured' w' passes,
    sharpness_check blurry_cfg 3 blurred_frames blurred_world = Ok (captured', w') /\
    events_since blurred_world w' = List.concat passes /\
    List.length passes = 3%nat.
Proof.
  destruct (sharpness_gate_at_most_three_retries blurry_cfg 50 3 blurred_frames
              blurred_world eq_refl (le_n 3))
    as (captured' & w' & passes & tail & E & Ev & F & Hlen & Hfin).
  exists captured', w', passes. split; [exact E|].
  vm_compute in E. injection E as <- <-.
  destruct Hfin as [(_ & Hb & _) | (Ht & [Hn | Hn])].
  - vm_compute in Hb. discriminate.
  - vm_compute in Hn. discriminate.
  - subst tail. rewrite app_nil_r in Ev. split; [exact Ev|exact Hn].
Defined.


(** ** Brightness of the files written *)

(** One iteration of the main loop is the wait loop, which adds quiet
    events only, and then nothing more, a quit, or one capture attempt. *)
Lemma cycle_split cfg fuel st w o w' :
  cycle cfg fuel st w = o -> world_of o = Some w' ->
  exists pre,
    Forall quiet_event pre /\
    (events_since w w' = pre \/
     events_since w w' = pre ++ [MsgQuit] \/
     exists st1 frames w2,
       w_trace w2 = w_trace w ++ pre /\ cams w2 = cams w /\
       capture_count st1 = capture_count st /\
       capture_batch cfg fuel st1 frames w2 = o).
Proof.
  unfold cycle. intros H Hw.
  pose proof (time_time_trace w) as Ht0.
  pose proof (time_time_cams w) as Hc0.
  destruct (time_time w) as [start w0]. simpl in Ht0, Hc0.
  pose proof (collect_frames_grows cfg start fuel st [] w0) as Hcol.
  destruct (collect_frames cfg fuel start st [] w0) as [st1 frames w1|w1|];
    simpl in Hcol.
  - destruct Hcol as (Hc1 & (n1 & E1 & F1) & Hcc1 & _).
    destruct (evaluate_cases cfg fuel st1 frames w1)
      as (st2 & w2 & _ & _ & Hcc2 & Hc2 & _ & (n2 & E2 & F2) & Hcase).
    assert (F12 : Forall quiet_event (n1 ++ n2)) by (apply Forall_app; auto).
    assert (E12 : w_trace w2 = w_trace w ++ n1 ++ n2).
    { rewrite E2, E1, Ht0. now rewrite app_assoc. }
    exists (n1 ++ n2). split; [exact F12|].
    destruct Hcase as [He | [He | (Hne & He)]]; rewrite He in H.
    + subst o. injection Hw as <-. left. now apply events_since_app.
    + subst o. injection Hw as <-. right. left. apply events_since_app.
      simpl. rewrite E12. now rewrite <- app_assoc.
    + right. right. exists st2, frames, w2.
      split; [exact E12|]. split; [congruence|]. split; [congruence|exact H].
  - destruct Hcol as (st1 & frames1 & wq & (_ & (n1 & E1 & F1) & _) & ->).
    subst o. injection Hw as <-.
    exists n1. split; [exact F1|]. right. left. apply events_since_app.
    simpl. rewrite E1, Ht0. now rewrite <- app_assoc.
  - subst o. discriminate.
Qed.

Lemma too_dark_of_nil min_b captured :
  too_dark_of min_b captured = [] ->
  forall c f, In (c, f) captured -> (min_b <= gray_mean (f_img f))%Q.
Proof.
  unfold too_dark_of. intros E c f Hin. apply Qltb_ge.
  destruct (Qltb (gray_mean (f_img f)) min_b) eqn:Hb; auto.
  assert (Hf : In (c, f) (filter (fun sf => Qltb (gray_mean (f_img (snd sf))) min_b)
                                 captured)).
  { apply filter_In. auto. }
  apply (in_map (fun sf => (fst sf, gray_mean (f_img (snd sf))))) in Hf.
  rewrite E in Hf. destruct Hf.
Qed.

(** The brightness loop, entered with retries left, returns either frames
    that all meet the threshold or after the report that some stay dark. *)
Lemma brightness_loop_bright cfg min_b fuel : forall attempt captured w,
  min_brightness cfg = Some min_b ->
  (attempt <= brightness_retry cfg)%Z ->
  res_sat (fun r =>
             exists new, w_trace (snd r) = w_trace w ++ new /\
               (too_dark_of min_b (fst r) = [] \/
                exists l, In (MsgStillDark (brightness_retry cfg) l) new))
          (fun _ => True)
          (brightness_loop cfg fuel attempt captured w).
Proof.
  induction fuel as [|fuel IH]; intros attempt captured w Hmin Hle; simpl;
    rewrite Hmin;
    (destruct (attempt <=? brightness_retry cfg)%Z eqn:Hc;
     [|apply Z.leb_gt in Hc; lia]).
  { exact I. }
  destruct (too_dark_of min_b captured) as [|d ds] eqn:Hdark; simpl.
  { exists []. rewrite app_nil_r. auto. }
  destruct (attempt + 1 >? brightness_retry cfg)%Z eqn:Hgt; simpl.
  { eexists. split; [reflexivity|]. right. exists (d :: ds). now left. }
  assert (Hlt : (attempt + 1 <= brightness_retry cfg)%Z).
  { destruct (Z.gtb_spec (attempt + 1) (brightness_retry cfg)); [discriminate|lia]. }
  destruct (Qltb (brightness_wait cfg) 0); simpl; auto.
  match goal with
  | |- context [refresh ?n ?c ?w0] =>
      destruct (refresh_pops n c w0) as (pops & Ep & Fp);
      destruct (refresh n c w0) as [captured1 w3]
  end.
  simpl in Ep.
  specialize (IH (attempt + 1)%Z captured1 w3 Hmin Hlt).
  destruct (brightness_loop cfg fuel (attempt + 1) captured1 w3) as [r|wx|];
    simpl in *; auto.
  destruct IH as (new & E & Hcase).
  eexists. split; [rewrite E, Ep; rewrite <- !app_assoc; reflexivity|].
  destruct Hcase as [Hok | (l & Hin)]; [now left|].
  right. exists l. apply in_or_app. right. simpl. right.
  apply in_or_app. now right.
Qed.

Lemma capture_batch_bright cfg min_b fuel st frames w o w' :
  min_brightness cfg = Some min_b -> min_sharpness cfg = None ->
  (0 <= brightness_retry cfg)%Z ->
  capture_batch cfg fuel st frames w = o -> world_of o = Some w' ->
  exists new, w_trace w' = w_trace w ++ new /\
    ((forall c f, In (c, f) (writes new) -> (min_b <= gray_mean (f_img f))%Q) \/
     exists l, In (MsgStillDark (brightness_retry cfg) l) new).
Proof.
  unfold capture_batch. intros Hmin Hsharp Hretry H Hw.
  destruct (nonempty (lacking_of cfg st w)) eqn:Hl.
  { subst o. injection Hw as <-. eexists. split; [reflexivity|].
    left. intros c f []. }
  pose proof (brightness_loop_gated cfg fuel 0 frames w) as Hb.
  pose proof (brightness_loop_bright cfg min_b fuel 0 frames w Hmin Hretry) as Hbb.
  destruct (brightness_loop cfg fuel 0 frames w) as [[captured1 w1]|wx|];
    simpl in Hb, Hbb.
  - destruct Hbb as (g1 & E1 & Hcase). simpl in *.
    unfold sharpness_check in H. rewrite Hsharp in H.
    exists (batch_events cfg st g1 captured1).
    assert (F1 : Forall gate_event g1).
    { destruct Hb as ((_ & g & Eg & Fg) & _). simpl in Eg.
      rewrite E1 in Eg. apply app_inv_head in Eg. now subst g. }
    split.
    + unfold batch_events.
      destruct (one_shot cfg); subst o; injection Hw as <-; simpl;
        rewrite write_batch_trace; simpl; rewrite E1;
        rewrite <- ?app_assoc; simpl; rewrite ?app_nil_r; reflexivity.
    + destruct Hcase as [Hok | (l & Hin)].
      * left. rewrite (writes_batch_events cfg st g1 captured1 F1).
        now apply too_dark_of_nil.
      * right. exists l. unfold batch_events. apply in_or_app. now left.
  - subst o. injection Hw as <-. destruct Hb as (C1 & g1 & E1 & F1).
    exists g1. split; auto. left.
    rewrite writes_no_write; [intros c f []|].
    apply Forall_impl with (P := gate_event); [apply gate_no_write|exact F1].
  - subst o. discriminate.
Qed.

(** X8.  With [min_brightness] set, a retry count that is not negative and
    no sharpness gate, a file written by an iteration holds a frame that
    meets the brightness threshold, unless that iteration reported that
    frames stay dark after the last retry (lines 268-287, 316-331). *)
Theorem written_frame_is_bright_unless_reported cfg min_b fuel st w o w' c f :
  min_brightness cfg = Some min_b -> min_sharpness cfg = None ->
  (0 <= brightness_retry cfg)%Z ->
  cycle cfg fuel st w = o -> world_of o = Some w' ->
  In (ImWrite c f) (events_since w w') ->
  (min_b <= gray_mean (f_img f))%Q \/
  exists l, In (MsgStillDark (brightness_retry cfg) l) (events_since w w').
Proof.
  intros Hmin Hsharp Hretry H Hw Hin.
  destruct (cycle_split cfg fuel st w o w' H Hw) as (pre & Fpre & Hcase).
  assert (Hpre : ~ In (ImWrite c f) pre).
  { intros Hp. rewrite Forall_forall in Fpre. exact (Fpre _ Hp). }
  destruct Hcase as [E | [E | (st1 & frames & w2 & E2 & _ & _ & Hb)]].
  - rewrite E in Hin. contradiction.
  - rewrite E in Hin. apply in_app_or in Hin.
    destruct Hin as [Hp | [Hq | []]]; [contradiction|discriminate].
  - destruct (capture_batch_bright cfg min_b fuel st1 frames w2 o w'
                Hmin Hsharp Hretry Hb Hw) as (new & E & Hcase).
    assert (Ev : events_since w w' = pre ++ new).
    { apply events_since_app. rewrite E, E2. now rewrite app_assoc. }
    rewrite Ev in Hin |- *. apply in_app_or in Hin.
    destruct Hin as [Hp | Hn]; [contradiction|].
    destruct Hcase as [Hok | (l & Hl)].
    + left. apply (Hok c f). now apply writes_In.
    + right. exists l. apply in_or_app. now right.
Qed.

Lemma written_frame_is_bright_unless_reported_witness :
  exists w',
    world_of (cycle gated_cfg 20 a_ready_state dark_then_bright_world) = Some w' /\
    In (ImWrite "CAM_A" {| f_seq := 4; f_img := picture 90 80 |})
       (events_since dark_then_bright_world w') /\
    ((40 <= 90)%Q \/
     exists l, In (MsgStillDark 2 l) (events_since dark_then_bright_world w')).
Proof.
  eexists. split; [vm_compute; reflexivity|].
  match goal with
  | |- In ?e (events_since _ ?w1) /\ _ =>
      assert (Hin : In e (events_since dark_then_bright_world w1))
        by (vm_compute; auto 10)
  end.
  split; [exact Hin|].
  refine (written_frame_is_bright_unless_reported gated_cfg 40 20 a_ready_state
            dark_then_bright_world _ _ _ _ eq_refl eq_refl _ eq_refl _ Hin).
  - vm_compute. discriminate.
  - vm_compute; reflexivity.
Defined.


(** ** Properties of whole runs *)

(** A property of the events of every iteration, kept by concatenation,
    holds of the events of a run of the main loop.  [cs] is the list of
    cameras, which no iteration changes. *)
Lemma main_loop_events cfg fuel (P : list event -> Prop) (cs : list string) :
  P [] ->
  (forall a b, P a -> P b -> P (a ++ b)) ->
  (forall st w o w', cams w = cs -> cycle cfg fuel st w = o ->
                     world_of o = Some w' -> P (events_since w w')) ->
  forall n st w o w',
    cams w = cs -> main_loop cfg fuel n st w = o -> world_of o = Some w' ->
    P (events_since w w').
Proof.
  intros Hnil Happ Hcyc. induction n as [|n IH]; intros st w o w' Hcs H Hw;
    simpl in H.
  { subst o. injection Hw as <-.
    rewrite (events_since_app w w []) by now rewrite app_nil_r. exact Hnil. }
  destruct (cycle cfg fuel st w) as [st1 w1|st1 w1|w1|w1|] eqn:Hc;
    try (subst o; apply (Hcyc st w _ w' Hcs Hc Hw)).
  - destruct (cycle_writes cfg fuel st w _ w1 Hc eq_refl) as (Hc1 & n1 & E1 & _).
    assert (P1 : P (events_since w w1)) by (apply (Hcyc st w _ w1 Hcs Hc eq_refl)).
    assert (P2 : P (events_since w1 w')).
    { apply (IH st1 w1 o w'); auto. congruence. }
    destruct (main_loop_batches cfg fuel n st1 w1 o w' H Hw) as (n2 & _ & E2 & _).
    rewrite (events_since_app _ _ _ E1) in P1.
    rewrite (events_since_app _ _ _ E2) in P2.
    rewrite (events_since_app w w' (n1 ++ n2)).
    + now apply Happ.
    + rewrite E2, E1. now rewrite app_assoc.
Qed.

Lemma cycle_batch_size cfg fuel st w o w' :
  cycle cfg fuel st w = o -> world_of o = Some w' ->
  (List.length (saved (events_since w w'))
   <= List.length (writes (events_since w w')))%nat /\
  (List.length (writes (events_since w w'))
   <= List.length (cams w) * List.length (saved (events_since w w')))%nat.
Proof.
  intros H Hw.
  destruct (cycle_held cfg fuel st w o w' H Hw) as (N & I & _).
  pose proof (proj1 (cycle_writes cfg fuel st w o w' H Hw)) as Hc.
  rewrite Hc in I. apply NoDup_incl_length in I; [|exact N].
  unfold dict_keys in I. rewrite length_map in I.
  destruct (cycle_cases cfg fuel st w o w' H Hw)
    as (st1 & pre & post & E & Fpre & _ & Hcase).
  rewrite (events_since_app _ _ _ E) in *.
  rewrite saved_app, writes_app, saved_quiet, writes_quiet in * by assumption.
  simpl in *.
  destruct Hcase as [(-> & _) | [(-> & _) | [(l & -> & _) | [(Fg & _) | (gate & captured & -> & Fg & Hne & _)]]]];
    simpl; try lia.
  - rewrite saved_gate, writes_no_write; simpl; try lia; auto.
    apply Forall_impl with (P := gate_event); [apply gate_no_write|exact Fg].
  - rewrite saved_batch_events, writes_batch_events in * by assumption.
    simpl. destruct captured; [congruence|]. simpl in *. lia.
Qed.

(** X9.  In a run of the main loop, every batch announced has at least one
    file and at most one file per camera: the files written are at least
    as many as the batches, and at most the batches times the cameras
    (lines 256, 316-331). *)
Theorem every_batch_has_between_one_and_all_cameras cfg fuel n st w o w' :
  main_loop cfg fuel n st w = o -> world_of o = Some w' ->
  (List.length (saved (events_since w w'))
   <= List.length (writes (events_since w w')))%nat /\
  (List.length (writes (events_since w w'))
   <= List.length (cams w) * List.length (saved (events_since w w')))%nat.
Proof.
  intros H Hw.
  apply (main_loop_events cfg fuel
           (fun ev => (List.length (saved ev) <= List.length (writes ev))%nat /\
                      (List.length (writes ev)
                       <= List.length (cams w) * List.length (saved ev))%nat)
           (cams w)) with (n := n) (st := st) (o := o); auto.
  - simpl. lia.
  - intros a b (A1 & A2) (B1 & B2).
    rewrite saved_app, writes_app, !length_app. split; [lia|nia].
  - intros st0 w0 o0 w0' Hcs H0 Hw0. rewrite <- Hcs.
    now apply (cycle_batch_size cfg fuel st0 w0 o0 w0').
Qed.

Lemma every_batch_has_between_one_and_all_cameras_witness :
  exists o w',
    main_loop auto_cfg 20 3 init_state steady_world = o /\
    world_of o = Some w' /\
    (List.length (saved (events_since steady_world w'))
     <= List.length (writes (events_since steady_world w')))%nat.
Proof.
  eexists. eexists. split; [reflexivity|].
  split; [vm_compute; reflexivity|].
  refine (proj1 (every_batch_has_between_one_and_all_cameras auto_cfg 20 3
                   init_state steady_world _ _ eq_refl _)).
  vm_compute; reflexivity.
Defined.


(** ** Cameras the focus phase does not target *)

Lemma untouched_refl c w : untouched c w w.
Proof. reflexivity. Qed.

Lemma untouched_trans c w1 w2 w3 :
  untouched c w1 w2 -> untouched c w2 w3 -> untouched c w1 w3.
Proof. unfold untouched. congruence. Qed.

Lemma untouched_queues c w w' : w_queues w' = w_queues w -> untouched c w w'.
Proof. unfold untouched. congruence. Qed.

Lemma queue_poll_untouched c name w f w' :
  c <> name -> queue_poll name w = Some (f, w') -> untouched c w w'.
Proof.
  unfold queue_poll, untouched. intros Hne H.
  destruct (dict_get name (w_queues w)) as [q|]; [|discriminate].
  destruct (q_pending q) as [|[arrival img] rest]; [discriminate|].
  destruct (Qle_bool arrival (w_time w)); [|discriminate].
  injection H as _ <-. simpl. now apply dict_get_set_other.
Qed.

Lemma wait_frame_untouched c name window w o w' :
  c <> name -> wait_frame name window w = (o, w') -> untouched c w w'.
Proof.
  unfold wait_frame. intros Hne. pose proof (time_time_queues w) as Hq.
  destruct (time_time w) as [eval_start w1]. simpl in Hq.
  destruct (dict_get name (w_queues w1)) as [q|].
  - destruct (q_pending q) as [|[arrival img] rest].
    + intros H. injection H as <- <-. now apply untouched_queues.
    + destruct (Qltb arrival (eval_start + window)).
      * intros H. injection H as <- <-. unfold untouched. simpl.
        rewrite dict_get_set_other by assumption. now rewrite Hq.
      * intros H. injection H as <- <-. now apply untouched_queues.
  - intros H. injection H as <- <-. now apply untouched_queues.
Qed.

Lemma drain_untouched c rounds name t0 : forall w,
  c <> name -> untouched c w (drain rounds name t0 w).
Proof.
  induction rounds as [|rounds IH]; intros w Hne; simpl.
  - apply untouched_refl.
  - pose proof (time_time_queues w) as Hq.
    destruct (time_time w) as [now w1]. simpl in Hq.
    apply (untouched_queues c) in Hq.
    destruct (Qltb (now - t0) 1); auto.
    destruct (queue_poll name w1) as [[f w2]|] eqn:Hpoll; auto.
    apply (queue_poll_untouched c) in Hpoll; auto.
    eapply untouched_trans; [exact Hq|].
    eapply untouched_trans; [exact Hpoll|now apply IH].
Qed.

Lemma scan_positions_untouched c node name positions :
  forall bv bp w bv' bp' w',
    c <> name ->
    scan_positions node name positions bv bp w = (bv', bp', w') ->
    untouched c w w'.
Proof.
  induction positions as [|pos rest IH]; intros bv bp w bv' bp' w' Hne H;
    simpl in H.
  - injection H as <- <- <-. apply untouched_refl.
  - destruct (set_focus node name pos w) as [w1|] eqn:Hset.
    + apply set_focus_queues in Hset. apply (untouched_queues c) in Hset.
      destruct (wait_frame name (1 # 2) (time_sleep (15 # 100) w1))
        as [[frame_eval|] w3] eqn:Hwait;
        apply (wait_frame_untouched c) in Hwait; auto.
      * assert (U3 : untouched c w
                       (emit (MsgPos pos (laplacian_var (f_img frame_eval))) w3)).
        { eapply untouched_trans; [exact Hset|]. exact Hwait. }
        destruct (Qltb bv _); apply IH in H; auto;
          eapply untouched_trans; eauto.
      * apply IH in H; auto. eapply untouched_trans; [exact Hset|].
        eapply untouched_trans; [exact Hwait|exact H].
    + apply IH in H; auto.
Qed.

Lemma focus_scan_cam_untouched c node name positions w :
  c <> name -> untouched c w (focus_scan_cam node name positions w).
Proof.
  intros Hne. unfold focus_scan_cam.
  pose proof (time_time_queues (emit (MsgScanning name) w)) as Hq.
  destruct (time_time (emit (MsgScanning name) w)) as [t0 w1]. simpl in Hq.
  apply (untouched_queues c) in Hq.
  pose proof (drain_untouched c (S (pending_count name w1)) name t0 w1 Hne) as Hd.
  set (w2 := drain (S (pending_count name w1)) name t0 w1) in *.
  destruct (scan_positions node name positions (-1) None w2)
    as [[bv bp] w3] eqn:Hscan.
  apply (scan_positions_untouched c) in Hscan; auto.
  assert (U3 : untouched c w w3).
  { eapply untouched_trans; [exact Hq|]. eapply untouched_trans; eauto. }
  destruct bp as [pos|]; [|exact U3].
  destruct (set_focus node name pos (emit (MsgBestFocus name pos bv) w3))
    as [w5|] eqn:Hset; [|exact U3].
  apply set_focus_queues in Hset.
  eapply untouched_trans; [exact U3|]. now apply untouched_queues.
Qed.

Lemma scan_event_leaves_alone c name e :
  c <> name -> scan_event name e -> leaves_alone c e.
Proof. intros Hne. destruct e; simpl; auto; intros ->; auto. Qed.

Lemma focus_scan_cams_untargeted c cam_nodes positions targets : forall w,
  ~ In c targets ->
  untouched c w (focus_scan_cams cam_nodes positions targets w) /\
  trace_ext (leaves_alone c) w (focus_scan_cams cam_nodes positions targets w).
Proof.
  induction targets as [|t rest IH]; intros w Hnot; simpl.
  - split; [apply untouched_refl|apply trace_ext_refl].
  - assert (Hne : c <> t) by (intros ->; apply Hnot; now left).
    assert (Hrest : ~ In c rest) by (intros H; apply Hnot; now right).
    destruct (dict_get t cam_nodes) as [node|].
    + destruct (supported node); simpl.
      * destruct (IH (focus_scan_cam node t positions w) Hrest) as (U & T). split.
        -- apply (untouched_trans c w (focus_scan_cam node t positions w));
             [now apply focus_scan_cam_untouched|exact U].
        -- eapply trace_ext_trans; [|exact T].
           eapply trace_ext_weaken; [intros e; apply (scan_event_leaves_alone c t e Hne)|].
           apply focus_scan_cam_ext.
      * destruct (IH (emit (MsgNoFocusApi t) w) Hrest) as (U & T). split.
        -- exact U.
        -- eapply trace_ext_trans; [|exact T]. apply trace_ext_emit. exact I.
    + destruct (IH (emit (MsgCamNotFound t) w) Hrest) as (U & T). split.
      * exact U.
      * eapply trace_ext_trans; [|exact T]. apply trace_ext_emit. exact I.
Qed.

(** X10.  The focus phase leaves alone every camera that is not targeted:
    its queue is as it was (no frame of it is consumed), and no lens
    command is issued for it.  With [focus_only_cam] naming a camera, that
    is every other camera (lines 118-178). *)
Theorem focus_phase_leaves_untargeted_cameras cfg cam_nodes w c :
  ~ In c (target_cams cfg cam_nodes) ->
  dict_get c (w_queues (focus_scan_phase cfg cam_nodes w))
  = dict_get c (w_queues w) /\
  (forall f, ~ In (Pop c f) (events_since w (focus_scan_phase cfg cam_nodes w))) /\
  (forall m pos,
      ~ In (FocusCmd c m pos) (events_since w (focus_scan_phase cfg cam_nodes w))).
Proof.
  intros Hnot.
  assert (H : untouched c w (focus_scan_phase cfg cam_nodes w) /\
              trace_ext (leaves_alone c) w (focus_scan_phase cfg cam_nodes w)).
  { unfold focus_scan_phase. destruct (focus_scan cfg).
    - now apply focus_scan_cams_untargeted.
    - split; [apply untouched_refl|apply trace_ext_refl]. }
  destruct H as (U & T). split; [exact U|].
  apply trace_ext_since in T. rewrite Forall_forall in T.
  split.
  - intros f Hin. apply T in Hin. simpl in Hin. congruence.
  - intros m pos Hin. apply T in Hin. simpl in Hin. congruence.
Qed.

Lemma focus_phase_leaves_untargeted_cameras_witness :
  target_cams only_a_cfg two_lens_nodes = ["CAM_A"%string] /\
  popped "CAM_A" (focus_scan_phase only_a_cfg two_lens_nodes two_lens_world) = 3%nat /\
  dict_get "CAM_B" (w_queues (focus_scan_phase only_a_cfg two_lens_nodes two_lens_world))
  = dict_get "CAM_B" (w_queues two_lens_world).
Proof.
  split; [reflexivity|]. split; [vm_compute; reflexivity|].
  refine (proj1 (focus_phase_leaves_untargeted_cameras only_a_cfg two_lens_nodes
                   two_lens_world "CAM_B" _)).
  simpl. intros [E|[]]. discriminate.
Defined.


(** ** A negative wait between brightness retries *)

(** X11.  With [min_brightness] set, at least one retry allowed and a
    negative [brightness_wait], a capture attempt that holds a frame below
    the threshold fails: the retry notice is printed, [time.sleep] raises,
    and neither a batch is announced nor a file written (lines 268-283,
    339-341). *)
Theorem negative_brightness_wait_fails_the_capture cfg min_b fuel st frames w :
  min_brightness cfg = Some min_b ->
  (1 <= brightness_retry cfg)%Z ->
  (brightness_wait cfg < 0)%Q ->
  lacking_of cfg st w = [] ->
  too_dark_of min_b frames <> [] ->
  exists w',
    capture_batch cfg (S fuel) st frames w = Raised w' /\
    events_since w w' =
      [MsgDarkRetry (too_dark_of min_b frames) (brightness_wait cfg) 1
                    (brightness_retry cfg)] /\
    writes (events_since w w') = [] /\ saved (events_since w w') = [].
Proof.
  intros Hmin Hretry Hwait Hlack Hdark.
  unfold capture_batch. rewrite Hlack. simpl. rewrite Hmin.
  destruct (0 <=? brightness_retry cfg)%Z eqn:H0; [|apply Z.leb_gt in H0; lia].
  destruct (too_dark_of min_b frames) as [|d ds] eqn:Ed; [congruence|]. simpl.
  destruct (1 >? brightness_retry cfg)%Z eqn:H1.
  { apply Z.gtb_lt in H1. lia. }
  apply Qltb_lt in Hwait. rewrite Hwait.
  eexists. split; [reflexivity|].
  rewrite (events_since_app w _ [MsgDarkRetry (d :: ds) (brightness_wait cfg) 1
                                   (brightness_retry cfg)]) by reflexivity.
  auto.
Qed.

Lemma negative_brightness_wait_fails_the_capture_witness :
  exists w',
    capture_batch negative_wait_cfg 3 a_ready_state dark_frames dark_world
    = Raised w' /\
    events_since dark_world w' = [MsgDarkRetry [("CAM_A"%string, 10%Q)] (- (1#2)) 1 2].
Proof.
  destruct (negative_brightness_wait_fails_the_capture negative_wait_cfg 40 2
              a_ready_state dark_frames dark_world)
    as (w' & E & Ev & _).
  - reflexivity.
  - vm_compute. discriminate.
  - reflexivity.
  - reflexivity.
  - vm_compute. discriminate.
  - exists w'. split; [exact E|exact Ev].
Defined.

(** ** Headless runs *)

Lemma poll_pass_headless cfg names : forall st frames acq w st' frames' acq' w',
  headless cfg = true ->
  poll_pass cfg names st frames acq w = (st', frames', acq', w') ->
  trace_ext headless_event w w'.
Proof.
  induction names as [|name rest IH];
    intros st frames acq w st' frames' acq' w' Hh H; simpl in H.
  - injection H as <- <- <- <-. apply trace_ext_refl.
  - destruct (dict_mem name frames); [eauto|].
    destruct (queue_poll name w) as [[f w1]|] eqn:Hpoll; [|eauto].
    apply (trace_ext_poll headless_event) in Hpoll; [|exact I].
    rewrite Hh in H.
    destruct (_ <? _)%Z; apply IH in H; auto;
      eapply trace_ext_trans; eauto.
Qed.

Lemma collect_frames_unattended cfg start fuel : forall st frames w,
  headless cfg = true ->
  match collect_frames cfg fuel start st frames w with
  | Collected st' frames' w' => trace_ext headless_event w w'
  | CollectQuit _ => False
  | CollectFuel => True
  end.
Proof.
  induction fuel as [|fuel IH]; intros st frames w Hh; simpl; auto.
  destruct (poll_pass cfg (cams w) st frames false w)
    as [[[st1 frames1] acq] w1] eqn:Hpass.
  apply poll_pass_headless in Hpass; auto.
  destruct (wait_all cfg); simpl; auto.
  pose proof (trace_ext_time headless_event w1) as Ht2.
  destruct (time_time w1) as [now w2]. simpl in Ht2.
  assert (T2 : trace_ext headless_event w w2) by (eapply trace_ext_trans; eauto).
  destruct (_ || _); simpl.
  { destruct (_ && _); auto.
    eapply trace_ext_trans; [exact T2|]. apply trace_ext_emit. exact I. }
  set (w3 := if acq then w2 else time_sleep (5 # 1000) w2).
  assert (T3 : trace_ext headless_event w w3).
  { subst w3. destruct acq; auto.
    eapply trace_ext_trans; [exact T2|]. apply trace_ext_sleep. exact I. }
  rewrite Hh. specialize (IH st1 frames1 w3 Hh).
  destruct (collect_frames cfg fuel start st1 frames1 w3); auto.
  eapply trace_ext_trans; eauto.
Qed.

Lemma gate_headless e : gate_event e -> headless_event e.
Proof. destruct e; simpl; auto. Qed.

Lemma capture_batch_headless cfg fuel st frames w o w' :
  capture_batch cfg fuel st frames w = o -> world_of o = Some w' ->
  trace_ext headless_event w w'.
Proof.
  intros H Hw.
  destruct (capture_batch_spec cfg fuel st frames w o w' H Hw)
    as (_ & new & E & Hcase).
  exists new. split; [exact E|].
  destruct Hcase as [(_ & _ & ->) | [(_ & _ & F) | (_ & _ & gate & captured & F & _ & ->)]].
  - repeat constructor.
  - apply Forall_impl with (P := gate_event); [apply gate_headless|exact F].
  - unfold batch_events. apply Forall_app. split.
    + apply Forall_impl with (P := gate_event); [apply gate_headless|exact F].
    + constructor; [exact I|]. apply Forall_app. split.
      * apply Forall_forall. intros e Hin. apply in_map_iff in Hin.
        destruct Hin as (sf & <- & _). exact I.
      * destruct (one_shot cfg); repeat constructor.
Qed.

Lemma cycle_headless cfg fuel st w o w' :
  headless cfg = true ->
  cycle cfg fuel st w = o -> world_of o = Some w' ->
  trace_ext headless_event w w' /\ forall wq, o <> Return wq.
Proof.
  unfold cycle. intros Hh H Hw.
  pose proof (trace_ext_time headless_event w) as T0.
  destruct (time_time w) as [start w0]. simpl in T0.
  pose proof (collect_frames_unattended cfg start fuel st [] w0 Hh) as Hcol.
  destruct (collect_frames cfg fuel start st [] w0) as [st1 frames w1|w1|];
    [|contradiction|subst o; discriminate].
  unfold evaluate in H.
  pose proof (auto_trigger_spec cfg st1 frames w1) as (_ & _ & _ & _ & _ & Ht).
  destruct (auto_trigger cfg st1 frames w1) as [[do_capture st2] w2].
  simpl in Ht. rewrite Hh in H. simpl in H.
  assert (T2 : trace_ext headless_event w (time_sleep (1 # 100) w2)).
  { eapply trace_ext_trans; [exact T0|]. eapply trace_ext_trans; [exact Hcol|].
    exists [Sleep (1 # 100)]. simpl. rewrite Ht. split; auto.
    repeat constructor. }
  destruct (_ && nonempty frames).
  - split.
    + eapply trace_ext_trans; [exact T2|].
      eapply capture_batch_headless; eauto.
    + intros wq E. subst o. revert E. unfold capture_batch.
      destruct (nonempty _); [discriminate|].
      destruct (brightness_loop _ _ _ _ _) as [[c1 x1]| |]; try discriminate.
      destruct (sharpness_check _ _ _ _) as [[c2 x2]| |]; try discriminate.
      destruct (one_shot cfg); discriminate.
  - subst o. injection Hw as <-. split; [exact T2|discriminate].
Qed.

Lemma main_loop_never_returns cfg fuel n : forall st w wq,
  headless cfg = true -> main_loop cfg fuel n st w <> Return wq.
Proof.
  induction n as [|n IH]; intros st w wq Hh; simpl.
  - discriminate.
  - destruct (cycle cfg fuel st w) as [st1 x1|st1 x1|x1|x1|] eqn:Hc;
      try discriminate.
    + now apply IH.
    + intros _.
      exact (proj2 (cycle_headless cfg fuel st w _ x1 Hh Hc eq_refl) x1 eq_refl).
Qed.

(** X12.  A headless run shows no frame and never ends by a quit: no
    [imshow], no farewell message, and [main] does not return through the
    key test of the wait loop (lines 204-216, 229-232, 242-251). *)
Theorem headless_run_shows_nothing_and_never_quits cfg cam_nodes fuel n w o w' :
  headless cfg = true ->
  main cfg cam_nodes fuel n w = o -> world_of o = Some w' ->
  (forall name f, ~ In (ImShow name f) (events_since w w')) /\
  ~ In MsgQuit (events_since w w') /\
  forall wq, o <> Return wq.
Proof.
  intros Hh H Hw. unfold main in H.
  destruct (focus_scan_phase_later cfg cam_nodes w) as (_ & (n1 & E1 & F1)).
  set (w1 := focus_scan_phase cfg cam_nodes w) in *.
  assert (F2 : Forall headless_event (events_since w1 w')).
  { apply (main_loop_events cfg fuel (Forall headless_event) (cams w1))
      with (n := n) (st := init_state) (o := o); auto.
    - intros a b Fa Fb. apply Forall_app. auto.
    - intros st0 w0 o0 w0' _ H0 Hw0. apply trace_ext_since.
      apply (cycle_headless cfg fuel st0 w0 o0 w0' Hh H0 Hw0). }
  destruct (main_loop_batches cfg fuel n init_state w1 o w' H Hw)
    as (n2 & _ & E2 & _).
  rewrite (events_since_app _ _ _ E2) in F2.
  assert (F : Forall headless_event (events_since w w')).
  { rewrite (events_since_app w w' (n1 ++ n2)).
    - apply Forall_app. split; auto.
      apply Forall_impl with (P := focus_event); auto.
      intros e. destruct e; simpl; auto.
    - rewrite E2, E1. now rewrite app_assoc. }
  rewrite Forall_forall in F.
  split; [intros name f Hin; exact (F _ Hin)|].
  split; [intros Hin; exact (F _ Hin)|].
  intros wq E. subst o. exact (main_loop_never_returns cfg fuel n init_state w1 wq Hh E).
Qed.

Lemma headless_run_shows_nothing_and_never_quits_witness :
  exists o w',
    main auto_cfg [] 20 3 steady_world = o /\
    world_of o = Some w' /\
    writes (events_since steady_world w') <> [] /\
    ~ In MsgQuit (events_since steady_world w').
Proof.
  eexists. eexists. split; [reflexivity|].
  split; [vm_compute; reflexivity|].
  split; [vm_compute; discriminate|].
  refine (proj1 (proj2 (headless_run_shows_nothing_and_never_quits auto_cfg []
                          20 3 steady_world _ _ eq_refl eq_refl _))).
  vm_compute; reflexivity.
Defined.


(** ** The wait loop without [wait_all] *)

Lemma poll_pass_single cfg names : forall st frames acq w st' frames' acq' w',
  NoDup names ->
  poll_pass cfg names st frames acq w = (st', frames', acq', w') ->
  trace_ext pass_event w w' /\
  (forall c, In c names -> (popped c w' <= S (popped c w))%nat) /\
  (forall c, ~ In c names -> popped c w' = popped c w).
Proof.
  induction names as [|name rest IH];
    intros st frames acq w st' frames' acq' w' Hnd H; simpl in H.
  - injection H as <- <- <- <-.
    split; [apply trace_ext_refl|]. split; [intros c []|auto].
  - inversion Hnd as [|? ? Hnot Hnd']; subst.
    assert (Hskip : forall st0 frames0 acq0,
               poll_pass cfg rest st0 frames0 acq0 w = (st', frames', acq', w') ->
               trace_ext pass_event w w' /\
               (forall c, In c (name :: rest) -> (popped c w' <= S (popped c w))%nat) /\
               (forall c, ~ In c (name :: rest) -> popped c w' = popped c w)).
    { intros st0 frames0 acq0 H0.
      destruct (IH _ _ _ _ _ _ _ _ Hnd' H0) as (T & P1 & P2).
      split; [exact T|]. split.
      - intros c [<-|Hin]; [rewrite (P2 name Hnot); lia|auto].
      - intros c Hc. apply P2. intros Hin. apply Hc. now right. }
    destruct (dict_mem name frames); [eauto|].
    destruct (queue_poll name w) as [[f w1]|] eqn:Hpoll; [|eauto].
    pose proof (queue_poll_spec _ _ _ _ Hpoll) as (_ & Hs & Ho & _).
    pose proof (trace_ext_poll pass_event _ _ _ _ Hpoll I) as T1.
    assert (Hgo : forall st0 frames0 acq0 w2,
               w_queues w2 = w_queues w1 -> trace_ext pass_event w1 w2 ->
               poll_pass cfg rest st0 frames0 acq0 w2 = (st', frames', acq', w') ->
               trace_ext pass_event w w' /\
               (forall c, In c (name :: rest) -> (popped c w' <= S (popped c w))%nat) /\
               (forall c, ~ In c (name :: rest) -> popped c w' = popped c w)).
    { intros st0 frames0 acq0 w2 Hq T2 H0.
      assert (Hp : forall c, popped c w2 = popped c w1).
      { intros c. unfold popped. now rewrite Hq. }
      destruct (IH _ _ _ _ _ _ _ _ Hnd' H0) as (T & P1 & P2).
      split; [eauto using trace_ext_trans|]. split.
      - intros c [<-|Hin].
        + rewrite (P2 name Hnot), Hp, Hs. lia.
        + specialize (P1 c Hin). rewrite Hp in P1.
          rewrite Ho in P1; [exact P1|]. intros ->. contradiction.
      - intros c Hc. rewrite P2, Hp by (intros Hin; apply Hc; now right).
        apply Ho. intros ->. apply Hc. now left. }
    destruct (_ <? _)%Z.
    + eapply Hgo; [| |exact H]; [reflexivity|apply trace_ext_refl].
    + eapply Hgo; [| |exact H].
      * destruct (headless cfg); reflexivity.
      * destruct (headless cfg); [apply trace_ext_refl|].
        apply trace_ext_emit. exact I.
Qed.

(** X13.  Without [wait_all] the wait loop is a single pass over the
    queues: it always ends by [break], takes at most one frame from each
    camera, and neither sleeps nor lets the clock advance (lines 185-217). *)
Theorem without_wait_all_the_wait_loop_is_one_pass cfg fuel start st frames w :
  wait_all cfg = false ->
  NoDup (cams w) ->
  exists st' frames' w',
    collect_frames cfg (S fuel) start st frames w = Collected st' frames' w' /\
    w_time w' = w_time w /\
    Forall pass_event (events_since w w') /\
    forall c, (popped c w' <= S (popped c w))%nat.
Proof.
  intros Hwa Hnd. simpl.
  destruct (poll_pass cfg (cams w) st frames false w)
    as [[[st1 frames1] acq] w1] eqn:Hpass.
  rewrite Hwa. simpl. exists st1, frames1, w1. split; [reflexivity|].
  pose proof (poll_pass_clock _ _ _ _ _ _ _ _ _ _ Hpass) as (Ht & _).
  destruct (poll_pass_single _ _ _ _ _ _ _ _ _ _ Hnd Hpass) as (T & P1 & P2).
  split; [exact Ht|]. split; [now apply trace_ext_since|].
  intros c. destruct (in_dec string_dec c (cams w)) as [Hin|Hout].
  - now apply P1.
  - rewrite (P2 c Hout). lia.
Qed.

Lemma without_wait_all_the_wait_loop_is_one_pass_witness :
  exists st' frames' w',
    collect_frames scenario_cfg 1 0 a_ready_state [] b_arrives_world
    = Collected st' frames' w' /\
    w_time w' = w_time b_arrives_world /\
    popped "CAM_B" w' = 3%nat.
Proof.
  destruct (without_wait_all_the_wait_loop_is_one_pass scenario_cfg 0 0
              a_ready_state [] b_arrives_world)
    as (st' & frames' & w' & E & Ht & _ & _).
  - reflexivity.
  - vm_compute. repeat constructor; simpl; intuition discriminate.
  - exists st', frames', w'. split; [exact E|]. split; [exact Ht|].
    vm_compute in E. injection E as _ _ <-. reflexivity.
Defined.


(** ** The automatic trigger *)

Lemma capture_batch_timer cfg fuel st frames w st' w' :
  capture_batch cfg fuel st frames w = Continue st' w' ->
  last_auto_capture st' = last_auto_capture st.
Proof.
  unfold capture_batch.
  destruct (nonempty _); [intros H; now injection H as <- _|].
  destruct (brightness_loop _ _ _ _ _) as [[c1 x1]| |]; try discriminate.
  destruct (sharpness_check _ _ _ _) as [[c2 x2]| |]; try discriminate.
  destruct (one_shot cfg); [discriminate|].
  intros H. now injection H as <- _.
Qed.

(** X14.  In headless mode without one-shot, a capture that is postponed
    because a camera lacks frames was triggered by the interval having
    elapsed, and it has restarted the interval all the same: the time of
    the trigger is kept as that of the last automatic capture, so the next
    attempt comes a full interval later (lines 234-240, 258-262). *)
Theorem postponed_automatic_capture_restarts_the_interval
    cfg fuel st frames w st' w' lacking :
  headless cfg = true -> one_shot cfg = false ->
  evaluate cfg fuel st frames w = Continue st' w' ->
  In (MsgPostponed lacking) (events_since w w') ->
  last_auto_capture st' = fst (time_time w) /\
  exists interval,
    interval_of cfg = Some interval /\
    (interval <= fst (time_time w) - last_auto_capture st)%Q.
Proof.
  intros Hh Hos H Hin. unfold evaluate, auto_trigger in H.
  rewrite Hh, Hos in H. simpl in H.
  assert (Hidle : forall st0 w0,
             w_trace w0 = w_trace w ->
             Continue st0 (time_sleep (1 # 100) w0) = Continue st' w' -> False).
  { intros st0 w0 Et E. injection E as _ <-.
    rewrite (events_since_app w _ [Sleep (1 # 100)]) in Hin
      by (simpl; now rewrite Et).
    destruct Hin as [E|[]]. discriminate. }
  destruct (interval_of cfg) as [interval|];
    [|exfalso; exact (Hidle _ _ eq_refl H)].
  destruct (nonempty frames) eqn:Hne;
    [|exfalso; exact (Hidle _ _ eq_refl H)].
  pose proof (time_time_trace w) as Ht.
  destruct (time_time w) as [now w1]. simpl in Ht |- *.
  destruct (Qle_bool interval (now - last_auto_capture st)) eqn:Hdue; simpl in H.
  - apply capture_batch_timer in H. simpl in H. split; [exact H|].
    exists interval. split; [reflexivity|]. now apply Qle_bool_iff.
  - exfalso. exact (Hidle _ _ Ht H).
Qed.

Lemma postponed_automatic_capture_restarts_the_interval_witness :
  exists st' w',
    evaluate auto_cfg 3 a_ready_state
             [("CAM_A"%string, {| f_seq := 3; f_img := blank 1 |})]
             b_arrives_world = Continue st' w' /\
    last_auto_capture a_ready_state = 0%Q /\
    last_auto_capture st' = (3#100)%Q.
Proof.
  eexists. eexists. split; [vm_compute; reflexivity|]. split; [reflexivity|].
  refine (proj1 (postponed_automatic_capture_restarts_the_interval auto_cfg 3
                   a_ready_state
                   [("CAM_A"%string, {| f_seq := 3; f_img := blank 1 |})]
                   b_arrives_world _ _ ["CAM_B"%string] eq_refl eq_refl _ _)).
  - vm_compute; reflexivity.
  - vm_compute. auto.
Defined.


(** ** Positions at which the lens command fails *)

Lemma failed_of_app t1 t2 : failed_of (t1 ++ t2) = failed_of t1 ++ failed_of t2.
Proof. unfold failed_of. now rewrite flat_map_app. Qed.

Lemma silent_reports new :
  Forall silent_event new -> failed_of new = [] /\ samples_of new = [].
Proof.
  induction 1 as [|e new He _ IH]; simpl; auto.
  destruct e; simpl in *; auto; contradiction.
Qed.

Lemma set_focus_cases node name pos w :
  match set_focus node name pos w with
  | Some w' => trace_ext silent_event w w' /\ focus_fails node pos = false
  | None => focus_fails node pos = true
  end.
Proof.
  rewrite set_focus_spec. unfold focus_fails.
  destruct (focus_method_of node) as [m|].
  - destruct (focus_raises node pos); auto.
    split; auto. apply trace_ext_emit. exact I.
  - split; auto. apply trace_ext_refl.
Qed.

Lemma wait_frame_silent name window w :
  trace_ext silent_event w (snd (wait_frame name window w)).
Proof.
  unfold wait_frame. pose proof (time_time_trace w) as Ht.
  destruct (time_time w) as [eval_start w1]. simpl in Ht.
  assert (Hnone : forall t, trace_ext silent_event w
            {| w_time := t; w_lag := w_lag w1; w_queues := w_queues w1;
               w_keys := w_keys w1; w_trace := w_trace w1 |}).
  { intros t. exists []. simpl. rewrite app_nil_r. auto. }
  destruct (dict_get name (w_queues w1)) as [q|]; [|apply Hnone].
  destruct (q_pending q) as [|[arrival img] rest]; [apply Hnone|].
  destruct (Qltb arrival (eval_start + window)); [|apply Hnone].
  simpl. eexists. rewrite Ht. split; [reflexivity|]. repeat constructor.
Qed.

Lemma drain_silent rounds name t0 : forall w,
  trace_ext silent_event w (drain rounds name t0 w).
Proof.
  induction rounds as [|rounds IH]; intros w; simpl.
  - apply trace_ext_refl.
  - pose proof (trace_ext_time silent_event w) as Ht.
    destruct (time_time w) as [now w1]. simpl in Ht.
    destruct (Qltb (now - t0) 1); auto.
    destruct (queue_poll name w1) as [[f w2]|] eqn:Hpoll; auto.
    apply (trace_ext_poll silent_event) in Hpoll; [|exact I].
    eapply trace_ext_trans; [exact Ht|].
    eapply trace_ext_trans; [exact Hpoll|apply IH].
Qed.

Lemma scan_report_silent node positions pre new post :
  Forall silent_event pre -> Forall silent_event post ->
  scan_report node positions new ->
  scan_report node positions (pre ++ new ++ post).
Proof.
  intros Fpre Fpost H.
  destruct (silent_reports pre Fpre) as (F1 & S1).
  destruct (silent_reports post Fpost) as (F2 & S2).
  unfold scan_report.
  rewrite !failed_of_app, !samples_of_app, F1, S1, F2, S2, !app_nil_r. exact H.
Qed.

Lemma scan_report_cons node pos positions new :
  scan_report node positions new ->
  (focus_fails node pos = true ->
   scan_report node (pos :: positions) (MsgSetFailed pos :: new)) /\
  (focus_fails node pos = false ->
   scan_report node (pos :: positions) new /\
   forall v, scan_report node (pos :: positions) (MsgPos pos v :: new)).
Proof.
  intros (F & S & L). unfold scan_report. simpl.
  assert (S' : Forall (fun s => (pos = fst s \/ In (fst s) positions) /\
                               focus_fails node (fst s) = false)
                      (samples_of new)).
  { apply Forall_impl with (2 := S). intros s (H1 & H2). auto. }
  split; intros Hf; rewrite Hf.
  - split; [now f_equal|]. split; [exact S'|]. simpl. lia.
  - split; [split; [exact F|split; [exact S'|lia]]|].
    intros v. split; [exact F|]. split; [|simpl; lia].
    constructor; auto.
Qed.

Lemma scan_positions_report node name positions : forall bv bp w,
  exists new,
    w_trace (snd (scan_positions node name positions bv bp w)) = w_trace w ++ new /\
    scan_report node positions new.
Proof.
  induction positions as [|pos rest IH]; intros bv bp w; simpl.
  - exists []. rewrite app_nil_r. split; auto.
    split; [reflexivity|]. split; [constructor|simpl; lia].
  - pose proof (set_focus_cases node name pos w) as Hset.
    destruct (set_focus node name pos w) as [w1|].
    + destruct Hset as ((n1 & E1 & F1) & Hok).
      pose proof (wait_frame_silent name (1 # 2) (time_sleep (15 # 100) w1))
        as (n3 & E3 & F3).
      destruct (wait_frame name (1 # 2) (time_sleep (15 # 100) w1))
        as [[frame_eval|] w3]; simpl in E3.
      * set (sharp_var := laplacian_var (f_img frame_eval)).
        assert (Hstep : exists bv1 bp1,
                   (if Qltb bv sharp_var
                    then scan_positions node name rest sharp_var (Some pos)
                           (emit (MsgPos pos sharp_var) w3)
                    else scan_positions node name rest bv bp
                           (emit (MsgPos pos sharp_var) w3))
                   = scan_positions node name rest bv1 bp1
                       (emit (MsgPos pos sharp_var) w3)).
        { destruct (Qltb bv sharp_var); eauto. }
        destruct Hstep as (bv1 & bp1 & ->).
        destruct (IH bv1 bp1 (emit (MsgPos pos sharp_var) w3)) as (n4 & E4 & R4).
        exists ((n1 ++ Sleep (15 # 100) :: n3) ++ (MsgPos pos sharp_var :: n4) ++ []).
        split.
        { rewrite E4. simpl. rewrite E3, E1, app_nil_r.
          rewrite <- !app_assoc. reflexivity. }
        apply scan_report_silent; auto.
        -- apply Forall_app. split; auto. constructor; auto. exact I.
        -- apply (scan_report_cons node pos rest n4 R4). exact Hok.
      * destruct (IH bv bp w3) as (n4 & E4 & R4).
        exists ((n1 ++ Sleep (15 # 100) :: n3) ++ n4 ++ []).
        split.
        { rewrite E4, E3, E1, app_nil_r. rewrite <- !app_assoc. reflexivity. }
        apply scan_report_silent; auto.
        -- apply Forall_app. split; auto. constructor; auto. exact I.
        -- apply (scan_report_cons node pos rest n4 R4). exact Hok.
    + destruct (IH bv bp (emit (MsgSetFailed pos) w)) as (n4 & E4 & R4).
      exists (MsgSetFailed pos :: n4). split.
      { rewrite E4. simpl. now rewrite <- app_assoc. }
      apply (scan_report_cons node pos rest n4 R4). exact Hset.
Qed.

(** X15.  In the focus scan of one camera, the positions at which the lens
    command raises are exactly the ones reported as failed, in scan order,
    and the scan goes on after each; every sample recorded is for one of
    the positions given, at which the command did not raise; and a position
    gives at most one report (lines 139-165). *)
Theorem failed_positions_are_reported_and_skipped node name positions w :
  failed_of (events_since w (focus_scan_cam node name positions w))
  = filter (focus_fails node) positions /\
  Forall (fun s => In (fst s) positions /\ focus_fails node (fst s) = false)
         (samples_of (events_since w (focus_scan_cam node name positions w))) /\
  (List.length (samples_of (events_since w (focus_scan_cam node name positions w)))
   + List.length (failed_of (events_since w (focus_scan_cam node name positions w)))
   <= List.length positions)%nat.
Proof.
  change (scan_report node positions
            (events_since w (focus_scan_cam node name positions w))).
  unfold focus_scan_cam.
  pose proof (trace_ext_time silent_event (emit (MsgScanning name) w)) as Ht.
  destruct (time_time (emit (MsgScanning name) w)) as [t0 w1]. simpl in Ht.
  pose proof (drain_silent (S (pending_count name w1)) name t0 w1) as Hd.
  set (w2 := drain (S (pending_count name w1)) name t0 w1) in *.
  assert (T2 : trace_ext silent_event w w2).
  { apply (trace_ext_trans silent_event w (emit (MsgScanning name) w) w2);
      [apply trace_ext_emit; exact I|].
    eapply trace_ext_trans; eauto. }
  destruct T2 as (pre & Epre & Fpre).
  destruct (scan_positions_report node name positions (-1) None w2)
    as (new & Enew & Rnew).
  destruct (scan_positions node name positions (-1) None w2) as [[bv bp] w3].
  simpl in Enew.
  assert (Hend : forall post w',
             w_trace w' = w_trace w3 ++ post -> Forall silent_event post ->
             scan_report node positions (events_since w w')).
  { intros post w' E F.
    rewrite (events_since_app w w' (pre ++ new ++ post)).
    - now apply scan_report_silent.
    - rewrite E, Enew, Epre. now rewrite <- !app_assoc. }
  destruct bp as [pos|].
  - pose proof (set_focus_cases node name pos (emit (MsgBestFocus name pos bv) w3))
      as Hset.
    destruct (set_focus node name pos (emit (MsgBestFocus name pos bv) w3))
      as [w5|].
    + destruct Hset as ((n5 & E5 & F5) & _).
      apply (Hend (MsgBestFocus name pos bv :: n5)).
      * rewrite E5. simpl. now rewrite <- app_assoc.
      * constructor; auto. exact I.
    + apply (Hend [MsgBestFocus name pos bv]); [reflexivity|repeat constructor].
  - apply (Hend [MsgNoBestFocus name]); [reflexivity|repeat constructor].
Qed.
